(** * Two-bucket S3 replication ([s3_rep.py]): a shallow embedding

    The script keeps two S3 buckets in step: it loads a snapshot
    ([replication_state.json]) and a progress log ([replication.log.json]),
    lists both buckets, walks over every known key in sorted order, copies or
    deletes, checkpoints after every action, and finally rebuilds and saves the
    snapshot and removes the log.

    The embedding follows the script function by function.  The object store
    (boto3) is the only external collaborator; it is modelled by a [World]
    that holds the two buckets, a clock, a schedule of injected failures, the
    trace of the calls that were made and the lines that were printed. *)

From Stdlib Require Import Ascii String.
From stdpp Require Import base option list sorting strings gmap fin_maps fin_sets.

(** ** Python values *)

Module Py.

(** Truth value of an [Optional[str]]: [None] and [""] are falsy. *)
Definition truthy (v : option string) : bool :=
  match v with
  | Some (String _ _) => true
  | _ => false
  end.

(** [a > b] on [str]: code point order, which on UTF-8 encoded strings is
    the byte-wise lexicographic order. *)
Definition gt (a b : string) : bool := String.ltb b a.

(** [sorted(list(s))] for a set of strings. *)
Definition sorted (s : gset string) : list string :=
  merge_sort String.le (elements s).

(** The exceptions the script can meet: botocore's [ClientError] with its
    [response['Error']['Code']], and everything else (a [ValueError] from
    [json.loads], a [TypeError], ...), which no handler of the script
    catches. *)
Inductive exn :=
| ClientError (code : string)
| OtherError (what : string).

Inductive result (A : Type) :=
| Ok (a : A)
| Raise (e : exn).
Global Arguments Ok {A} a.
Global Arguments Raise {A} e.

End Py.
Export Py.

(** ** Time *)

(** A [datetime] in UTC, as botocore returns for [LastModified] and as
    [datetime.now(timezone.utc)] gives. *)
Record datetime := {
  year : nat; month : nat; day : nat;
  hour : nat; minute : nat; second : nat; microsecond : nat
}.

Definition digit (n : nat) : ascii := ascii_of_nat (48 + n `mod` 10).

Definition d2 (n : nat) (rest : string) : string :=
  String (digit (n `div` 10)) (String (digit n) rest).

Definition d4 (n : nat) (rest : string) : string :=
  d2 (n `div` 100) (d2 n rest).

Definition d6 (n : nat) (rest : string) : string :=
  d2 ((n `div` 100) `div` 100) (d4 n rest).

(** [datetime.isoformat()] of an aware UTC value:
    [YYYY-MM-DDTHH:MM:SS[.ffffff]+00:00]. *)
Definition isoformat (t : datetime) : string :=
  d4 (year t) (String "-" (d2 (month t) (String "-" (d2 (day t)
    (String "T" (d2 (hour t) (String ":" (d2 (minute t) (String ":"
      (d2 (second t)
        (match microsecond t with
         | 0 => "+00:00"
         | us => String "." (d6 us "+00:00")
         end))))))))))).

(** ** Configuration *)

Inductive Bucket := PRIMARY_BUCKET | SECONDARY_BUCKET.

Global Instance Bucket_eq_dec : EqDecision Bucket.
Proof. solve_decision. Defined.

Definition bucket_name (b : Bucket) : string :=
  match b with
  | PRIMARY_BUCKET => "my-primary-bucket"
  | SECONDARY_BUCKET => "my-secondary-bucket"
  end.

Definition STATE_KEY : string := "replication_state.json".
Definition LOG_KEY : string := "replication.log.json".

(** ** Documents kept in the buckets *)

(** One entry of [state["files"]], with the three fields that
    [rebuild_files_state] gives it. *)
Record FileRecord := {
  last_synced : string;
  last_seen_in : list string;
  source : string
}.

(** The snapshot, a dict with the optional keys ["files"] and
    ["last_updated"]. *)
Record State := {
  files : option (gmap string FileRecord);
  last_updated : option string
}.

(** The body of an object.  The model knows the two JSON documents the
    script writes, a snapshot ([json.dumps(state)]) and a progress log
    ([json.dumps(list(completed_keys))]), and takes [json.dumps] followed by
    [json.loads] to be the identity on them.  [Bytes] is content that
    [json.loads] rejects; data files are never decoded, so for them the
    payload is opaque.  JSON documents of other shapes (numbers, nested
    arrays, a record without [last_seen_in], ...) are outside the model. *)
Inductive body :=
| Bytes (payload : string)
| StateDoc (st : State)
| LogDoc (keys : list string).

Record Obj := {
  Body : body;
  LastModified : datetime
}.

(** ** The object store *)

Inductive S3Call :=
| GetObject (b : Bucket) (key : string)
| PutObject (b : Bucket) (key : string) (data : body)
| DeleteObject (b : Bucket) (key : string)
| Copy (src : Bucket) (key : string) (dst : Bucket)
| ListPage (b : Bucket) (page : nat).

(** Console output, one constructor per [print] of the script. *)
Inductive Msg :=
| MsgNoStateFound
| MsgCouldNotSaveState (b : Bucket) (code : string)
| MsgCriticalList (b : Bucket) (code : string)
| MsgCouldNotLoadLog (code : string)
| MsgCouldNotSaveLog (b : Bucket) (code : string)
| MsgCouldNotDeleteLog (b : Bucket) (code : string)
| MsgResuming (skipped : nat)
| MsgDiscovering
| MsgFound (total : nat)
| MsgDeletedFromSecondary (key : string)
| MsgNewInPrimary (key : string)
| MsgDeletedFromPrimary (key : string)
| MsgNewInSecondary (key : string)
| MsgError (key : string) (code : string)
| MsgSyncComplete
| MsgCleaning
| MsgStarting (at_ : string)
| MsgFinished (at_ : string).

(** The world the script runs in.  Every store call and every reading of the
    clock happens at the current [tick] and advances it.  [fault n = Some c]
    makes the store call issued at tick [n] fail with a [ClientError] of code
    [c]; [calls] records each store call with its outcome ([None] for
    success), oldest first; [out] records what was printed. *)
Record World := {
  primary : gmap string Obj;
  secondary : gmap string Obj;
  tick : nat;
  clock : nat → datetime;
  fault : nat → option string;
  calls : list (S3Call * option string);
  out : list Msg
}.

Definition contents (b : Bucket) (w : World) : gmap string Obj :=
  match b with
  | PRIMARY_BUCKET => primary w
  | SECONDARY_BUCKET => secondary w
  end.

Definition set_contents (b : Bucket) (m : gmap string Obj) (w : World) : World :=
  match b with
  | PRIMARY_BUCKET =>
      {| primary := m; secondary := secondary w; tick := tick w;
         clock := clock w; fault := fault w; calls := calls w; out := out w |}
  | SECONDARY_BUCKET =>
      {| primary := primary w; secondary := m; tick := tick w;
         clock := clock w; fault := fault w; calls := calls w; out := out w |}
  end.

Definition advance (w : World) : World :=
  {| primary := primary w; secondary := secondary w; tick := S (tick w);
     clock := clock w; fault := fault w; calls := calls w; out := out w |}.

Definition record_call (c : S3Call) (outcome : option string) (w : World) : World :=
  {| primary := primary w; secondary := secondary w; tick := S (tick w);
     clock := clock w; fault := fault w;
     calls := calls w ++ [(c, outcome)]; out := out w |}.

Definition emit (m : Msg) (w : World) : World :=
  {| primary := primary w; secondary := secondary w; tick := tick w;
     clock := clock w; fault := fault w; calls := calls w;
     out := out w ++ [m] |}.

(** ** The monad of the script: state and exceptions *)

Definition M (A : Type) : Type := World → result A * World.

Definition ret {A} (a : A) : M A := λ w, (Ok a, w).

Definition bind {A B} (m : M A) (f : A → M B) : M B := λ w,
  match m w with
  | (Ok a, w') => f a w'
  | (Raise e, w') => (Raise e, w')
  end.

Definition raise {A} (e : exn) : M A := λ w, (Raise e, w).

(** [try: m  except ClientError as e: h e]. *)
Definition try_except {A} (m : M A) (h : string → M A) : M A := λ w,
  match m w with
  | (Raise (ClientError code), w') => h code w'
  | r => r
  end.

Definition print (m : Msg) : M unit := λ w, (Ok tt, emit m w).

Notation "'let*' x := m 'in' k" := (bind m (λ x, k))
  (at level 10, x name, m at level 200, k at level 200, only parsing).
Notation "'run' m 'in' k" := (bind m (λ _, k))
  (at level 10, m at level 200, k at level 200, only parsing).

(** *** Store primitives *)

Module s3.

Definition get_object (b : Bucket) (key : string) : M body := λ w,
  match fault w (tick w) with
  | Some code =>
      (Raise (ClientError code), record_call (GetObject b key) (Some code) w)
  | None =>
      match contents b w !! key with
      | None =>
          (Raise (ClientError "NoSuchKey"),
           record_call (GetObject b key) (Some "NoSuchKey") w)
      | Some o => (Ok (Body o), record_call (GetObject b key) None w)
      end
  end.

Definition put_object (b : Bucket) (key : string) (data : body) : M unit := λ w,
  match fault w (tick w) with
  | Some code =>
      (Raise (ClientError code),
       record_call (PutObject b key data) (Some code) w)
  | None =>
      let o := {| Body := data; LastModified := clock w (tick w) |} in
      (Ok tt,
       record_call (PutObject b key data) None
         (set_contents b (<[key := o]> (contents b w)) w))
  end.

(** Deleting a key that is not there succeeds. *)
Definition delete_object (b : Bucket) (key : string) : M unit := λ w,
  match fault w (tick w) with
  | Some code =>
      (Raise (ClientError code), record_call (DeleteObject b key) (Some code) w)
  | None =>
      (Ok tt,
       record_call (DeleteObject b key) None
         (set_contents b (delete key (contents b w)) w))
  end.

(** The managed copy: fails with code 404 when the source is gone. *)
Definition copy (src : Bucket) (key : string) (dst : Bucket) : M unit := λ w,
  match fault w (tick w) with
  | Some code =>
      (Raise (ClientError code), record_call (Copy src key dst) (Some code) w)
  | None =>
      match contents src w !! key with
      | None =>
          (Raise (ClientError "404"),
           record_call (Copy src key dst) (Some "404") w)
      | Some o =>
          let o' := {| Body := Body o; LastModified := clock w (tick w) |} in
          (Ok tt,
           record_call (Copy src key dst) None
             (set_contents dst (<[key := o']> (contents dst w)) w))
      end
  end.

(** One request of the [list_objects_v2] paginator. *)
Definition list_page (b : Bucket) (n : nat) : M unit := λ w,
  match fault w (tick w) with
  | Some code =>
      (Raise (ClientError code), record_call (ListPage b n) (Some code) w)
  | None => (Ok tt, record_call (ListPage b n) None w)
  end.

(** At most [MaxKeys] entries per page. *)
Definition MaxKeys : nat := 1000.

Fixpoint chunks {A} (fuel sz : nat) (l : list A) : list (list A) :=
  match fuel, l with
  | 0, _ => []
  | _, [] => []
  | S fuel', _ => take sz l :: chunks fuel' sz (drop sz l)
  end.

(** The entries of a bucket in the order the store lists them (sorted by
    key), cut into pages; an empty bucket still answers with one page that
    has no ["Contents"]. *)
Definition entries (m : gmap string Obj) : list (string * Obj) :=
  omap (λ k, (λ o, (k, o)) <$> m !! k) (Py.sorted (dom m)).

Definition all_pages (m : gmap string Obj) : list (list (string * Obj)) :=
  match entries m with
  | [] => [[]]
  | l => chunks (length l) MaxKeys l
  end.

End s3.

(** ** The script *)

(** [now()]: the current UTC time in ISO format. *)
Definition now : M string := λ w,
  (Ok (isoformat (clock w (tick w))), advance w).

(** What [json.loads] returns: a dict for a snapshot, a list for a log.
    The script decodes whatever it finds under a control key, so either may
    turn up under either key. *)
Inductive PyDoc :=
| Dict (st : State)
| List (keys : list string).

(** [json.loads(obj["Body"].read().decode("utf-8"))]; content that is not
    JSON raises a [ValueError], which is not a [ClientError]. *)
Definition json_loads (data : body) : M PyDoc :=
  match data with
  | StateDoc st => ret (Dict st)
  | LogDoc keys => ret (List keys)
  | Bytes _ => raise (OtherError "json")
  end.

(** [state.get("last_updated", "")] and [state.get("files", {})] on a dict. *)
Definition get_last_updated (st : State) : string := default "" (last_updated st).
Definition get_files (st : State) : gmap string FileRecord := default ∅ (files st).

(** [doc.get(...)]: a list has no [get], the call raises [AttributeError]. *)
Definition doc_get {A} (field : State → A) (doc : PyDoc) : M A :=
  match doc with
  | Dict st => ret (field st)
  | List _ => raise (OtherError "AttributeError")
  end.

(** [set(doc)]: the keys of a dict, the elements of a list. *)
Definition doc_set (doc : PyDoc) : gset string :=
  match doc with
  | Dict st =>
      (match files st with Some _ => {["files"]} | None => ∅ end)
      ∪ (match last_updated st with Some _ => {["last_updated"]} | None => ∅ end)
  | List keys => list_to_set keys
  end.

(** Truth value of a dict held in a variable: [None] and the empty dict are
    falsy. *)
Definition state_truthy (state : option State) : bool :=
  match state with
  | None => false
  | Some st => bool_decide (is_Some (files st)) || bool_decide (is_Some (last_updated st))
  end.

(** Truth value of the variable [state] of [load_state]: [None], the empty
    dict and the empty list are falsy. *)
Definition doc_truthy (state : option PyDoc) : bool :=
  match state with
  | None => false
  | Some (Dict st) => state_truthy (Some st)
  | Some (List keys) => match keys with [] => false | _ :: _ => true end
  end.

(** One turn of the loop of [load_state].  [not state or a > b] evaluates
    the comparison, and with it the two [get] calls, only when [state] is
    truthy. *)
Definition load_state_from (bucket : Bucket) (state : option PyDoc)
  : M (option PyDoc) :=
  try_except
    (let* obj := s3.get_object bucket STATE_KEY in
     let* candidate := json_loads obj in
     match state with
     | Some old =>
         if negb (doc_truthy state) then ret (Some candidate)
         else
           let* a := doc_get get_last_updated candidate in
           let* b := doc_get get_last_updated old in
           if Py.gt a b then ret (Some candidate) else ret state
     | None => ret (Some candidate)
     end)
    (λ _, ret state).

(** The tail of [load_state] when no usable snapshot was found. *)
Definition fresh_state : M PyDoc :=
  run print MsgNoStateFound in
  let* t := now in
  ret (Dict {| files := Some ∅; last_updated := Some t |}).

Definition load_state : M PyDoc :=
  let* state := load_state_from PRIMARY_BUCKET None in
  let* state := load_state_from SECONDARY_BUCKET state in
  match state with
  | Some doc => if doc_truthy state then ret doc else fresh_state
  | None => fresh_state
  end.

(** One turn of the loop of [save_state]. *)
Definition save_state_to (bucket : Bucket) (encoded : body) : M unit :=
  try_except
    (s3.put_object bucket STATE_KEY encoded)
    (λ e, print (MsgCouldNotSaveState bucket e)).

(** [state] is a dict that [save_state] stamps in place; the model hands the
    stamped dict back. *)
Definition save_state (state : State) : M State :=
  let* t := now in
  let state := {| files := files state; last_updated := Some t |} in
  let encoded := StateDoc state in
  run save_state_to PRIMARY_BUCKET encoded in
  run save_state_to SECONDARY_BUCKET encoded in
  ret state.

(** The inner loop of [list_bucket_objects] over the ["Contents"] of a page. *)
Definition add_page (page : list (string * Obj)) (result : gmap string string)
  : gmap string string :=
  foldl (λ result obj,
           if bool_decide (obj.1 ∈ [STATE_KEY; LOG_KEY]) then result
           else <[obj.1 := isoformat (LastModified obj.2)]> result)
        result page.

(** The outer loop: each page costs one request; when a request fails the
    handler prints and the function returns what [result] holds by then. *)
Fixpoint list_pages (bucket : Bucket) (n : nat) (pages : list (list (string * Obj)))
    (result : gmap string string) : M (gmap string string) :=
  match pages with
  | [] => ret result
  | page :: rest =>
      try_except
        (run s3.list_page bucket n in
         list_pages bucket (S n) rest (add_page page result))
        (λ e, run print (MsgCriticalList bucket e) in ret result)
  end.

Definition list_bucket_objects (bucket : Bucket) : M (gmap string string) := λ w,
  list_pages bucket 0 (s3.all_pages (contents bucket w)) ∅ w.

(** The record [rebuild_files_state] makes for one key. *)
Definition rebuild_entry (primary_files secondary_files : gmap string string)
    (key : string) : M FileRecord :=
  let locations := [] in
  let locations :=
    if bool_decide (key ∈ dom primary_files) then locations ++ ["primary"]
    else locations in
  let locations :=
    if bool_decide (key ∈ dom secondary_files) then locations ++ ["secondary"]
    else locations in
  let p_time := default "" (primary_files !! key) in
  let s_time := default "" (secondary_files !! key) in
  let source :=
    if Py.gt p_time s_time then "primary"
    else if Py.gt s_time p_time then "secondary"
    else "equal" in
  let* t := now in
  ret {| last_synced := t; last_seen_in := locations; source := source |}.

Fixpoint rebuild_loop (primary_files secondary_files : gmap string string)
    (keys : list string) (files : gmap string FileRecord)
  : M (gmap string FileRecord) :=
  match keys with
  | [] => ret files
  | key :: rest =>
      let* r := rebuild_entry primary_files secondary_files key in
      rebuild_loop primary_files secondary_files rest (<[key := r]> files)
  end.

(** The iteration order of a Python set is unspecified; [elements] fixes one.
    The order only decides which clock reading each record gets. *)
Definition rebuild_files_state (primary_files secondary_files : gmap string string)
  : M (gmap string FileRecord) :=
  let all_keys := dom primary_files ∪ dom secondary_files in
  rebuild_loop primary_files secondary_files (elements all_keys) ∅.

Definition load_progress_log : M (gset string) :=
  try_except
    (let* obj := s3.get_object PRIMARY_BUCKET LOG_KEY in
     let* doc := json_loads obj in
     ret (doc_set doc))
    (λ code,
       if bool_decide (code = "NoSuchKey") then ret ∅
       else
         run print (MsgCouldNotLoadLog code) in
         ret ∅).

Definition save_progress_log_to (bucket : Bucket) (encoded : body) : M unit :=
  try_except
    (s3.put_object bucket LOG_KEY encoded)
    (λ e, print (MsgCouldNotSaveLog bucket e)).

Definition save_progress_log (completed_keys : gset string) : M unit :=
  let encoded := LogDoc (elements completed_keys) in
  run save_progress_log_to PRIMARY_BUCKET encoded in
  save_progress_log_to SECONDARY_BUCKET encoded.

Definition delete_progress_log_from (bucket : Bucket) : M unit :=
  try_except
    (s3.delete_object bucket LOG_KEY)
    (λ e, print (MsgCouldNotDeleteLog bucket e)).

Definition delete_progress_log : M unit :=
  run delete_progress_log_from PRIMARY_BUCKET in
  delete_progress_log_from SECONDARY_BUCKET.

(** *** [replicate_resilient] *)

(** What the loop body decides for a key: the four branches of the nested
    [if]/[elif], and nothing when neither guard holds. *)
Inductive Action :=
| DeleteFromPrimary
| CopyToSecondary
| DeleteFromSecondary
| CopyToPrimary
| NoAction.

Global Instance Action_eq_dec : EqDecision Action.
Proof. solve_decision. Defined.

(** [tag in state["files"][key]["last_seen_in"]]. *)
Definition seen_in (tag : string) (state : State) (key : string) : bool :=
  match get_files state !! key with
  | Some r => bool_decide (tag ∈ last_seen_in r)
  | None => false
  end.

Definition planned_action (state : State)
    (primary_files secondary_files : gmap string string) (key : string) : Action :=
  let p_time := primary_files !! key in
  let s_time := secondary_files !! key in
  let in_state := bool_decide (key ∈ dom (get_files state)) in
  if Py.truthy p_time && negb (Py.truthy s_time) then
    if in_state && seen_in "secondary" state key then DeleteFromPrimary
    else CopyToSecondary
  else if Py.truthy s_time && negb (Py.truthy p_time) then
    if in_state && seen_in "primary" state key then DeleteFromSecondary
    else CopyToPrimary
  else NoAction.

(** The store call of each branch; the result is [action_taken]. *)
Definition perform (a : Action) (key : string) : M bool :=
  match a with
  | DeleteFromPrimary =>
      run print (MsgDeletedFromSecondary key) in
      run s3.delete_object PRIMARY_BUCKET key in
      ret true
  | CopyToSecondary =>
      run print (MsgNewInPrimary key) in
      run s3.copy PRIMARY_BUCKET key SECONDARY_BUCKET in
      ret true
  | DeleteFromSecondary =>
      run print (MsgDeletedFromPrimary key) in
      run s3.delete_object SECONDARY_BUCKET key in
      ret true
  | CopyToPrimary =>
      run print (MsgNewInSecondary key) in
      run s3.copy SECONDARY_BUCKET key PRIMARY_BUCKET in
      ret true
  | NoAction => ret false
  end.

(** How one turn of the loop ends: on to the next key with the completed set,
    or [return] out of the function. *)
Inductive Flow :=
| Continue (completed_this_run : gset string)
| Return.

(** The body of [for key in sorted(list(all_keys))]. *)
Definition process_key (state : State)
    (primary_files secondary_files : gmap string string)
    (key : string) (completed_this_run : gset string) : M Flow :=
  if bool_decide (key ∈ completed_this_run) then ret (Continue completed_this_run)
  else
    try_except
      (let* action_taken :=
         perform (planned_action state primary_files secondary_files key) key in
       if action_taken : bool then
         let completed_this_run := completed_this_run ∪ {[key]} in
         run save_progress_log completed_this_run in
         ret (Continue completed_this_run)
       else ret (Continue completed_this_run))
      (λ e, run print (MsgError key e) in ret Return).

Fixpoint sync_loop (state : State)
    (primary_files secondary_files : gmap string string)
    (keys : list string) (completed_this_run : gset string) : M Flow :=
  match keys with
  | [] => ret (Continue completed_this_run)
  | key :: rest =>
      let* r := process_key state primary_files secondary_files key completed_this_run in
      match r with
      | Continue completed_this_run =>
          sync_loop state primary_files secondary_files rest completed_this_run
      | Return => ret Return
      end
  end.

(** What the head of [replicate_resilient] (up to the loop) has in hand. *)
Record Discovery := {
  d_state : State;
  d_completed : gset string;
  d_primary_files : gmap string string;
  d_secondary_files : gmap string string
}.

Definition all_keys (d : Discovery) : gset string :=
  dom (d_primary_files d) ∪ dom (d_secondary_files d) ∪ dom (get_files (d_state d)).

Definition discover : M Discovery :=
  let* state := load_state in
  let* completed_in_prior_run := load_progress_log in
  run (if bool_decide (completed_in_prior_run ≠ ∅)
       then print (MsgResuming (size completed_in_prior_run))
       else ret tt) in
  run print MsgDiscovering in
  let* primary_files := list_bucket_objects PRIMARY_BUCKET in
  let* secondary_files := list_bucket_objects SECONDARY_BUCKET in
  (* [state.get("files", {})]: from here on [state] is used as a dict *)
  let* state := doc_get (λ st, st) state in
  let d := {| d_state := state; d_completed := completed_in_prior_run;
              d_primary_files := primary_files;
              d_secondary_files := secondary_files |} in
  run print (MsgFound (size (all_keys d))) in
  ret d.

(** The loop of [replicate_resilient] on what was discovered. *)
Definition sync (d : Discovery) : M Flow :=
  sync_loop (d_state d) (d_primary_files d) (d_secondary_files d)
            (Py.sorted (all_keys d)) (d_completed d).

(** The tail of [replicate_resilient], after the loop ran to its end. *)
Definition finish (state : State) : M unit :=
  run print MsgSyncComplete in
  let* final_primary_files := list_bucket_objects PRIMARY_BUCKET in
  let* final_secondary_files := list_bucket_objects SECONDARY_BUCKET in
  let* rebuilt := rebuild_files_state final_primary_files final_secondary_files in
  let state := {| files := Some rebuilt; last_updated := last_updated state |} in
  run save_state state in
  run print MsgCleaning in
  delete_progress_log.

Definition replicate_resilient : M unit :=
  let* d := discover in
  let* r := sync d in
  match r with
  | Return => ret tt
  | Continue _ => finish (d_state d)
  end.

(** The [__main__] block. *)
Definition main : M unit :=
  let* t := now in
  run print (MsgStarting t) in
  run replicate_resilient in
  let* t := now in
  print (MsgFinished t).

(** ** Sample data for the closed examples *)

Module Sample.

Definition t0 : datetime :=
  {| year := 2024; month := 5; day := 17;
     hour := 9; minute := 30; second := 0; microsecond := 0 |}.

(** A clock that moves one second per tick. *)
Definition clk (n : nat) : datetime :=
  {| year := 2025; month := 1; day := 1;
     hour := 0; minute := 0; second := n; microsecond := 0 |}.

Definition file (payload : string) : Obj :=
  {| Body := Bytes payload; LastModified := t0 |}.

Definition log_doc (keys : list string) : Obj :=
  {| Body := LogDoc keys; LastModified := t0 |}.

Definition no_fault : nat → option string := λ _, None.

(** The call issued at tick [n] is refused. *)
Definition fault_at (n : nat) (code : string) : nat → option string :=
  λ i, if bool_decide (i = n) then Some code else None.

Definition world (p s : gmap string Obj) (f : nat → option string) : World :=
  {| primary := p; secondary := s; tick := 0; clock := clk;
     fault := f; calls := []; out := [] |}.

(** The log is readable in the primary bucket, but the read is refused. *)
Definition w_log_denied : World :=
  world {[ LOG_KEY := log_doc ["a.txt"] ]} ∅ (fault_at 0 "AccessDenied").

(** Only the secondary bucket holds a log. *)
Definition w_log_secondary : World :=
  world ∅ {[ LOG_KEY := log_doc ["a.txt"] ]} no_fault.

(** Only the primary bucket holds a log. *)
Definition w_log_primary : World :=
  world {[ LOG_KEY := log_doc ["a.txt"] ]} ∅ no_fault.

Definition st_empty : State := {| files := Some ∅; last_updated := None |}.

(** Both writes of [save_state] (ticks 1 and 2, after the clock reading at
    tick 0) are refused. *)
Definition w_save_both_fail : World :=
  world ∅ ∅ (λ i, if bool_decide (i = 1 ∨ i = 2) then Some "AccessDenied" else None).

(** Only the write to the primary bucket is refused. *)
Definition w_save_primary_fails : World :=
  world ∅ ∅ (fault_at 1 "AccessDenied").

Definition iso0 : string := "2024-05-17T09:30:00+00:00".

(** A snapshot that saw [x.txt] in both buckets. *)
Definition st_synced : State :=
  {| files := Some {[ "x.txt" := {| last_synced := iso0;
                                    last_seen_in := ["primary"; "secondary"];
                                    source := "equal" |} ]};
     last_updated := Some iso0 |}.

Definition state_doc (st : State) : Obj :=
  {| Body := StateDoc st; LastModified := t0 |}.

(** Both buckets in step: [x.txt] and the snapshot on each side. *)
Definition synced : gmap string Obj :=
  {[ "x.txt" := file "X"; STATE_KEY := state_doc st_synced ]}.

(** The listing of the secondary bucket (the fifth store call of the run,
    after two snapshot reads, the log read and the listing of the primary
    bucket) is refused. *)
Definition w_list_fails : World :=
  world synced synced (fault_at 4 "AccessDenied").

(** A new file in the primary bucket, nothing else anywhere. *)
Definition w_new_file : World :=
  world {[ "x.txt" := file "X" ]} ∅ no_fault.

(** The same, but the copy is refused: it is issued at tick 6 of
    [replicate_resilient] (three reads, a clock reading, two listings
    before it). *)
Definition w_copy_fails : World :=
  world {[ "x.txt" := file "X" ]} ∅ (fault_at 6 "AccessDenied").

(** [x.txt] was seen on both sides and has since been deleted from the
    primary bucket. *)
Definition w_deleted_in_primary : World :=
  world {[ STATE_KEY := state_doc st_synced ]} synced no_fault.

(** Two new files in the primary bucket. *)
Definition w_two_files : World :=
  world {[ "a.txt" := file "A"; "b.txt" := file "B" ]} ∅ no_fault.

(** The primary bucket holds something under the snapshot's key that is not
    JSON. *)
Definition w_garbled_state : World :=
  world {[ STATE_KEY := file "not json" ]} ∅ no_fault.

(** An older snapshot in the primary bucket, a newer one in the secondary. *)
Definition st_older : State :=
  {| files := Some ∅; last_updated := Some "2024-01-01T00:00:00+00:00" |}.

Definition st_newer : State :=
  {| files := Some ∅; last_updated := Some "2024-06-01T00:00:00+00:00" |}.

Definition w_two_snapshots : World :=
  world {[ STATE_KEY := state_doc st_older ]}
        {[ STATE_KEY := state_doc st_newer ]} no_fault.

(** The snapshot is in the primary bucket only. *)
Definition w_snapshot_primary_only : World :=
  world {[ STATE_KEY := state_doc st_synced ]} ∅ no_fault.

(** Nothing anywhere. *)
Definition w_empty : World := world ∅ ∅ no_fault.

(** Both buckets hold [x.txt]; no snapshot, no log. *)
Definition w_in_step : World :=
  world {[ "x.txt" := file "X" ]} {[ "x.txt" := file "X" ]} no_fault.

(** Half a millisecond after [t0]. *)
Definition t0_later : datetime :=
  {| year := 2024; month := 5; day := 17;
     hour := 9; minute := 30; second := 0; microsecond := 500 |}.

(** [x.txt] in both buckets, the primary's copy modified later. *)
Definition w_primary_newer : World :=
  world {[ "x.txt" := {| Body := Bytes "X2"; LastModified := t0_later |} ]}
        {[ "x.txt" := file "X" ]} no_fault.

(** The calls issued at the ticks of [l] are refused. *)
Definition fault_in (l : list nat) (code : string) : nat → option string :=
  λ i, if bool_decide (i ∈ l) then Some code else None.

Definition three_files : gmap string Obj :=
  {[ "a.txt" := file "A"; "b.txt" := file "B"; "c.txt" := file "C" ]}.

(** Three new files in the primary bucket. *)
Definition w_three_files : World := world three_files ∅ no_fault.

(** The same, but the copy of [b.txt] is refused: [replicate_resilient]
    issues it at tick 9, after the copy of [a.txt] at tick 6 and the two
    writes of its checkpoint. *)
Definition w_second_copy_fails : World :=
  world three_files ∅ (fault_at 9 "AccessDenied").

(** The same for [main], which reads the clock once more at its start. *)
Definition w_second_copy_fails_main : World :=
  world three_files ∅ (fault_at 10 "AccessDenied").



(** A snapshot in both buckets, a log in the primary bucket, and a store
    that refuses every call from tick 3 to tick 30. *)
Definition w_store_down : World :=
  world {[ STATE_KEY := state_doc st_synced; LOG_KEY := log_doc ["a.txt"];
           "x.txt" := file "X" ]}
        {[ STATE_KEY := state_doc st_synced ]}
        (fault_in (seq 3 28) "ServiceUnavailable").

(** A list where the snapshot should be, in the primary bucket only. *)
Definition w_list_as_snapshot : World :=
  world {[ STATE_KEY := log_doc ["a.txt"] ]} ∅ no_fault.

(** An empty list where the snapshot should be. *)
Definition w_empty_list_as_snapshot : World :=
  world {[ STATE_KEY := log_doc [] ]} ∅ no_fault.

(** A snapshot where the log should be. *)
Definition w_snapshot_as_log : World :=
  world {[ LOG_KEY := state_doc st_synced ]} ∅ no_fault.

End Sample.

(** ** The specification's reading of two operations

    These two definitions follow the words of the specification, not the
    script; the script is compared with them below. *)

Definition log_in (b : Bucket) (w : World) : option (list string) :=
  match contents b w !! LOG_KEY with
  | Some {| Body := LogDoc keys |} => Some keys
  | _ => None
  end.

(** "First-available read across replicas; missing-on-all returns the empty
    set." *)
Definition first_available_log (w : World) : gset string :=
  match log_in PRIMARY_BUCKET w with
  | Some keys => list_to_set keys
  | None =>
      match log_in SECONDARY_BUCKET w with
      | Some keys => list_to_set keys
      | None => ∅
      end
  end.

(** "present only in A: previously seen in B → delete from A, else copy A→B;
    present only in B: symmetric; present in both, or absent from both:
    none", with [wasSeen] read off the record's [last_seen_in] (absent if the
    key had no record). *)
Definition was_seen (tag : string) (record : option FileRecord) : bool :=
  match record with
  | Some r => bool_decide (tag ∈ last_seen_in r)
  | None => false
  end.

Definition spec_action (presentA presentB : bool) (record : option FileRecord)
  : Action :=
  match presentA, presentB with
  | true, false =>
      if was_seen "secondary" record then DeleteFromPrimary else CopyToSecondary
  | false, true =>
      if was_seen "primary" record then DeleteFromSecondary else CopyToPrimary
  | _, _ => NoAction
  end.

(** The store call an action stands for. *)
Definition call_of (a : Action) (key : string) : option S3Call :=
  match a with
  | DeleteFromPrimary => Some (DeleteObject PRIMARY_BUCKET key)
  | CopyToSecondary => Some (Copy PRIMARY_BUCKET key SECONDARY_BUCKET)
  | DeleteFromSecondary => Some (DeleteObject SECONDARY_BUCKET key)
  | CopyToPrimary => Some (Copy SECONDARY_BUCKET key PRIMARY_BUCKET)
  | NoAction => None
  end.

(** ** What a listing can hold *)

(** The full listing of a bucket: every object but the two control files,
    with its time stamp in ISO format. *)
Definition listing_of (m : gmap string Obj) : gmap string string :=
  (λ o, isoformat (LastModified o)) <$> delete STATE_KEY (delete LOG_KEY m).

(** A listing as [list_bucket_objects] can return it: no empty time stamp, no
    control file. *)
Definition listing_wf (l : gmap string string) : Prop :=
  ∀ key t, l !! key = Some t → t ≠ "" ∧ key ≠ STATE_KEY ∧ key ≠ LOG_KEY.

(** ** Vocabulary for the statements *)

(** No store call is ever refused. *)
Definition no_faults (w : World) : Prop := ∀ n, fault w n = None.

(** [w'] has the buckets, the clock and the failure schedule of [w]. *)
Definition quiet (w w' : World) : Prop :=
  primary w' = primary w ∧ secondary w' = secondary w
  ∧ clock w' = clock w ∧ fault w' = fault w.

(** From [w] to [w'] only calls that satisfy [P] were made. *)
Definition only_calls (P : S3Call → Prop) (w w' : World) : Prop :=
  ∃ l, calls w' = calls w ++ l ∧ Forall (λ c, P c.1) l.

Definition is_get (c : S3Call) : Prop :=
  match c with GetObject _ _ => True | _ => False end.

Definition is_list (c : S3Call) : Prop :=
  match c with ListPage _ _ => True | _ => False end.

(** A copy or a delete of the key. *)
Definition acts_on (key : string) (c : S3Call) : Prop :=
  match c with
  | DeleteObject _ k | Copy _ k _ => k = key
  | _ => False
  end.

(** A write of the progress log. *)
Definition is_checkpoint (c : S3Call) : Prop :=
  match c with
  | PutObject _ k (LogDoc _) => k = LOG_KEY
  | _ => False
  end.

(** A call the loop can make on listings [pf] and [sf]: a checkpoint, or a
    copy or delete of a listed key. *)
Definition loop_call (pf sf : gmap string string) (c : S3Call) : Prop :=
  is_checkpoint c ∨ ∃ key, acts_on key c ∧ (key ∈ dom pf ∨ key ∈ dom sf).

(** A call of the tail of the run: a listing, the write of the snapshot, the
    removal of the log. *)
Definition finish_call (c : S3Call) : Prop :=
  match c with
  | ListPage _ _ => True
  | PutObject _ k (StateDoc _) => k = STATE_KEY
  | DeleteObject _ k => k = LOG_KEY
  | _ => False
  end.


(** *** Comparing runs *)

(** Two buckets that hold the same keys with the same bodies; the time
    stamps may differ. *)
Definition same_map (m m' : gmap string Obj) : Prop :=
  ∀ key, Body <$> (m !! key) = Body <$> (m' !! key).

Definition same_bodies (w w' : World) : Prop :=
  same_map (primary w) (primary w') ∧ same_map (secondary w) (secondary w').

(** A snapshot without its time stamps: where each key was last seen. *)
Definition seen_map (st : State) : gmap string (list string) :=
  last_seen_in <$> get_files st.

(** Two worlds at the end of a run that agree on everything but time: the
    same bodies under every key other than the snapshot's, and in each bucket
    a snapshot with the same keys and the same [last_seen_in]. *)
Definition same_outcome (w w' : World) : Prop :=
  (∀ b key, key ≠ STATE_KEY →
     Body <$> (contents b w !! key) = Body <$> (contents b w' !! key))
  ∧ ∀ b, ∃ st st',
      Body <$> (contents b w !! STATE_KEY) = Some (StateDoc st)
      ∧ Body <$> (contents b w' !! STATE_KEY) = Some (StateDoc st')
      ∧ seen_map st = seen_map st'.

(** The world a run started in [w] is in when it is killed right after the
    turns of its loop for [keys], the first keys of its sorted list. *)
Definition interrupted_after (keys : list string) (w : World) : World :=
  match discover w with
  | (Ok d, w1) =>
      (sync_loop (d_state d) (d_primary_files d) (d_secondary_files d)
         keys (d_completed d) w1).2
  | (Raise _, w1) => w1
  end.

(** The snapshot stored in a bucket. *)
Definition snapshot_in (b : Bucket) (w : World) : option State :=
  match contents b w !! STATE_KEY with
  | Some {| Body := StateDoc st |} => Some st
  | _ => None
  end.

(** What [load_progress_log] gets out of the primary bucket when its read is
    served. *)
Definition loaded (m : gmap string Obj) : result (gset string) :=
  match m !! LOG_KEY with
  | None => Ok ∅
  | Some o =>
      match Body o with
      | LogDoc keys => Ok (doc_set (List keys))
      | StateDoc st => Ok (doc_set (Dict st))
      | Bytes _ => Raise (OtherError "json")
      end
  end.

(** The effect of a served action on the two buckets at time [t]; [None]
    when the source of a copy is missing. *)
Definition apply_action (a : Action) (key : string) (t : datetime)
    (p s : gmap string Obj) : option (gmap string Obj * gmap string Obj) :=
  match a with
  | DeleteFromPrimary => Some (delete key p, s)
  | CopyToSecondary =>
      match p !! key with
      | Some o => Some (p, <[key := {| Body := Body o; LastModified := t |}]> s)
      | None => None
      end
  | DeleteFromSecondary => Some (p, delete key s)
  | CopyToPrimary =>
      match s !! key with
      | Some o => Some (<[key := {| Body := Body o; LastModified := t |}]> p, s)
      | None => None
      end
  | NoAction => Some (p, s)
  end.

(** "A write failure to both is a run-level error surfaced to the caller." *)
Definition surfaces_error {A} (r : result A * World) : Prop :=
  ∃ e, r.1 = Raise e.

(** *** Control files of the script's own making *)

(** Under the snapshot's key the bucket holds a snapshot or nothing. *)
Definition holds_snapshot (b : Bucket) (w : World) : Prop :=
  ∀ o, contents b w !! STATE_KEY = Some o → ∃ st, Body o = StateDoc st.

(** Under the log's key the bucket holds a log or nothing. *)
Definition holds_log (b : Bucket) (w : World) : Prop :=
  ∀ o, contents b w !! LOG_KEY = Some o → ∃ keys, Body o = LogDoc keys.

(** The control files that a run reads are of the script's own making: the
    snapshot of either bucket and the log of the primary bucket. *)
Definition own_documents (w : World) : Prop :=
  holds_snapshot PRIMARY_BUCKET w
  ∧ holds_snapshot SECONDARY_BUCKET w
  ∧ holds_log PRIMARY_BUCKET w.

(** *** The calls of a whole run *)

(** What a run may ask of the store: read a control file, list, write the
    snapshot under its key or the log under its key, delete the log, and copy
    or delete a key that is not a control file. *)
Definition run_call (c : S3Call) : Prop :=
  match c with
  | GetObject _ k => k = STATE_KEY ∨ k = LOG_KEY
  | PutObject _ k (StateDoc _) => k = STATE_KEY
  | PutObject _ k (LogDoc _) => k = LOG_KEY
  | PutObject _ _ (Bytes _) => False
  | DeleteObject _ k => k ≠ STATE_KEY
  | Copy _ k _ => k ≠ STATE_KEY ∧ k ≠ LOG_KEY
  | ListPage _ _ => True
  end.

(** *** Reading the snapshot *)

(** The tick at which [load_state] reads a bucket. *)
Definition state_read_tick (b : Bucket) (w : World) : nat :=
  match b with
  | PRIMARY_BUCKET => tick w
  | SECONDARY_BUCKET => S (tick w)
  end.

(** The read of the snapshot from a bucket ends in a [ClientError]: the
    request is refused, or the bucket has no snapshot. *)
Definition state_read_fails (b : Bucket) (w : World) : Prop :=
  is_Some (fault w (state_read_tick b w)) ∨ contents b w !! STATE_KEY = None.

(** The read is served and yields the snapshot [st]. *)
Definition state_read_gives (b : Bucket) (w : World) (st : State) : Prop :=
  fault w (state_read_tick b w) = None
  ∧ Body <$> contents b w !! STATE_KEY = Some (StateDoc st).

(** *** The effect of an action on its key *)

(** What a served action leaves under its key: [p], [s] are the objects of
    the primary and the secondary bucket before, [p'], [s'] after.  A copy
    gives the destination the body of the source (its time stamp is the
    store's); a delete removes the object; the other side is untouched. *)
Definition after_action (a : Action) (p s p' s' : option Obj) : Prop :=
  match a with
  | DeleteFromPrimary => p' = None ∧ s' = s
  | CopyToSecondary => p' = p ∧ Body <$> s' = Body <$> p
  | DeleteFromSecondary => p' = p ∧ s' = None
  | CopyToPrimary => Body <$> p' = Body <$> s ∧ s' = s
  | NoAction => p' = p ∧ s' = s
  end.

(** *** Time stamps as strings *)

(** Lexicographic comparison of two lists of numbers. *)
Fixpoint lex_compare (l1 l2 : list nat) : comparison :=
  match l1, l2 with
  | x :: l1', y :: l2' =>
      match x ?= y with
      | Eq => lex_compare l1' l2'
      | c => c
      end
  | [], [] => Eq
  | [], _ :: _ => Lt
  | _ :: _, [] => Gt
  end.

(** The order of two moments in time. *)
Definition dt_compare (a b : datetime) : comparison :=
  lex_compare
    [year a; month a; day a; hour a; minute a; second a; microsecond a]
    [year b; month b; day b; hour b; minute b; second b; microsecond b].

(** Every field fits the width [isoformat] prints it with.  Python's
    [datetime] guarantees more: a year up to 9999, a month up to 12, and so
    on. *)
Definition dt_valid (t : datetime) : Prop :=
  year t < 100 * 100 ∧ month t < 100 ∧ day t < 100 ∧ hour t < 100
  ∧ minute t < 100 ∧ second t < 100 ∧ microsecond t < 100 * 100 * 100.

(** *** The loop, turn by turn *)

(** The work of the loop: the keys of [keys], in order, that are not in the
    completed set [C] and for which an action is planned, each with the store
    call of its action. *)
Definition todo (st : State) (pf sf : gmap string string) (C : gset string)
    (keys : list string) : list (string * S3Call) :=
  omap (λ k, if bool_decide (k ∈ C) then None
             else (λ c, (k, c)) <$> call_of (planned_action st pf sf k) k) keys.

(** The store calls of the turns for [work] when every action is served:
    the action of a key, then the whole completed set, the key included,
    written as the log of the primary and of the secondary bucket, then the
    next key. *)
Fixpoint turns (C : gset string) (work : list (string * S3Call)) : list S3Call :=
  match work with
  | [] => []
  | kc :: rest =>
      let C' := C ∪ {[kc.1]} in
      kc.2 :: PutObject PRIMARY_BUCKET LOG_KEY (LogDoc (elements C'))
           :: PutObject SECONDARY_BUCKET LOG_KEY (LogDoc (elements C'))
           :: turns C' rest
  end.

(** A recorded call that is a write of the log, or was served. *)
Definition served (x : S3Call * option string) : Prop :=
  is_checkpoint x.1 ∨ x.2 = None.

(** How the action of a turn ends, given the outcome of its store call. *)
Definition outcome (o : option string) : result bool :=
  match o with
  | None => Ok true
  | Some code => Raise (ClientError code)
  end.

(** * Properties *)

(** ** Unfolding the monad *)

Lemma bind_Ok {A B} (m : M A) (f : A → M B) w a w' :
  m w = (Ok a, w') → bind m f w = f a w'.
Proof. intros H. unfold bind. by rewrite H. Qed.

Lemma bind_Raise {A B} (m : M A) (f : A → M B) w e w' :
  m w = (Raise e, w') → bind m f w = (Raise e, w').
Proof. intros H. unfold bind. by rewrite H. Qed.

(** ** Listing never raises *)

Lemma list_pages_Ok bucket n pages result w :
  ∃ r w', list_pages bucket n pages result w = (Ok r, w').
Proof.
  revert n result w. induction pages as [|page rest IH]; intros n result w; simpl.
  - by eexists _, _.
  - unfold try_except, bind, s3.list_page, print, ret.
    destruct (fault w (tick w)) as [code|]; [by eexists _, _|].
    destruct (IH (S n) (add_page page result)
                 (record_call (ListPage bucket n) None w)) as (r & w' & ->).
    by eexists _, _.
Qed.

Lemma list_bucket_objects_Ok bucket w :
  ∃ r w', list_bucket_objects bucket w = (Ok r, w').
Proof. apply list_pages_Ok. Qed.

(** ** The progress log *)

(** C10, the handler of [load_progress_log]: whatever [ClientError] the read
    of the log raises, other than [NoSuchKey], the function prints a warning
    and returns the empty set; it does not raise.  So a run that loaded its
    snapshot and then fails to read the log reaches its loop with an empty
    completed set.  (Were the loaded snapshot a list and not a dict, the run
    would go on in the same way up to its first [state.get], and raise
    there.) *)
Theorem load_progress_log_unreadable (w : World) (code : string) :
  fault w (tick w) = Some code →
  code ≠ "NoSuchKey" →
  load_progress_log w =
    (Ok ∅, emit (MsgCouldNotLoadLog code)
              (record_call (GetObject PRIMARY_BUCKET LOG_KEY) (Some code) w))
  ∧ (∀ w0 state, load_state w0 = (Ok (Dict state), w) →
       ∃ d w', discover w0 = (Ok d, w') ∧ d_state d = state ∧ d_completed d = ∅)
  ∧ (∀ w0 keys, load_state w0 = (Ok (List keys), w) →
       ∃ w', discover w0 = (Raise (OtherError "AttributeError"), w')).
Proof.
  intros Hf Hc.
  assert (load_progress_log w =
    (Ok ∅, emit (MsgCouldNotLoadLog code)
              (record_call (GetObject PRIMARY_BUCKET LOG_KEY) (Some code) w)))
    as Hload.
  { unfold load_progress_log, try_except, bind, s3.get_object.
    rewrite Hf. rewrite bool_decide_eq_false_2 by done. reflexivity. }
  split; [exact Hload|].
  assert (∀ w0 doc, load_state w0 = (Ok doc, w) →
            ∃ pf sf w2,
              discover w0 =
                bind (doc_get (λ st, st) doc)
                  (λ state,
                     let d := {| d_state := state; d_completed := ∅;
                                 d_primary_files := pf;
                                 d_secondary_files := sf |} in
                     bind (print (MsgFound (size (all_keys d)))) (λ _, ret d))
                  w2) as Hhead.
  { intros w0 doc Hst. unfold discover.
    rewrite (bind_Ok _ _ _ _ _ Hst), (bind_Ok _ _ _ _ _ Hload).
    rewrite bool_decide_eq_false_2 by (intros H; by apply H).
    unfold bind at 1, ret at 1. unfold bind at 1, print at 1.
    match goal with |- context [bind (list_bucket_objects PRIMARY_BUCKET) _ ?x] =>
      destruct (list_bucket_objects_Ok PRIMARY_BUCKET x) as (pf & w1 & Hp) end.
    rewrite (bind_Ok _ _ _ _ _ Hp).
    destruct (list_bucket_objects_Ok SECONDARY_BUCKET w1) as (sf & w2 & Hs).
    rewrite (bind_Ok _ _ _ _ _ Hs). by exists pf, sf, w2. }
  split.
  - intros w0 state Hst. destruct (Hhead _ _ Hst) as (pf & sf & w2 & ->).
    unfold doc_get, bind, print, ret. by eexists _, _.
  - intros w0 keys Hst. destruct (Hhead _ _ Hst) as (pf & sf & w2 & ->).
    unfold doc_get, bind, raise. by eexists.
Qed.

Lemma load_progress_log_unreadable_witness :
  (load_progress_log Sample.w_log_denied).1 = Ok ∅.
Proof.
  destruct (load_progress_log_unreadable Sample.w_log_denied "AccessDenied")
    as [-> _]; [done | | done].
  intros H; discriminate H.
Defined.

(** C7 as stated fails: with the log only in the secondary bucket, the
    first-available read would give its keys, while [load_progress_log]
    returns the empty set. *)
Lemma load_progress_log_ignores_secondary :
  log_in SECONDARY_BUCKET Sample.w_log_secondary = Some ["a.txt"]
  ∧ (load_progress_log Sample.w_log_secondary).1 = Ok ∅
  ∧ (load_progress_log Sample.w_log_secondary).1
      ≠ Ok (first_available_log Sample.w_log_secondary).
Proof.
  split; [reflexivity|]. split; [reflexivity|].
  intros H.
  change ((load_progress_log Sample.w_log_secondary).1)
    with (@Ok (gset string) ∅) in H.
  apply (f_equal (λ r, match r with Ok s => s | Raise _ => ∅ end)) in H.
  cbv beta iota in H.
  assert ("a.txt" ∈ first_available_log Sample.w_log_secondary) as Hin.
  { unfold first_available_log. simpl. set_solver. }
  rewrite <- H in Hin. set_solver.
Qed.

(** C7 amended: [load_progress_log] reads the copy of the primary bucket and
    no other.  When that read is served, the result is the set of the keys of
    the primary's log, or the empty set when the primary has no log (so also
    when the log is missing everywhere); the only call made is the one
    [get_object] on the primary bucket. *)
Theorem load_progress_log_primary_only (w : World) :
  fault w (tick w) = None →
  (∀ keys t, primary w !! LOG_KEY = Some {| Body := LogDoc keys; LastModified := t |} →
     load_progress_log w =
       (Ok (list_to_set keys),
        record_call (GetObject PRIMARY_BUCKET LOG_KEY) None w))
  ∧ (primary w !! LOG_KEY = None →
     load_progress_log w =
       (Ok ∅, record_call (GetObject PRIMARY_BUCKET LOG_KEY) (Some "NoSuchKey") w)).
Proof.
  intros Hf. split.
  - intros keys t Hk.
    unfold load_progress_log, try_except, bind, s3.get_object. simpl.
    by rewrite Hf, Hk.
  - intros Hk.
    unfold load_progress_log, try_except, bind, s3.get_object. simpl.
    by rewrite Hf, Hk.
Qed.

Lemma load_progress_log_primary_only_witness :
  (load_progress_log Sample.w_log_primary).1 = Ok {[ "a.txt" ]}.
Proof.
  pose proof (load_progress_log_primary_only Sample.w_log_primary eq_refl)
    as [H _].
  rewrite (H ["a.txt"] Sample.t0 eq_refl).
  reflexivity.
Defined.

(** ** Saving the snapshot *)

(** C8 as stated fails: when both writes are refused, [save_state] still
    returns normally. *)
Lemma save_state_swallows_total_failure :
  fault Sample.w_save_both_fail 1 = Some "AccessDenied"
  ∧ fault Sample.w_save_both_fail 2 = Some "AccessDenied"
  ∧ ¬ surfaces_error (save_state Sample.st_empty Sample.w_save_both_fail).
Proof.
  split; [reflexivity|]. split; [reflexivity|].
  intros [e He]. vm_compute in He. discriminate He.
Qed.

(** C8 amended: [save_state] stamps [last_updated] with the clock and tries
    the two buckets in turn.  It never raises.  A refused write is printed as
    a warning and leaves that bucket as it was; a write that is served stores
    the stamped snapshot in that bucket, whatever happened to the other
    write. *)
Theorem save_state_never_raises (state : State) (w : World) :
  let t := tick w in
  let stamped := {| files := files state;
                    last_updated := Some (isoformat (clock w t)) |} in
  ∃ w', save_state state w = (Ok stamped, w')
    ∧ match fault w (S t) with
      | Some code =>
          primary w' = primary w
          ∧ MsgCouldNotSaveState PRIMARY_BUCKET code ∈ out w'
      | None =>
          primary w' !! STATE_KEY =
            Some {| Body := StateDoc stamped; LastModified := clock w (S t) |}
      end
    ∧ match fault w (S (S t)) with
      | Some code =>
          secondary w' = secondary w
          ∧ MsgCouldNotSaveState SECONDARY_BUCKET code ∈ out w'
      | None =>
          secondary w' !! STATE_KEY =
            Some {| Body := StateDoc stamped; LastModified := clock w (S (S t)) |}
      end.
Proof.
  intros t stamped. subst t stamped.
  unfold save_state, save_state_to, try_except, bind, now, s3.put_object, print, ret.
  simpl.
  destruct (fault w (S (tick w))) as [c1|]; simpl;
    destruct (fault w (S (S (tick w)))) as [c2|]; simpl;
    eexists; (split; [reflexivity|]); simpl;
    rewrite ?lookup_insert_eq; set_solver.
Qed.

(** One write refused: the warning is printed, the other bucket has the
    snapshot. *)
Example save_state_one_failure :
  out (save_state Sample.st_empty Sample.w_save_primary_fails).2
    = [MsgCouldNotSaveState PRIMARY_BUCKET "AccessDenied"]
  ∧ snapshot_in PRIMARY_BUCKET
      (save_state Sample.st_empty Sample.w_save_primary_fails).2 = None
  ∧ snapshot_in SECONDARY_BUCKET
      (save_state Sample.st_empty Sample.w_save_primary_fails).2
    = Some {| files := Some ∅; last_updated := Some "2025-01-01T00:00:00+00:00" |}.
Proof. repeat split; vm_compute; reflexivity. Qed.

(** ** Rebuilding the snapshot *)

Lemma ltb_irrefl (a : string) : String.ltb a a = false.
Proof.
  unfold String.ltb.
  assert ((a ?= a)%string = Eq) as ->; [|done].
  induction a as [|c a IH]; simpl; [done|].
  unfold Ascii.compare. by rewrite N.compare_refl.
Qed.

Lemma ltb_asym (a b : string) : String.ltb a b = true → String.ltb b a = false.
Proof.
  unfold String.ltb. rewrite (String.compare_antisym b a).
  by destruct (a ?= b)%string.
Qed.

Lemma ltb_empty (c : ascii) (a : string) : String.ltb "" (String c a) = true.
Proof. reflexivity. Qed.

Lemma rebuild_entry_eq pf sf key w :
  rebuild_entry pf sf key w =
    (Ok {| last_synced := isoformat (clock w (tick w));
           last_seen_in :=
             (if bool_decide (key ∈ dom pf) then ["primary"] else [])
             ++ (if bool_decide (key ∈ dom sf) then ["secondary"] else []);
           source :=
             if Py.gt (default "" (pf !! key)) (default "" (sf !! key)) then "primary"
             else if Py.gt (default "" (sf !! key)) (default "" (pf !! key))
                  then "secondary" else "equal" |},
     advance w).
Proof.
  unfold rebuild_entry, bind, now, ret.
  by destruct (bool_decide (key ∈ dom pf)), (bool_decide (key ∈ dom sf)).
Qed.

(** The loop writes one record per key of its list, stamped with a clock
    reading taken during the loop, and leaves the other entries alone. *)
Lemma rebuild_loop_spec pf sf keys acc w :
  ∃ files w', rebuild_loop pf sf keys acc w = (Ok files, w')
    ∧ tick w' = tick w + length keys
    ∧ clock w' = clock w
    ∧ (∀ key, key ∉ keys → files !! key = acc !! key)
    ∧ (∀ key, key ∈ keys →
         ∃ n, tick w ≤ n < tick w'
           ∧ files !! key =
               Some {| last_synced := isoformat (clock w n);
                       last_seen_in :=
                         (if bool_decide (key ∈ dom pf) then ["primary"] else [])
                         ++ (if bool_decide (key ∈ dom sf) then ["secondary"] else []);
                       source :=
                         if Py.gt (default "" (pf !! key)) (default "" (sf !! key))
                         then "primary"
                         else if Py.gt (default "" (sf !! key)) (default "" (pf !! key))
                              then "secondary" else "equal" |}).
Proof.
  revert acc w. induction keys as [|k keys IH]; intros acc w; simpl.
  - eexists _, _. split; [reflexivity|].
    split; [lia|]. split; [done|]. split; [done|].
    intros key Hk. by apply elem_of_nil in Hk.
  - unfold bind at 1. rewrite rebuild_entry_eq.
    match goal with |- context [rebuild_loop pf sf keys ?a ?x] =>
      destruct (IH a x) as (files & w' & -> & Ht & Hc & Hout & Hin) end.
    simpl in Ht, Hc.
    eexists _, _. split; [reflexivity|].
    split; [lia|]. split; [done|]. split.
    + intros key Hk. apply not_elem_of_cons in Hk as [Hne Hk].
      rewrite (Hout key Hk). by rewrite lookup_insert_ne.
    + intros key Hk.
      destruct (decide (key ∈ keys)) as [Hi|Hni].
      * destruct (Hin key Hi) as (n & Hn & Hl). simpl in Hn, Hl.
        exists n. split; [lia|done].
      * apply elem_of_cons in Hk as [->|Hk]; [|done].
        exists (tick w). split; [lia|].
        rewrite (Hout k Hni). by rewrite lookup_insert_eq.
Qed.

(** C6 as stated fails: a key that only the primary listing has is given the
    source ["primary"], not ["equal"]. *)
Lemma rebuild_one_sided_source :
  ∃ files r,
    (rebuild_files_state {[ "x.txt" := Sample.iso0 ]} ∅
       (Sample.world ∅ ∅ Sample.no_fault)).1 = Ok files
    ∧ files !! "x.txt" = Some r
    ∧ source r = "primary"
    ∧ source r ≠ "equal".
Proof.
  eexists _, _. split; [vm_compute; reflexivity|].
  split; [vm_compute; reflexivity|]. split; [reflexivity|]. discriminate.
Qed.

(** C6 amended: [rebuild_files_state] returns a map whose keys are those of
    the two listings; the record of a key lists in [last_seen_in] exactly the
    replicas whose listing has the key, carries in [last_synced] a reading of
    the clock taken during the call, and has as [source] the replica with the
    strictly greater time stamp, where a replica that lacks the key counts as
    having the least one: with both stamps equal the source is ["equal"], and
    a key that one replica only has gets that replica as its source. *)
Theorem rebuild_files_state_records (pf sf : gmap string string) (w : World) :
  ∃ files w', rebuild_files_state pf sf w = (Ok files, w')
    ∧ dom files = dom pf ∪ dom sf
    ∧ ∀ key, key ∈ dom pf ∪ dom sf →
        ∃ r, files !! key = Some r
          ∧ last_seen_in r =
              (if bool_decide (key ∈ dom pf) then ["primary"] else [])
              ++ (if bool_decide (key ∈ dom sf) then ["secondary"] else [])
          ∧ (∃ n, tick w ≤ n < tick w' ∧ last_synced r = isoformat (clock w n))
          ∧ (∀ tp ts, pf !! key = Some tp → sf !! key = Some ts →
               (String.ltb ts tp = true → source r = "primary")
               ∧ (String.ltb tp ts = true → source r = "secondary")
               ∧ (tp = ts → source r = "equal"))
          ∧ (∀ tp, pf !! key = Some tp → sf !! key = None → tp ≠ "" →
               source r = "primary")
          ∧ (∀ ts, pf !! key = None → sf !! key = Some ts → ts ≠ "" →
               source r = "secondary").
Proof.
  unfold rebuild_files_state.
  destruct (rebuild_loop_spec pf sf (elements (dom pf ∪ dom sf)) ∅ w)
    as (files & w' & Hrun & Ht & Hc & Hout & Hin).
  exists files, w'. split; [done|]. split.
  - apply set_eq. intros key. rewrite elem_of_dom.
    destruct (decide (key ∈ dom pf ∪ dom sf)) as [Hk|Hk].
    + destruct (Hin key) as (n & _ & ->); [by apply elem_of_elements|].
      split; [done|]. by eauto.
    + rewrite Hout by (by rewrite elem_of_elements).
      rewrite lookup_empty. split; [by intros [? ?]|done].
  - intros key Hk.
    destruct (Hin key) as (n & Hn & Hl); [by apply elem_of_elements|].
    eexists. split; [exact Hl|]. simpl. split; [done|].
    split; [by exists n|]. unfold Py.gt. split; [|split].
    + intros tp ts -> ->. simpl. split; [|split].
      * by intros ->.
      * intros Hlt. by rewrite (ltb_asym _ _ Hlt), Hlt.
      * intros ->. by rewrite ltb_irrefl.
    + intros tp -> -> Hne. simpl. destruct tp; [done|]. by rewrite ltb_empty.
    + intros ts -> -> Hne. simpl. destruct ts; [done|]. by rewrite ltb_empty.
Qed.

(** ** Listings *)

Lemma isoformat_nonempty t : isoformat t ≠ "".
Proof. unfold isoformat, d4, d2. discriminate. Qed.

Lemma listing_of_lookup m key :
  listing_of m !! key =
    if bool_decide (key = STATE_KEY ∨ key = LOG_KEY) then None
    else (λ o, isoformat (LastModified o)) <$> m !! key.
Proof.
  unfold listing_of. rewrite lookup_fmap.
  case_bool_decide as Hk.
  - destruct Hk as [->| ->].
    + by rewrite lookup_delete_eq.
    + rewrite lookup_delete_ne by done. by rewrite lookup_delete_eq.
  - rewrite !lookup_delete_ne by naive_solver. done.
Qed.

Lemma listing_of_Some m key t :
  listing_of m !! key = Some t →
  t ≠ "" ∧ key ≠ STATE_KEY ∧ key ≠ LOG_KEY
  ∧ ∃ o, m !! key = Some o ∧ t = isoformat (LastModified o).
Proof.
  rewrite listing_of_lookup. case_bool_decide as Hk; [done|].
  destruct (m !! key) as [o|] eqn:Ho; [|done]. simpl. intros [= <-].
  split; [apply isoformat_nonempty|].
  split; [intros ->; apply Hk; auto|]. split; [intros ->; apply Hk; auto|].
  by exists o.
Qed.

Lemma not_reserved key :
  key ≠ STATE_KEY → key ≠ LOG_KEY → key ∉ [STATE_KEY; LOG_KEY].
Proof.
  intros H1 H2 Hin. apply elem_of_cons in Hin as [?|Hin]; [done|].
  apply elem_of_cons in Hin as [?|Hin]; [done|]. by apply elem_of_nil in Hin.
Qed.

Lemma elem_of_entries m key o :
  (key, o) ∈ s3.entries m ↔ m !! key = Some o.
Proof.
  unfold s3.entries. rewrite list_elem_of_omap. split.
  - intros (k & _ & Hk). destruct (m !! k) as [o'|] eqn:E; simplify_eq/=. done.
  - intros Hm. exists key. split.
    + unfold Py.sorted. rewrite merge_sort_Permutation.
      apply elem_of_elements, elem_of_dom. by eexists.
    + by rewrite Hm.
Qed.

Lemma concat_chunks {A} (fuel sz : nat) (l : list A) :
  (0 < sz)%nat → (length l ≤ fuel)%nat → concat (s3.chunks fuel sz l) = l.
Proof.
  intros Hsz. revert l. induction fuel as [|fuel IH]; intros l Hl.
  - destruct l; [done|]. simpl in Hl. lia.
  - destruct l as [|x l]; [done|].
    change (s3.chunks (S fuel) sz (x :: l))
      with (take sz (x :: l) :: s3.chunks fuel sz (drop sz (x :: l))).
    rewrite concat_cons, IH.
    + apply take_drop.
    + rewrite length_drop. simpl in *. lia.
Qed.

Lemma concat_all_pages m : concat (s3.all_pages m) = s3.entries m.
Proof.
  unfold s3.all_pages. destruct (s3.entries m) as [|e l] eqn:E; [done|].
  apply concat_chunks; [unfold s3.MaxKeys; lia|done].
Qed.

Lemma add_page_app l1 l2 r : add_page (l1 ++ l2) r = add_page l2 (add_page l1 r).
Proof. unfold add_page. by rewrite foldl_app. Qed.

Lemma add_page_subseteq m l r :
  (∀ key o, (key, o) ∈ l → m !! key = Some o) →
  r ⊆ listing_of m → add_page l r ⊆ listing_of m.
Proof.
  revert r. induction l as [|[k o] l IH]; intros r Hl Hr; [done|].
  unfold add_page. simpl. apply IH.
  - intros key o' Hin. apply Hl. by right.
  - case_bool_decide as Hk; [done|].
    apply insert_subseteq_l; [|done].
    rewrite listing_of_lookup, bool_decide_eq_false_2.
    + rewrite (Hl k o) by left. done.
    + intros [->| ->]; apply Hk; rewrite !elem_of_cons; auto.
Qed.

Lemma add_page_mono l r key : is_Some (r !! key) → is_Some (add_page l r !! key).
Proof.
  revert r. induction l as [|[k o] l IH]; intros r Hr; [done|].
  unfold add_page. simpl. apply IH. case_bool_decide; [done|].
  destruct (decide (k = key)) as [->|Hne].
  - rewrite lookup_insert_eq. by eexists.
  - by rewrite lookup_insert_ne.
Qed.

Lemma add_page_covers l r key o :
  (key, o) ∈ l → key ≠ STATE_KEY → key ≠ LOG_KEY →
  is_Some (add_page l r !! key).
Proof.
  revert r. induction l as [|[k o'] l IH]; intros r Hin H1 H2.
  - by apply elem_of_nil in Hin.
  - apply elem_of_cons in Hin as [[= <- <-]|Hin].
    + unfold add_page. simpl. apply add_page_mono.
      rewrite bool_decide_eq_false_2 by (by apply not_reserved).
      rewrite lookup_insert_eq. by eexists.
    + unfold add_page. simpl. by apply IH.
Qed.

Lemma add_page_entries m : add_page (s3.entries m) ∅ = listing_of m.
Proof.
  assert (add_page (s3.entries m) ∅ ⊆ listing_of m) as Hsub.
  { apply add_page_subseteq; [|apply map_empty_subseteq].
    intros key o. by rewrite elem_of_entries. }
  apply map_eq. intros key.
  destruct (listing_of m !! key) as [t|] eqn:E.
  - destruct (listing_of_Some _ _ _ E) as (_ & H1 & H2 & o & Ho & _).
    destruct (add_page_covers (s3.entries m) ∅ key o) as [t' Ht']; [|done..|].
    { by apply elem_of_entries. }
    rewrite Ht'. by rewrite (lookup_weaken _ _ _ _ Ht' Hsub) in E.
  - destruct (add_page (s3.entries m) ∅ !! key) as [t|] eqn:E'; [|done].
    by rewrite (lookup_weaken _ _ _ _ E' Hsub) in E.
Qed.

Lemma quiet_refl w : quiet w w.
Proof. by repeat split. Qed.

Lemma quiet_trans w1 w2 w3 : quiet w1 w2 → quiet w2 w3 → quiet w1 w3.
Proof.
  intros (?&?&?&?) (?&?&?&?). repeat split; congruence.
Qed.

Lemma quiet_contents w w' b : quiet w w' → contents b w' = contents b w.
Proof. intros (?&?&?&?). by destruct b. Qed.

Lemma only_calls_same P w w' : calls w' = calls w → only_calls P w w'.
Proof. intros H. exists []. by rewrite app_nil_r. Qed.

Lemma only_calls_refl P w : only_calls P w w.
Proof. by apply only_calls_same. Qed.

Lemma only_calls_trans P w1 w2 w3 :
  only_calls P w1 w2 → only_calls P w2 w3 → only_calls P w1 w3.
Proof.
  intros (l1 & H1 & F1) (l2 & H2 & F2). exists (l1 ++ l2). split.
  - by rewrite H2, H1, app_assoc.
  - by apply Forall_app.
Qed.

Lemma only_calls_weaken (P Q : S3Call → Prop) w w' :
  (∀ c, P c → Q c) → only_calls P w w' → only_calls Q w w'.
Proof.
  intros HPQ (l & Hl & F). exists l. split; [done|].
  eapply Forall_impl; [exact F|]. intros c. apply HPQ.
Qed.

(** Listing reads only: it returns a part of the full listing (all of it
    when no request is refused) and makes nothing but list requests. *)
Lemma list_pages_spec bucket m pages n result w :
  (∀ page key o, page ∈ pages → (key, o) ∈ page → m !! key = Some o) →
  result ⊆ listing_of m →
  ∃ r w', list_pages bucket n pages result w = (Ok r, w')
    ∧ r ⊆ listing_of m
    ∧ quiet w w' ∧ tick w ≤ tick w'
    ∧ only_calls is_list w w'
    ∧ (no_faults w → r = add_page (concat pages) result).
Proof.
  revert n result w. induction pages as [|page rest IH]; intros n result w Hp Hr.
  - simpl. eexists _, _. split; [reflexivity|].
    split; [done|]. split; [apply quiet_refl|]. split; [done|].
    split; [apply only_calls_refl|]. done.
  - simpl. unfold try_except, bind, s3.list_page, print, ret.
    destruct (fault w (tick w)) as [code|] eqn:Hf.
    + eexists _, _. split; [reflexivity|]. split; [done|].
      split; [by repeat split|]. split; [simpl; lia|]. split.
      * eexists [_]. split; [reflexivity|]. by repeat constructor.
      * intros Hnf. by rewrite Hnf in Hf.
    + destruct (IH (S n) (add_page page result)
                   (record_call (ListPage bucket n) None w))
        as (r & w' & Hrun & Hsub & Hq & Ht & Hc & Hfull).
      { intros page' key o Hin. apply Hp. by right. }
      { apply add_page_subseteq; [|done]. intros key o. apply Hp. by left. }
      rewrite Hrun. eexists _, _. split; [reflexivity|]. split; [done|].
      split; [|split; [|split]].
      * destruct Hq as (?&?&?&?). by repeat split.
      * simpl in Ht. lia.
      * eapply only_calls_trans; [|exact Hc].
        eexists [_]. split; [reflexivity|]. by repeat constructor.
      * intros Hnf. rewrite Hfull by done. by rewrite add_page_app.
Qed.

Lemma list_bucket_objects_spec bucket w :
  ∃ r w', list_bucket_objects bucket w = (Ok r, w')
    ∧ r ⊆ listing_of (contents bucket w)
    ∧ quiet w w' ∧ tick w ≤ tick w'
    ∧ only_calls is_list w w'
    ∧ (no_faults w → r = listing_of (contents bucket w)).
Proof.
  unfold list_bucket_objects.
  destruct (list_pages_spec bucket (contents bucket w)
              (s3.all_pages (contents bucket w)) 0 ∅ w)
    as (r & w' & Hrun & Hsub & Hq & Ht & Hc & Hfull).
  - intros page key o Hpage Hin. apply elem_of_entries.
    rewrite <- concat_all_pages. apply list_elem_of_In, in_concat.
    exists page. by rewrite <- !list_elem_of_In.
  - apply map_empty_subseteq.
  - exists r, w'. repeat (split; [done|]).
    intros Hnf. rewrite Hfull by done.
    by rewrite concat_all_pages, add_page_entries.
Qed.

Lemma listing_wf_subseteq m r : r ⊆ listing_of m → listing_wf r.
Proof.
  intros Hsub key t Hk.
  destruct (listing_of_Some m key t) as (?&?&?&_); [|done].
  by eapply lookup_weaken.
Qed.

Lemma truthy_wf l key : listing_wf l → Py.truthy (l !! key) = bool_decide (key ∈ dom l).
Proof.
  intros Hwf. destruct (l !! key) as [t|] eqn:E.
  - rewrite bool_decide_eq_true_2 by (apply elem_of_dom; by eexists).
    destruct (Hwf key t E) as [Hne _]. by destruct t.
  - rewrite bool_decide_eq_false_2; [done|].
    rewrite elem_of_dom, E. by intros [? ?].
Qed.

(** ** Reading the snapshot and the log *)

Lemma only_calls_one P w c o :
  P c → only_calls P w (record_call c o w).
Proof. intros HP. eexists [_]. split; [reflexivity|]. by repeat constructor. Qed.

Lemma load_state_from_frame bucket state w r w' :
  load_state_from bucket state w = (r, w') →
  quiet w w' ∧ tick w ≤ tick w' ∧ only_calls is_get w w'.
Proof.
  unfold load_state_from, try_except, bind, s3.get_object, json_loads, doc_get, ret, raise.
  intros H.
  repeat case_match; simplify_eq;
    (split; [by repeat split|]); (split; [simpl; lia|]);
    by apply only_calls_one.
Qed.

Lemma fresh_state_frame w r w' :
  fresh_state w = (r, w') →
  quiet w w' ∧ tick w ≤ tick w' ∧ only_calls is_get w w'.
Proof.
  unfold fresh_state, bind, print, now, ret. intros [= <- <-].
  split; [by repeat split|]. split; [simpl; lia|]. by apply only_calls_same.
Qed.

Lemma load_state_frame w r w' :
  load_state w = (r, w') →
  quiet w w' ∧ tick w ≤ tick w' ∧ only_calls is_get w w'.
Proof.
  unfold load_state, bind. intros H.
  destruct (load_state_from PRIMARY_BUCKET None w) as [r1 w1] eqn:E1.
  apply load_state_from_frame in E1 as (Hq1 & Ht1 & Hc1).
  destruct r1 as [s1|e1]; [|simplify_eq; done].
  destruct (load_state_from SECONDARY_BUCKET s1 w1) as [r2 w2] eqn:E2.
  apply load_state_from_frame in E2 as (Hq2 & Ht2 & Hc2).
  assert (quiet w w2 ∧ tick w ≤ tick w2 ∧ only_calls is_get w w2) as (Hq & Ht & Hc).
  { split; [by eapply quiet_trans|]. split; [lia|]. by eapply only_calls_trans. }
  destruct r2 as [s2|e2]; [|simplify_eq; done].
  assert (∀ x, fresh_state w2 = x → x = (r, w') →
            quiet w w' ∧ tick w ≤ tick w' ∧ only_calls is_get w w') as Hfresh.
  { intros x Hx ->. apply fresh_state_frame in Hx as (Hq3 & Ht3 & Hc3).
    split; [by eapply quiet_trans|]. split; [lia|]. by eapply only_calls_trans. }
  destruct s2 as [st|]; [|by eapply Hfresh].
  destruct (doc_truthy (Some st)); [|by eapply Hfresh].
  unfold ret in H. by simplify_eq.
Qed.

Lemma load_progress_log_frame w r w' :
  load_progress_log w = (r, w') →
  quiet w w' ∧ tick w ≤ tick w' ∧ only_calls is_get w w'.
Proof.
  unfold load_progress_log, try_except, bind, s3.get_object, json_loads,
    ret, raise, print.
  intros H.
  repeat case_match; simplify_eq;
    (split; [by repeat split|]); (split; [simpl; lia|]);
    by apply (only_calls_one is_get).
Qed.

Lemma no_faults_quiet w w' : quiet w w' → no_faults w → no_faults w'.
Proof. intros (_&_&_&Hf) Hnf n. by rewrite Hf. Qed.

Lemma emit_quiet m w : quiet w (emit m w).
Proof. by repeat split. Qed.

(** What [discover] hands to the loop. *)
Lemma discover_inv w d w' :
  discover w = (Ok d, w') →
  ∃ wa wb,
    load_state w = (Ok (Dict (d_state d)), wa)
    ∧ load_progress_log wa = (Ok (d_completed d), wb)
    ∧ quiet w w' ∧ tick w ≤ tick w'
    ∧ d_primary_files d ⊆ listing_of (primary w)
    ∧ d_secondary_files d ⊆ listing_of (secondary w)
    ∧ only_calls (λ c, is_get c ∨ is_list c) w w'
    ∧ (no_faults w →
       d_primary_files d = listing_of (primary w)
       ∧ d_secondary_files d = listing_of (secondary w)).
Proof.
  unfold discover. intros H.
  unfold bind at 1 in H.
  destruct (load_state w) as [[state|e] wa] eqn:Est; [|done].
  destruct (load_state_frame _ _ _ Est) as (Hqa & Hta & Hca).
  unfold bind at 1 in H.
  destruct (load_progress_log wa) as [[completed|e] wb] eqn:Elog; [|done].
  destruct (load_progress_log_frame _ _ _ Elog) as (Hqb & Htb & Hcb).
  unfold bind at 1 in H.
  set (wc := (if bool_decide (completed ≠ ∅)
              then print (MsgResuming (size completed)) else ret tt) wb) in H.
  assert (∃ wc', wc = (Ok tt, wc') ∧ quiet wb wc' ∧ tick wc' = tick wb
                 ∧ calls wc' = calls wb) as (wc' & -> & Hqc & Htc & Hcc).
  { subst wc. case_bool_decide; eexists; (split; [reflexivity|]);
      by repeat split. }
  unfold bind at 1, print at 1 in H.
  unfold bind at 1 in H.
  destruct (list_bucket_objects_spec PRIMARY_BUCKET (emit MsgDiscovering wc'))
    as (pf & wd & Hp & Hpsub & Hqd & Htd & Hcd & Hpfull).
  rewrite Hp in H. unfold bind at 1 in H.
  destruct (list_bucket_objects_spec SECONDARY_BUCKET wd)
    as (sf & we & Hs & Hssub & Hqe & Hte & Hce & Hsfull).
  rewrite Hs in H. unfold bind at 1 in H.
  destruct state as [st|keys]; [|done].
  unfold doc_get, bind, print, ret in H. simplify_eq. simpl.
  assert (quiet w wd) as Hqwd.
  { eapply quiet_trans; [|exact Hqd].
    eapply quiet_trans; [|apply emit_quiet].
    eapply quiet_trans; [|exact Hqc].
    exact (quiet_trans _ _ _ Hqa Hqb). }
  assert (quiet w we) as Hqwe by (by eapply quiet_trans).
  exists wa, wb. split; [done|]. split; [done|]. split.
  { eapply quiet_trans; [exact Hqwe|]. apply emit_quiet. }
  split; [simpl in *; lia|].
  assert (primary wc' = primary w) as Hprim.
  { destruct Hqc as [-> _]. destruct Hqb as [-> _]. by destruct Hqa as [-> _]. }
  assert (secondary wd = secondary w) as Hsec by (by destruct Hqwd as (_&->&_)).
  simpl in Hpsub, Hssub. rewrite Hprim in Hpsub. rewrite Hsec in Hssub.
  split; [done|]. split; [done|]. split.
  - apply (only_calls_trans _ w wa); [eapply only_calls_weaken; [|exact Hca]; auto|].
    apply (only_calls_trans _ wa wb); [eapply only_calls_weaken; [|exact Hcb]; auto|].
    apply (only_calls_trans _ wb (emit MsgDiscovering wc'));
      [by apply only_calls_same|].
    apply (only_calls_trans _ _ wd); [eapply only_calls_weaken; [|exact Hcd]; auto|].
    apply (only_calls_trans _ _ we); [eapply only_calls_weaken; [|exact Hce]; auto|].
    by apply only_calls_same.
  - intros Hnf. split.
    + rewrite Hpfull; [by simpl; rewrite Hprim|].
      eapply no_faults_quiet; [|exact Hnf].
      eapply quiet_trans; [|apply emit_quiet].
      eapply quiet_trans; [|exact Hqc]. exact (quiet_trans _ _ _ Hqa Hqb).
    + rewrite Hsfull; [by simpl; rewrite Hsec|].
      by eapply no_faults_quiet.
Qed.

(** How [discover] can raise: while decoding the snapshot or the log, or,
    when the snapshot turned out to be a list, at its first use as a dict,
    after both listings.  In each case only reads were made. *)
Lemma discover_Raise_cases w e w' :
  discover w = (Raise e, w') →
  quiet w w'
  ∧ only_calls (λ c, is_get c ∨ is_list c) w w'
  ∧ ((load_state w).1 = Raise e
     ∨ (∃ st wa, load_state w = (Ok st, wa) ∧ (load_progress_log wa).1 = Raise e)
     ∨ (∃ keys, (load_state w).1 = Ok (List keys)
                ∧ e = OtherError "AttributeError")).
Proof.
  unfold discover. intros H. unfold bind at 1 in H.
  destruct (load_state w) as [[state|e'] wa] eqn:Est.
  2:{ simplify_eq. apply load_state_frame in Est as (Hq & _ & Hc).
      split; [done|]. split; [|by left].
      eapply only_calls_weaken; [|exact Hc]. auto. }
  apply load_state_frame in Est as (Hqa & _ & Hca).
  unfold bind at 1 in H.
  destruct (load_progress_log wa) as [[completed|e'] wb] eqn:Elog.
  2:{ simplify_eq. pose proof Elog as Elog'.
      apply load_progress_log_frame in Elog as (Hqb & _ & Hcb).
      split; [exact (quiet_trans _ _ _ Hqa Hqb)|]. split.
      - apply (only_calls_trans _ w wa);
          (eapply only_calls_weaken; [|eassumption]); auto.
      - right. left. exists state, wa. by rewrite Elog'. }
  apply load_progress_log_frame in Elog as (Hqb & _ & Hcb).
  unfold bind at 1 in H.
  set (wc := (if bool_decide (completed ≠ ∅)
              then print (MsgResuming (size completed)) else ret tt) wb) in H.
  assert (∃ wc', wc = (Ok tt, wc') ∧ quiet wb wc'
                 ∧ calls wc' = calls wb) as (wc' & -> & Hqc & Hcc).
  { subst wc. case_bool_decide; eexists; (split; [reflexivity|]);
      by repeat split. }
  unfold bind at 1, print at 1 in H. unfold bind at 1 in H.
  destruct (list_bucket_objects_spec PRIMARY_BUCKET (emit MsgDiscovering wc'))
    as (pf & wd & Hp & _ & Hqd & _ & Hcd & _).
  rewrite Hp in H. unfold bind at 1 in H.
  destruct (list_bucket_objects_spec SECONDARY_BUCKET wd)
    as (sf & we & Hs & _ & Hqe & _ & Hce & _).
  rewrite Hs in H. unfold bind at 1 in H.
  destruct state as [st|keys]; [unfold doc_get, bind, print, ret in H; simplify_eq|].
  unfold doc_get, raise in H. simplify_eq.
  split; [|split].
  - eapply quiet_trans; [|exact Hqe].
    eapply quiet_trans; [|exact Hqd].
    eapply quiet_trans; [|apply emit_quiet].
    eapply quiet_trans; [|exact Hqc].
    exact (quiet_trans _ _ _ Hqa Hqb).
  - apply (only_calls_trans _ w wa); [eapply only_calls_weaken; [|exact Hca]; auto|].
    apply (only_calls_trans _ wa wb); [eapply only_calls_weaken; [|exact Hcb]; auto|].
    apply (only_calls_trans _ wb (emit MsgDiscovering wc'));
      [by apply only_calls_same|].
    apply (only_calls_trans _ _ wd); [eapply only_calls_weaken; [|exact Hcd]; auto|].
    eapply only_calls_weaken; [|exact Hce]. auto.
  - right. right. by exists keys.
Qed.

(** ** The loop body *)

Lemma save_progress_log_spec C w :
  let doc := LogDoc (elements C) in
  ∃ w', save_progress_log C w = (Ok tt, w')
    ∧ calls w' = calls w
        ++ [(PutObject PRIMARY_BUCKET LOG_KEY doc, fault w (tick w));
            (PutObject SECONDARY_BUCKET LOG_KEY doc, fault w (S (tick w)))]
    ∧ clock w' = clock w ∧ fault w' = fault w ∧ tick w' = S (S (tick w))
    ∧ primary w' =
        match fault w (tick w) with
        | Some _ => primary w
        | None =>
            <[LOG_KEY := {| Body := doc; LastModified := clock w (tick w) |}]>
              (primary w)
        end
    ∧ secondary w' =
        match fault w (S (tick w)) with
        | Some _ => secondary w
        | None =>
            <[LOG_KEY := {| Body := doc; LastModified := clock w (S (tick w)) |}]>
              (secondary w)
        end.
Proof.
  intros doc. subst doc.
  unfold save_progress_log, save_progress_log_to, try_except, bind,
    s3.put_object, print, ret. simpl.
  destruct (fault w (tick w)) as [c1|] eqn:E1; simpl;
    destruct (fault w (S (tick w))) as [c2|] eqn:E2; simpl;
    eexists; (split; [reflexivity|]); simpl;
    rewrite <- ?app_assoc; simpl; by rewrite ?E1, ?E2.
Qed.

Lemma log_in_insert b w doc t m :
  contents b w = <[LOG_KEY := {| Body := LogDoc doc; LastModified := t |}]> m →
  log_in b w = Some doc.
Proof. intros H. unfold log_in. by rewrite H, lookup_insert_eq. Qed.

(** The checkpoint as the loop body sees it. *)
Lemma checkpoint_spec C w :
  ∃ w' o1 o2, save_progress_log C w = (Ok tt, w')
    ∧ calls w' = calls w
        ++ [(PutObject PRIMARY_BUCKET LOG_KEY (LogDoc (elements C)), o1);
            (PutObject SECONDARY_BUCKET LOG_KEY (LogDoc (elements C)), o2)]
    ∧ clock w' = clock w ∧ fault w' = fault w
    ∧ (o1 = None → log_in PRIMARY_BUCKET w' = Some (elements C))
    ∧ (o2 = None → log_in SECONDARY_BUCKET w' = Some (elements C)).
Proof.
  destruct (save_progress_log_spec C w) as (w' & Hrun & Hc & Hcl & Hf & _ & Hp & Hs).
  exists w', (fault w (tick w)), (fault w (S (tick w))).
  repeat (split; [done|]). split.
  - intros Ho. rewrite Ho in Hp. by eapply log_in_insert.
  - intros Ho. rewrite Ho in Hs. by eapply log_in_insert.
Qed.

Ltac process_key_fault :=
  match goal with
  | |- context [fault ?v (tick ?v)] =>
      let Ef := fresh "Ef" in
      destruct (fault v (tick v)) eqn:Ef;
      [eexists _, _, _, []; split; [reflexivity|]; simpl; by repeat split|]
  end.

Ltac process_key_missing :=
  match goal with
  | |- context [match ?m !! ?k with Some _ => _ | None => _ end] =>
      let Eo := fresh "Eo" in
      destruct (m !! k) eqn:Eo;
      [|eexists _, _, _, []; split; [reflexivity|]; simpl; by repeat split]
  end.

Ltac process_key_checkpointed :=
  match goal with
  | |- context [save_progress_log ?c ?x] =>
      let Hc := fresh "Hc" in
      destruct (checkpoint_spec c x) as (? & ? & ? & -> & Hc & ? & ? & ? & ?);
      eexists _, _, None, _; (split; [reflexivity|]); simpl in Hc;
      rewrite Hc, <- app_assoc; (split; [reflexivity|]);
      (split; [by repeat constructor|]);
      (split; [split; [done|]; by eexists _, _|]);
      split; (etrans; [eassumption|done])
  end.

(** A turn of the loop on a key that is not completed: nothing at all when
    no action is planned; otherwise the planned call comes first, and it is
    followed by the two writes of the checkpoint, which carry the whole
    completed set, exactly when it succeeded. *)
Lemma process_key_calls st pf sf key C v :
  key ∉ C →
  match call_of (planned_action st pf sf key) key with
  | None => process_key st pf sf key C v = (Ok (Continue C), v)
  | Some c =>
      ∃ r v' o rest,
        process_key st pf sf key C v = (Ok r, v')
        ∧ calls v' = calls v ++ (c, o) :: rest
        ∧ Forall (λ x, is_checkpoint x.1) rest
        ∧ match o with
          | Some _ => r = Return ∧ rest = []
                      ∧ primary v' = primary v ∧ secondary v' = secondary v
          | None =>
              r = Continue (C ∪ {[key]})
              ∧ ∃ o1 o2,
                  rest = [(PutObject PRIMARY_BUCKET LOG_KEY
                             (LogDoc (elements (C ∪ {[key]}))), o1);
                          (PutObject SECONDARY_BUCKET LOG_KEY
                             (LogDoc (elements (C ∪ {[key]}))), o2)]
                  ∧ (o1 = None →
                     log_in PRIMARY_BUCKET v' = Some (elements (C ∪ {[key]})))
                  ∧ (o2 = None →
                     log_in SECONDARY_BUCKET v' = Some (elements (C ∪ {[key]})))
          end
        ∧ clock v' = clock v ∧ fault v' = fault v
  end.
Proof.
  intros HC. unfold process_key. rewrite bool_decide_eq_false_2 by done.
  destruct (planned_action st pf sf key); simpl;
    unfold try_except, bind at 1, perform, bind, print, s3.delete_object, s3.copy, ret;
    simpl; [| | | |done].
  all: process_key_fault.
  all: try process_key_missing.
  all: process_key_checkpointed.
Qed.

(** ** The decision for a key *)

Lemma seen_in_was_seen tag st key :
  bool_decide (key ∈ dom (get_files st)) && seen_in tag st key
  = was_seen tag (get_files st !! key).
Proof.
  unfold seen_in, was_seen.
  destruct (get_files st !! key) as [r|] eqn:E.
  - rewrite bool_decide_eq_true_2; [done|]. apply elem_of_dom. by eexists.
  - by rewrite andb_false_r.
Qed.

Lemma planned_action_spec_action st pf sf key :
  listing_wf pf → listing_wf sf →
  planned_action st pf sf key =
    spec_action (bool_decide (key ∈ dom pf)) (bool_decide (key ∈ dom sf))
                (get_files st !! key).
Proof.
  intros Hp Hs. unfold planned_action, spec_action.
  rewrite !seen_in_was_seen, (truthy_wf pf), (truthy_wf sf) by done.
  by destruct (bool_decide (key ∈ dom pf)), (bool_decide (key ∈ dom sf)).
Qed.

(** C2: in a run that got as far as the loop, for every key that is not yet
    completed (so for every such key of the union the loop walks over), the
    body decides what the specification's table says: present only in the
    primary listing, delete from the primary bucket if the snapshot's record
    has ["secondary"] in [last_seen_in] and copy to the secondary bucket
    otherwise; the mirror image when present only in the secondary listing;
    nothing when the key is in both listings or in neither.  The decision is
    what the body then does: no call at all for no action, else the call of
    the action comes first and only checkpoint writes follow it. *)
Theorem planned_action_follows_table (w w1 : World) (d : Discovery)
    (key : string) (completed : gset string) :
  discover w = (Ok d, w1) →
  key ∉ completed →
  let a := spec_action (bool_decide (key ∈ dom (d_primary_files d)))
                       (bool_decide (key ∈ dom (d_secondary_files d)))
                       (get_files (d_state d) !! key) in
  planned_action (d_state d) (d_primary_files d) (d_secondary_files d) key = a
  ∧ ∀ v,
      match call_of a key with
      | None =>
          process_key (d_state d) (d_primary_files d) (d_secondary_files d)
            key completed v = (Ok (Continue completed), v)
      | Some c =>
          ∃ r v' o rest,
            process_key (d_state d) (d_primary_files d) (d_secondary_files d)
              key completed v = (Ok r, v')
            ∧ calls v' = calls v ++ (c, o) :: rest
            ∧ Forall (λ x, is_checkpoint x.1) rest
      end.
Proof.
  intros Hd Hk a.
  destruct (discover_inv _ _ _ Hd) as (_ & _ & _ & _ & _ & _ & Hp & Hs & _).
  apply listing_wf_subseteq in Hp, Hs.
  assert (planned_action (d_state d) (d_primary_files d) (d_secondary_files d) key = a)
    as Ha by (by apply planned_action_spec_action).
  split; [done|]. intros v.
  pose proof (process_key_calls (d_state d) (d_primary_files d)
                (d_secondary_files d) key completed v Hk) as H.
  rewrite Ha in H. destruct (call_of a key) as [c|]; [|done].
  destruct H as (r & v' & o & rest & H1 & H2 & H3 & _).
  by exists r, v', o, rest.
Qed.

Lemma planned_action_follows_table_witness :
  ∃ d w1, discover Sample.w_new_file = (Ok d, w1)
    ∧ planned_action (d_state d) (d_primary_files d) (d_secondary_files d) "x.txt"
      = CopyToSecondary.
Proof.
  destruct (discover Sample.w_new_file) as [r w1] eqn:Hd.
  assert (∃ d, r = Ok d) as [d ->].
  { apply (f_equal fst) in Hd. vm_compute in Hd. subst r. eexists. reflexivity. }
  exists d, w1. split; [reflexivity|].
  pose proof (planned_action_follows_table Sample.w_new_file w1 d "x.txt" ∅ Hd)
    as Ha.
  destruct Ha as [Ha _]; [apply not_elem_of_empty|].
  rewrite Ha.
  apply (f_equal fst) in Hd. vm_compute in Hd. injection Hd as <-.
  vm_compute. reflexivity.
Defined.

(** ** The order of the loop *)

Lemma elem_of_sorted (s : gset string) key : key ∈ Py.sorted s ↔ key ∈ s.
Proof.
  unfold Py.sorted. rewrite merge_sort_Permutation. apply elem_of_elements.
Qed.

Lemma NoDup_sorted (s : gset string) : NoDup (Py.sorted s).
Proof.
  unfold Py.sorted. rewrite merge_sort_Permutation. apply NoDup_elements.
Qed.

(** ** A failed listing *)

(** C1 fails on the script: [list_bucket_objects] catches the error, prints
    it and returns what it has (here nothing).  With [x.txt] in both buckets
    and recorded for both in the snapshot, a refused listing of the secondary
    bucket makes the run see the file as deleted there: the run goes on,
    deletes [x.txt] from the primary bucket and returns normally. *)
Theorem list_failure_deletes_live_file :
  Sample.synced !! "x.txt" = Some (Sample.file "X")
  ∧ (list_bucket_objects SECONDARY_BUCKET
       (Sample.world Sample.synced Sample.synced (Sample.fault_at 0 "AccessDenied"))).1
     = Ok ∅
  ∧ (replicate_resilient Sample.w_list_fails).1 = Ok tt
  ∧ (DeleteObject PRIMARY_BUCKET "x.txt", None)
      ∈ calls (replicate_resilient Sample.w_list_fails).2
  ∧ primary (replicate_resilient Sample.w_list_fails).2 !! "x.txt" = None
  ∧ MsgCriticalList SECONDARY_BUCKET "AccessDenied"
      ∈ out (replicate_resilient Sample.w_list_fails).2.
Proof.
  split; [vm_compute; reflexivity|].
  split; [vm_compute; reflexivity|].
  split; [vm_compute; reflexivity|].
  split; [|split].
  - apply list_elem_of_In. vm_compute. tauto.
  - vm_compute. reflexivity.
  - apply list_elem_of_In. vm_compute. tauto.
Qed.

(** ** The loop *)

Lemma sync_loop_app_Continue st pf sf l1 l2 C w C' w' :
  sync_loop st pf sf l1 C w = (Ok (Continue C'), w') →
  sync_loop st pf sf (l1 ++ l2) C w = sync_loop st pf sf l2 C' w'.
Proof.
  revert C w. induction l1 as [|k l1 IH]; intros C w H; simpl in *.
  - unfold ret in H. by simplify_eq.
  - unfold bind in *.
    destruct (process_key st pf sf k C w) as [[[C1|]|e] w1]; try done.
    by apply IH.
Qed.

Lemma sync_loop_app_Return st pf sf l1 l2 C w w' :
  sync_loop st pf sf l1 C w = (Ok Return, w') →
  sync_loop st pf sf (l1 ++ l2) C w = (Ok Return, w').
Proof.
  revert C w. induction l1 as [|k l1 IH]; intros C w H; simpl in *.
  - done.
  - unfold bind in *.
    destruct (process_key st pf sf k C w) as [[[C1|]|e] w1]; try done.
    by apply IH.
Qed.

(** An action is planned only for a key that one of the listings has. *)
Lemma planned_call_listed st pf sf key c :
  call_of (planned_action st pf sf key) key = Some c →
  acts_on key c ∧ (key ∈ dom pf ∨ key ∈ dom sf).
Proof.
  unfold planned_action.
  destruct (Py.truthy (pf !! key)) eqn:Ep; destruct (Py.truthy (sf !! key)) eqn:Es;
    simpl; try done.
  - intros H. split.
    + destruct (_ && _); simpl in H; by simplify_eq.
    + left. apply elem_of_dom. destruct (pf !! key); [by eexists|done].
  - intros H. split.
    + destruct (_ && _); simpl in H; by simplify_eq.
    + right. apply elem_of_dom. destruct (sf !! key); [by eexists|done].
Qed.

(** One turn of the loop, whatever the store does: it never raises, it
    either goes on with a completed set that has grown by at most the key,
    or returns; it makes only calls of the loop. *)
Lemma process_key_frame st pf sf key C w :
  ∃ r w', process_key st pf sf key C w = (Ok r, w')
    ∧ clock w' = clock w ∧ fault w' = fault w
    ∧ only_calls (loop_call pf sf) w w'
    ∧ (∀ C', r = Continue C' → C ⊆ C' ∧ C' ⊆ C ∪ {[key]}).
Proof.
  destruct (decide (key ∈ C)) as [Hin|Hout].
  - exists (Continue C), w. unfold process_key.
    rewrite bool_decide_eq_true_2 by done.
    repeat (split; [done|]). split; [apply only_calls_refl|].
    intros C' [= <-]. split; [done|apply union_subseteq_l].
  - pose proof (process_key_calls st pf sf key C w Hout) as H.
    destruct (call_of (planned_action st pf sf key) key) as [c|] eqn:Ec.
    + destruct H as (r & w' & o & rest & Hrun & Hcalls & Hrest & Ho & Hcl & Hf).
      exists r, w'. repeat (split; [done|]). split.
      * exists ((c, o) :: rest). split; [done|]. constructor.
        -- right. exists key. by apply (planned_call_listed st).
        -- eapply Forall_impl; [exact Hrest|]. intros x Hx. by left.
      * intros C' ->. destruct o as [code|]; [by destruct Ho|].
        destruct Ho as [Ho _]. simplify_eq.
        split; [apply union_subseteq_l|done].
    + exists (Continue C), w. repeat (split; [done|]).
      split; [apply only_calls_refl|]. intros C' [= <-].
      split; [done|apply union_subseteq_l].
Qed.

Lemma sync_loop_frame st pf sf keys C w :
  ∃ r w', sync_loop st pf sf keys C w = (Ok r, w')
    ∧ clock w' = clock w ∧ fault w' = fault w
    ∧ only_calls (loop_call pf sf) w w'
    ∧ (∀ C', r = Continue C' → C ⊆ C').
Proof.
  revert C w. induction keys as [|k keys IH]; intros C w; simpl.
  - exists (Continue C), w. repeat (split; [done|]).
    split; [apply only_calls_refl|]. by intros C' [= <-].
  - unfold bind.
    destruct (process_key_frame st pf sf k C w) as (r & w1 & -> & Hc & Hf & Hcalls & HC).
    destruct r as [C1|].
    + destruct (IH C1 w1) as (r & w2 & -> & Hc2 & Hf2 & Hcalls2 & HC2).
      exists r, w2. split; [done|]. split; [congruence|]. split; [congruence|].
      split; [by eapply only_calls_trans|].
      intros C' ->. destruct (HC C1 eq_refl) as [? _].
      etrans; [done|]. by apply HC2.
    + exists Return, w1. by repeat (split; [done|]).
Qed.

(** ** The head and the tail of the run *)

Lemma discover_frame w r w' :
  discover w = (r, w') → only_calls (λ c, is_get c ∨ is_list c) w w'.
Proof.
  destruct r as [d|e].
  { intros H. by destruct (discover_inv _ _ _ H) as (?&?&?&?&?&?&?&?&?&?). }
  intros H. by apply discover_Raise_cases in H as (_ & ? & _).
Qed.

Lemma rebuild_loop_quiet pf sf keys acc w r w' :
  rebuild_loop pf sf keys acc w = (r, w') →
  quiet w w' ∧ calls w' = calls w.
Proof.
  revert acc w. induction keys as [|k keys IH]; intros acc w; simpl.
  - unfold ret. intros [= <- <-]. split; [apply quiet_refl|done].
  - unfold bind at 1. rewrite rebuild_entry_eq. intros H.
    apply IH in H as [(?&?&?&?) ?]. by repeat split.
Qed.

Lemma save_state_frame state w :
  ∃ st' w', save_state state w = (Ok st', w')
    ∧ clock w' = clock w ∧ fault w' = fault w
    ∧ only_calls finish_call w w'.
Proof.
  unfold save_state, save_state_to, try_except, bind, now, s3.put_object, print, ret.
  simpl.
  destruct (fault w (S (tick w))) as [c1|]; simpl;
    destruct (fault w (S (S (tick w)))) as [c2|]; simpl;
    eexists _, _; (split; [reflexivity|]); simpl;
    (split; [reflexivity|]); (split; [reflexivity|]);
    eexists [_; _]; simpl; rewrite <- ?app_assoc;
    (split; [reflexivity|]); by repeat constructor.
Qed.

Lemma delete_progress_log_frame w :
  ∃ w', delete_progress_log w = (Ok tt, w')
    ∧ clock w' = clock w ∧ fault w' = fault w
    ∧ only_calls finish_call w w'.
Proof.
  unfold delete_progress_log, delete_progress_log_from, try_except, bind,
    s3.delete_object, print, ret.
  simpl.
  destruct (fault w (tick w)) as [c1|]; simpl;
    destruct (fault w (S (tick w))) as [c2|]; simpl;
    eexists; (split; [reflexivity|]); simpl;
    (split; [reflexivity|]); (split; [reflexivity|]);
    eexists [_; _]; simpl; rewrite <- ?app_assoc;
    (split; [reflexivity|]); by repeat constructor.
Qed.

Lemma is_list_finish_call c : is_list c → finish_call c.
Proof. by destruct c. Qed.

(** The tail of the run never raises and makes only its own calls. *)
Lemma finish_frame state w :
  ∃ w', finish state w = (Ok tt, w') ∧ only_calls finish_call w w'.
Proof.
  unfold finish. unfold bind at 1, print at 1. unfold bind at 1.
  destruct (list_bucket_objects_spec PRIMARY_BUCKET (emit MsgSyncComplete w))
    as (pf & w1 & -> & _ & _ & _ & Hc1 & _).
  unfold bind at 1.
  destruct (list_bucket_objects_spec SECONDARY_BUCKET w1)
    as (sf & w2 & -> & _ & _ & _ & Hc2 & _).
  unfold bind at 1.
  destruct (rebuild_files_state pf sf w2) as [r3 w3] eqn:E3.
  pose proof E3 as E3'. unfold rebuild_files_state in E3'.
  apply rebuild_loop_quiet in E3' as [_ Hc3].
  destruct (rebuild_loop_spec pf sf (elements (dom pf ∪ dom sf)) ∅ w2)
    as (files & w3' & E3' & _).
  unfold rebuild_files_state in E3. rewrite E3' in E3. simplify_eq.
  unfold bind at 1.
  match goal with |- context [save_state ?x w3] =>
    destruct (save_state_frame x w3) as (st' & w4 & -> & _ & _ & Hc4) end.
  unfold bind at 1, print at 1.
  destruct (delete_progress_log_frame (emit MsgCleaning w4))
    as (w5 & -> & _ & _ & Hc5).
  exists w5. split; [done|].
  apply (only_calls_trans _ w (emit MsgSyncComplete w)); [by apply only_calls_same|].
  apply (only_calls_trans _ _ w1);
    [eapply only_calls_weaken; [apply is_list_finish_call|done]|].
  apply (only_calls_trans _ _ w2);
    [eapply only_calls_weaken; [apply is_list_finish_call|done]|].
  apply (only_calls_trans _ _ w3); [by apply only_calls_same|].
  apply (only_calls_trans _ _ w4); [done|].
  apply (only_calls_trans _ _ (emit MsgCleaning w4)); [by apply only_calls_same|].
  done.
Qed.

(** ** Calls that clear the log *)



(** ** A failed action *)

(** [perform] raises nothing but the [ClientError] of its one store call,
    and then it has changed no bucket. *)
Lemma perform_Raise a key w e w' :
  perform a key w = (Raise e, w') →
  ∃ code c, e = ClientError code ∧ call_of a key = Some c
    ∧ primary w' = primary w ∧ secondary w' = secondary w
    ∧ calls w' = calls w ++ [(c, Some code)].
Proof.
  destruct a; simpl;
    unfold bind, print, s3.delete_object, s3.copy, ret; simpl;
    intros H; repeat case_match; simplify_eq;
    eexists _, _; by repeat split.
Qed.

Lemma process_key_Raise st pf sf key C w code w' :
  key ∉ C →
  perform (planned_action st pf sf key) key w = (Raise (ClientError code), w') →
  process_key st pf sf key C w = (Ok Return, emit (MsgError key code) w').
Proof.
  intros Hk Hp. unfold process_key. rewrite bool_decide_eq_false_2 by done.
  unfold try_except. by rewrite (bind_Raise _ _ _ _ _ Hp).
Qed.

(** C4 fails on the script in its last part.  Three new files; the copy of
    [a.txt] goes through and is checkpointed, the copy of [b.txt] is refused.
    The handler prints that the key will be retried and leaves
    [replicate_resilient] by a plain [return]: the refused copy is the last
    store call, [c.txt] is not touched, the log with [a.txt] stays in both
    buckets and no snapshot is written, as the claim says.  But nothing tells
    the caller: [main] goes on, prints that the replication finished
    successfully and ends normally; no error is raised and there is no exit
    status. *)
Theorem failed_action_reported_as_success :
  calls (main Sample.w_second_copy_fails_main).2
  = [ (GetObject PRIMARY_BUCKET STATE_KEY, Some "NoSuchKey");
      (GetObject SECONDARY_BUCKET STATE_KEY, Some "NoSuchKey");
      (GetObject PRIMARY_BUCKET LOG_KEY, Some "NoSuchKey");
      (ListPage PRIMARY_BUCKET 0, None);
      (ListPage SECONDARY_BUCKET 0, None);
      (Copy PRIMARY_BUCKET "a.txt" SECONDARY_BUCKET, None);
      (PutObject PRIMARY_BUCKET LOG_KEY (LogDoc ["a.txt"]), None);
      (PutObject SECONDARY_BUCKET LOG_KEY (LogDoc ["a.txt"]), None);
      (Copy PRIMARY_BUCKET "b.txt" SECONDARY_BUCKET, Some "AccessDenied") ]
  ∧ log_in PRIMARY_BUCKET (main Sample.w_second_copy_fails_main).2 = Some ["a.txt"]
  ∧ log_in SECONDARY_BUCKET (main Sample.w_second_copy_fails_main).2 = Some ["a.txt"]
  ∧ snapshot_in PRIMARY_BUCKET (main Sample.w_second_copy_fails_main).2 = None
  ∧ snapshot_in SECONDARY_BUCKET (main Sample.w_second_copy_fails_main).2 = None
  ∧ out (main Sample.w_second_copy_fails_main).2
    = [ MsgStarting "2025-01-01T00:00:00+00:00"; MsgNoStateFound; MsgDiscovering;
        MsgFound 3; MsgNewInPrimary "a.txt"; MsgNewInPrimary "b.txt";
        MsgError "b.txt" "AccessDenied";
        MsgFinished "2025-01-01T00:00:11+00:00" ]
  ∧ (main Sample.w_second_copy_fails_main).1 = Ok tt
  ∧ ¬ surfaces_error (main Sample.w_second_copy_fails_main).
Proof.
  split; [vm_compute; reflexivity|]. split; [vm_compute; reflexivity|].
  split; [vm_compute; reflexivity|]. split; [vm_compute; reflexivity|].
  split; [vm_compute; reflexivity|]. split; [vm_compute; reflexivity|].
  split; [vm_compute; reflexivity|].
  intros [e He]. vm_compute in He. discriminate He.
Qed.

(** X20, a refused action ends the loop: when the keys before [key] went
    through and the call of the action on [key] is refused, the turn prints
    the error and the loop ends there.  The refused call is the last store
    call of the run, so no later key is processed, and both buckets are as
    they were before the call: the log written by the last checkpoint is
    still in place, it is not removed and the snapshot is not rebuilt. *)
Theorem action_failure_stops_run (w w1 w2 w3 : World) (d : Discovery)
    (before after : list string) (key : string) (C : gset string) (e : exn) :
  discover w = (Ok d, w1) →
  Py.sorted (all_keys d) = before ++ key :: after →
  sync_loop (d_state d) (d_primary_files d) (d_secondary_files d)
    before (d_completed d) w1 = (Ok (Continue C), w2) →
  key ∉ C →
  perform (planned_action (d_state d) (d_primary_files d) (d_secondary_files d) key)
    key w2 = (Raise e, w3) →
  ∃ code c,
    e = ClientError code
    ∧ call_of (planned_action (d_state d) (d_primary_files d)
                 (d_secondary_files d) key) key = Some c
    ∧ calls w3 = calls w2 ++ [(c, Some code)]
    ∧ primary w3 = primary w2 ∧ secondary w3 = secondary w2
    ∧ sync d w1 = (Ok Return, emit (MsgError key code) w3)
    ∧ replicate_resilient w = (Ok tt, emit (MsgError key code) w3).
Proof.
  intros Hd Hsort Hbefore Hk Hperf.
  destruct (perform_Raise _ _ _ _ _ Hperf) as (code & c & -> & Hc & Hp & Hs & Hcalls).
  exists code, c. repeat (split; [done|]).
  assert (sync d w1 = (Ok Return, emit (MsgError key code) w3)) as Hsync.
  { unfold sync. rewrite Hsort.
    rewrite (sync_loop_app_Continue _ _ _ _ _ _ _ _ _ Hbefore).
    simpl. unfold bind.
    by rewrite (process_key_Raise _ _ _ _ _ _ _ _ Hk Hperf). }
  split; [done|].
  unfold replicate_resilient.
  rewrite (bind_Ok _ _ _ _ _ Hd), (bind_Ok _ _ _ _ _ Hsync). reflexivity.
Qed.

Lemma action_failure_stops_run_witness :
  ∃ w3,
    replicate_resilient Sample.w_second_copy_fails
    = (Ok tt, emit (MsgError "b.txt" "AccessDenied") w3)
    ∧ last (calls w3)
      = Some (Copy PRIMARY_BUCKET "b.txt" SECONDARY_BUCKET, Some "AccessDenied").
Proof.
  destruct (discover Sample.w_second_copy_fails) as [r w1] eqn:Hd.
  assert (∃ d, r = Ok d) as [d ->].
  { apply (f_equal fst) in Hd. vm_compute in Hd. subst r. eexists. reflexivity. }
  pose proof Hd as Hd'. vm_compute in Hd'. injection Hd' as Hd1 Hw1.
  destruct (sync_loop (d_state d) (d_primary_files d) (d_secondary_files d)
              ["a.txt"] (d_completed d) w1) as [rl w2] eqn:Hloop.
  assert (rl = Ok (Continue {[ "a.txt" ]})) as ->.
  { apply (f_equal fst) in Hloop. rewrite <- Hd1, <- Hw1 in Hloop.
    vm_compute in Hloop. subst rl. vm_compute. reflexivity. }
  pose proof Hloop as Hloop'. rewrite <- Hd1, <- Hw1 in Hloop'.
  vm_compute in Hloop'. injection Hloop' as Hw2.
  destruct (perform (planned_action (d_state d) (d_primary_files d)
                       (d_secondary_files d) "b.txt") "b.txt" w2)
    as [pr w3] eqn:Hperf.
  assert (pr = Raise (ClientError "AccessDenied")) as ->.
  { apply (f_equal fst) in Hperf. rewrite <- Hd1, <- Hw2 in Hperf.
    vm_compute in Hperf. subst pr. reflexivity. }
  destruct (action_failure_stops_run Sample.w_second_copy_fails w1 w2 w3 d
              ["a.txt"] ["c.txt"] "b.txt" {[ "a.txt" ]}
              (ClientError "AccessDenied") Hd)
    as (code & c & He & Hc & Hcalls & _ & _ & _ & Hrun).
  - rewrite <- Hd1. vm_compute. reflexivity.
  - exact Hloop.
  - intros Hin. apply elem_of_singleton in Hin. discriminate Hin.
  - exact Hperf.
  - injection He as <-. rewrite <- Hd1 in Hc. vm_compute in Hc. injection Hc as <-.
    exists w3. split; [exact Hrun|]. rewrite Hcalls. apply last_snoc.
Defined.

(** ** The loop, turn by turn *)

Lemma process_key_skip st pf sf key C w :
  key ∈ C ∨ planned_action st pf sf key = NoAction →
  process_key st pf sf key C w = (Ok (Continue C), w).
Proof.
  intros H. unfold process_key. case_bool_decide as Hk; [done|].
  destruct H as [H|H]; [done|]. by rewrite H.
Qed.

(** The action of a turn: one store call, served or refused. *)
Lemma perform_cases a key w c :
  call_of a key = Some c →
  ∃ o w1,
    perform a key w = (outcome o, w1)
    ∧ calls w1 = calls w ++ [(c, o)]
    ∧ tick w1 = S (tick w) ∧ clock w1 = clock w ∧ fault w1 = fault w
    ∧ (o ≠ None → primary w1 = primary w ∧ secondary w1 = secondary w)
    ∧ (∀ b j, j ≠ key → contents b w1 !! j = contents b w !! j).
Proof.
  intros Hc.
  assert (∀ b j, j ≠ key →
            contents b (perform a key w).2 !! j = contents b w !! j) as Hother.
  { intros b j Hj.
    destruct a; unfold perform, bind, print, s3.delete_object, s3.copy, ret; simpl;
      repeat case_match; simplify_eq/=; destruct b; simpl;
      rewrite ?lookup_delete_ne, ?lookup_insert_ne by done; done. }
  revert Hc Hother.
  destruct a; simpl; intros [= <-];
    unfold perform, bind, print, s3.delete_object, s3.copy, ret; simpl.
  all: destruct (fault w (tick w)) as [code|] eqn:Ef;
    [intros Hother; eexists (Some code), _; split; [reflexivity|]; simpl;
     by repeat split|].
  all: try (match goal with
       | |- context [match ?m !! ?k with Some _ => _ | None => _ end] =>
           destruct (m !! k) eqn:Eo;
           [|intros Hother; eexists (Some _), _; split; [reflexivity|]; simpl;
             by repeat split]
       end).
  all: intros Hother; eexists None, _; split; [reflexivity|]; simpl;
    by repeat split.
Qed.

(** A turn on a key that is not completed and has an action: the call of the
    action, and then, when it was served, the two writes of the checkpoint,
    each of which may be refused without ending the turn. *)
Lemma process_key_turn st pf sf key C v c :
  key ∉ C →
  call_of (planned_action st pf sf key) key = Some c →
  ∃ o v1,
    perform (planned_action st pf sf key) key v = (outcome o, v1)
    ∧ calls v1 = calls v ++ [(c, o)]
    ∧ clock v1 = clock v ∧ fault v1 = fault v
    ∧ (∀ b j, j ≠ key → contents b v1 !! j = contents b v !! j)
    ∧ match o with
      | Some code =>
          process_key st pf sf key C v = (Ok Return, emit (MsgError key code) v1)
          ∧ primary v1 = primary v ∧ secondary v1 = secondary v
      | None =>
          ∃ v' o1 o2,
            process_key st pf sf key C v = (Ok (Continue (C ∪ {[key]})), v')
            ∧ calls v' = calls v1
                ++ [(PutObject PRIMARY_BUCKET LOG_KEY
                       (LogDoc (elements (C ∪ {[key]}))), o1);
                    (PutObject SECONDARY_BUCKET LOG_KEY
                       (LogDoc (elements (C ∪ {[key]}))), o2)]
            ∧ clock v' = clock v1 ∧ fault v' = fault v1
            ∧ (∃ t, primary v' =
                 match o1 with
                 | None => <[LOG_KEY := {| Body := LogDoc (elements (C ∪ {[key]}));
                                           LastModified := t |}]> (primary v1)
                 | Some _ => primary v1
                 end)
            ∧ (∃ t, secondary v' =
                 match o2 with
                 | None => <[LOG_KEY := {| Body := LogDoc (elements (C ∪ {[key]}));
                                           LastModified := t |}]> (secondary v1)
                 | Some _ => secondary v1
                 end)
      end.
Proof.
  intros HC Hc.
  destruct (perform_cases _ key v c Hc)
    as (o & v1 & Hp & Hcalls & _ & Hcl & Hf & Hsame & Hother).
  exists o, v1. split; [done|]. split; [done|]. split; [done|]. split; [done|].
  split; [done|].
  destruct o as [code|]; simpl in Hp.
  - split; [|by apply Hsame].
    unfold process_key. rewrite bool_decide_eq_false_2 by done.
    unfold try_except, bind at 1. by rewrite Hp.
  - destruct (save_progress_log_spec (C ∪ {[key]}) v1)
      as (v' & Hs & Hcalls' & Hcl' & Hf' & _ & HP & HS).
    simpl in Hs.
    exists v', (fault v1 (tick v1)), (fault v1 (S (tick v1))).
    split.
    { unfold process_key. rewrite bool_decide_eq_false_2 by done.
      unfold try_except, bind at 1. rewrite Hp. unfold bind at 1.
      by rewrite Hs. }
    split; [done|]. split; [done|]. split; [done|].
    split; eexists; [exact HP|exact HS].
Qed.

Lemma todo_cons st pf sf C k keys :
  todo st pf sf C (k :: keys)
  = (if bool_decide (k ∈ C) then []
     else match call_of (planned_action st pf sf k) k with
          | Some c => [(k, c)]
          | None => []
          end) ++ todo st pf sf C keys.
Proof.
  unfold todo. simpl. case_bool_decide; [done|].
  by destruct (call_of (planned_action st pf sf k) k).
Qed.

Lemma todo_ext st pf sf C C' keys :
  (∀ k, k ∈ keys → (k ∈ C ↔ k ∈ C')) →
  todo st pf sf C keys = todo st pf sf C' keys.
Proof.
  induction keys as [|k keys IH]; intros H; [done|].
  rewrite !todo_cons.
  rewrite (bool_decide_ext (k ∈ C) (k ∈ C')) by (apply H; by left).
  rewrite IH; [done|]. intros j Hj. apply H. by right.
Qed.

(** The calls of the loop, from first to last. *)
Lemma sync_loop_trace st pf sf keys C w :
  NoDup keys →
  ∃ r w' l,
    sync_loop st pf sf keys C w = (Ok r, w')
    ∧ calls w' = calls w ++ l
    ∧ match r with
      | Continue C' =>
          l.*1 = turns C (todo st pf sf C keys)
          ∧ Forall served l
          ∧ C' = C ∪ list_to_set (todo st pf sf C keys).*1
      | Return =>
          ∃ before k c rest code l0,
            todo st pf sf C keys = before ++ (k, c) :: rest
            ∧ l = l0 ++ [(c, Some code)]
            ∧ l0.*1 = turns C before
            ∧ Forall served l0
      end.
Proof.
  revert C w. induction keys as [|key keys IH]; intros C w Hnd.
  { exists (Continue C), w, []. simpl. split; [done|]. split; [by rewrite app_nil_r|].
    split; [done|]. split; [done|]. by rewrite union_empty_r_L. }
  apply NoDup_cons in Hnd as [Hkey Hnd].
  cbn [sync_loop]. unfold bind at 1.
  destruct (decide (key ∈ C)) as [HkC|HkC].
  { rewrite process_key_skip by (by left).
    destruct (IH C w Hnd) as (r & w' & l & Hrun & Hl & Hr).
    exists r, w', l. split; [done|]. split; [done|].
    rewrite todo_cons. by rewrite bool_decide_eq_true_2. }
  destruct (call_of (planned_action st pf sf key) key) as [c|] eqn:Hc.
  2:{ rewrite process_key_skip
        by (right; by destruct (planned_action st pf sf key)).
      destruct (IH C w Hnd) as (r & w' & l & Hrun & Hl & Hr).
      exists r, w', l. split; [done|]. split; [done|].
      rewrite todo_cons, bool_decide_eq_false_2 by done.
      by rewrite Hc. }
  assert (todo st pf sf C (key :: keys)
          = (key, c) :: todo st pf sf (C ∪ {[key]}) keys) as Htodo.
  { rewrite todo_cons, bool_decide_eq_false_2 by done.
    rewrite Hc. simpl. f_equal. apply todo_ext. intros k Hk.
    rewrite elem_of_union, elem_of_singleton. split; [by left|].
    intros [?| ->]; [done|]. by exfalso. }
  destruct (process_key_turn st pf sf key C w c HkC Hc)
    as (o & v1 & _ & Hc1 & _ & _ & _ & Ho).
  destruct o as [code|].
  - destruct Ho as (Hrun & _). rewrite Hrun.
    exists Return, (emit (MsgError key code) v1), [(c, Some code)].
    split; [done|]. split; [done|].
    exists [], key, c, (todo st pf sf (C ∪ {[key]}) keys), code, [].
    by rewrite Htodo.
  - destruct Ho as (v' & o1 & o2 & Hrun & Hc' & _). rewrite Hrun.
    destruct (IH (C ∪ {[key]}) v' Hnd) as (r & w' & l & Hloop & Hl & Hr).
    rewrite Hloop.
    set (puts := [(PutObject PRIMARY_BUCKET LOG_KEY
                     (LogDoc (elements (C ∪ {[key]}))), o1);
                  (PutObject SECONDARY_BUCKET LOG_KEY
                     (LogDoc (elements (C ∪ {[key]}))), o2)]) in *.
    assert (Forall served ((c, None) :: puts)) as Hserved.
    { subst puts. apply Forall_cons. split; [by right|].
      apply Forall_cons. split; [by left|].
      apply Forall_cons. split; [by left|]. apply Forall_nil_2. }
    exists r, w'. destruct r as [C'|].
    + destruct Hr as (Hmap & HF & HC').
      exists (((c, None) :: puts) ++ l).
      split; [done|]. split.
      { rewrite Hl, Hc', Hc1. by rewrite <- !app_assoc. }
      rewrite Htodo. split; [|split].
      * rewrite fmap_app, Hmap. reflexivity.
      * by apply Forall_app.
      * rewrite HC'. simpl. by rewrite (assoc_L (∪)).
    + destruct Hr as (before & k & c' & rest & code & l0 & Ht & -> & Hmap & HF).
      exists (((c, None) :: puts) ++ l0 ++ [(c', Some code)]).
      split; [done|]. split.
      { rewrite Hl, Hc', Hc1. by rewrite <- !app_assoc. }
      exists ((key, c) :: before), k, c', rest, code, (((c, None) :: puts) ++ l0).
      rewrite Htodo, Ht. split; [done|]. split; [by rewrite <- app_assoc|].
      split; [rewrite fmap_app, Hmap; reflexivity|by apply Forall_app].
Qed.





Lemma todo_sublist st pf sf C keys : sublist (todo st pf sf C keys).*1 keys.
Proof.
  induction keys as [|k keys IH]; [done|].
  rewrite todo_cons. case_bool_decide; [by apply sublist_cons|].
  destruct (call_of (planned_action st pf sf k) k); simpl;
    [by apply sublist_skip|by apply sublist_cons].
Qed.

Lemma elem_of_todo st pf sf C keys key c :
  (key, c) ∈ todo st pf sf C keys ↔
  key ∈ keys ∧ (key ∉ C) ∧ call_of (planned_action st pf sf key) key = Some c.
Proof.
  unfold todo. rewrite list_elem_of_omap. split.
  - intros (k & Hk & Hf). case_bool_decide; [done|].
    destruct (call_of (planned_action st pf sf k) k) eqn:Hc; simplify_eq/=. done.
  - intros (Hk & HC & Hc). exists key. split; [done|].
    rewrite bool_decide_eq_false_2 by done. by rewrite Hc.
Qed.

(** C9: the loop of [replicate_resilient] runs over [sorted(list(all_keys))],
    which holds exactly the keys of the primary listing, of the secondary
    listing and of the snapshot's files, each once, in ascending
    lexicographic order.  Its work is, in that order, every such key that is
    not in the loaded completed set and for which an action is planned.  The
    store calls of the loop are exactly the turns of this work from first to
    last: the action of the key and then its checkpoint.  So a key of the
    completed set, like a key that needs no action, causes no call at all,
    neither an action nor a checkpoint; its turn leaves the world and the
    completed set as they are.  The loop ends after the last key, or with the
    first action that is refused. *)
Theorem loop_visits_sorted_union (d : Discovery) (w1 : World) :
  let keys := Py.sorted (all_keys d) in
  let work :=
    todo (d_state d) (d_primary_files d) (d_secondary_files d) (d_completed d) keys in
  (∀ key, key ∈ keys ↔
     key ∈ dom (d_primary_files d) ∨ key ∈ dom (d_secondary_files d)
     ∨ key ∈ dom (get_files (d_state d)))
  ∧ NoDup keys
  ∧ Sorted String.le keys
  ∧ sublist work.*1 keys
  ∧ (∀ key c, (key, c) ∈ work ↔
       key ∈ keys ∧ (key ∉ d_completed d)
       ∧ call_of (planned_action (d_state d) (d_primary_files d)
                    (d_secondary_files d) key) key = Some c)
  ∧ (∃ r w2 l,
      sync d w1 = (Ok r, w2)
      ∧ calls w2 = calls w1 ++ l
      ∧ match r with
        | Continue C' =>
            l.*1 = turns (d_completed d) work
            ∧ Forall served l
            ∧ C' = d_completed d ∪ list_to_set work.*1
        | Return =>
            ∃ before key c rest code l0,
              work = before ++ (key, c) :: rest
              ∧ l = l0 ++ [(c, Some code)]
              ∧ l0.*1 = turns (d_completed d) before
              ∧ Forall served l0
        end)
  ∧ ∀ key completed w, key ∈ completed →
      process_key (d_state d) (d_primary_files d) (d_secondary_files d)
        key completed w = (Ok (Continue completed), w).
Proof.
  intros keys work. subst keys work.
  split; [|split; [|split; [|split; [|split; [|split]]]]].
  - intros key. rewrite elem_of_sorted. unfold all_keys.
    rewrite !elem_of_union. tauto.
  - apply NoDup_sorted.
  - apply Sorted_merge_sort. apply _.
  - apply todo_sublist.
  - intros key c. apply elem_of_todo.
  - unfold sync. apply sync_loop_trace, NoDup_sorted.
  - intros key completed w Hk. apply process_key_skip. by left.
Qed.

(** The loop on three new files, the first of them already completed: one
    turn for [b.txt], one for [c.txt], nothing for [a.txt].  (The order of
    the keys inside a log is the one [elements] gives the set.) *)
Example loop_on_three_files :
  let d := {| d_state := Sample.st_empty; d_completed := {[ "a.txt" ]};
              d_primary_files := {[ "a.txt" := Sample.iso0; "b.txt" := Sample.iso0;
                                    "c.txt" := Sample.iso0 ]};
              d_secondary_files := ∅ |} in
  (calls (sync d Sample.w_three_files).2).*1
  = [ Copy PRIMARY_BUCKET "b.txt" SECONDARY_BUCKET;
      PutObject PRIMARY_BUCKET LOG_KEY (LogDoc ["a.txt"; "b.txt"]);
      PutObject SECONDARY_BUCKET LOG_KEY (LogDoc ["a.txt"; "b.txt"]);
      Copy PRIMARY_BUCKET "c.txt" SECONDARY_BUCKET;
      PutObject PRIMARY_BUCKET LOG_KEY (LogDoc ["c.txt"; "a.txt"; "b.txt"]);
      PutObject SECONDARY_BUCKET LOG_KEY (LogDoc ["c.txt"; "a.txt"; "b.txt"]) ].
Proof. vm_compute. reflexivity. Qed.

(** ** Checkpoints *)



(** ** Runs without failures *)

(** A turn of the loop when the store serves every call: the action takes
    effect on the buckets and the checkpoint lands in both. *)
Lemma process_key_served st pf sf key C w :
  no_faults w → key ∉ C →
  planned_action st pf sf key ≠ NoAction →
  match apply_action (planned_action st pf sf key) key (clock w (tick w))
          (primary w) (secondary w) with
  | Some (p', s') =>
      ∃ w' t1 t2,
        process_key st pf sf key C w = (Ok (Continue (C ∪ {[key]})), w')
        ∧ primary w' =
            <[LOG_KEY := {| Body := LogDoc (elements (C ∪ {[key]}));
                            LastModified := t1 |}]> p'
        ∧ secondary w' =
            <[LOG_KEY := {| Body := LogDoc (elements (C ∪ {[key]}));
                            LastModified := t2 |}]> s'
        ∧ fault w' = fault w ∧ clock w' = clock w
  | None =>
      ∃ w', process_key st pf sf key C w = (Ok Return, w')
        ∧ primary w' = primary w ∧ secondary w' = secondary w
        ∧ fault w' = fault w ∧ clock w' = clock w
  end.
Proof.
  intros Hnf Hk Ha. unfold process_key. rewrite bool_decide_eq_false_2 by done.
  destruct (planned_action st pf sf key); [| | | |done]; simpl;
    unfold try_except, bind at 1, perform, bind, print, s3.delete_object, s3.copy, ret;
    simpl; rewrite Hnf.
  all: try (match goal with |- context [match ?m !! ?k with Some _ => _ | None => _ end] =>
              destruct (m !! k) eqn:Eo; [|by eexists] end).
  all: match goal with |- context [save_progress_log ?c ?x] =>
         destruct (save_progress_log_spec c x)
           as (w' & -> & _ & Hcl & Hf & _ & Hp & Hs) end;
       simpl in Hp, Hs, Hcl, Hf; rewrite !Hnf in Hp, Hs;
       by eexists _, _, _.
Qed.

Lemma truthy_Some (v : option string) : Py.truthy v = true → ∃ t, v = Some t.
Proof. destruct v as [t|]; [by exists t|done]. Qed.

Lemma loaded_insert m doc t :
  loaded (<[LOG_KEY := {| Body := LogDoc (elements doc); LastModified := t |}]> m)
  = Ok doc.
Proof.
  unfold loaded. rewrite lookup_insert_eq. simpl. f_equal.
  apply set_eq. intros x. by rewrite elem_of_list_to_set, elem_of_elements.
Qed.

Section loop_invariant.

(** The loop works on the listings of the buckets as they were when it
    started. *)
Variables (st : State) (P0 S0 : gmap string Obj).

(** What a planned action says about its key. *)
Lemma planned_facts key :
  match planned_action st (listing_of P0) (listing_of S0) key with
  | DeleteFromPrimary =>
      is_Some (P0 !! key) ∧ key ∈ dom (get_files st)
      ∧ key ≠ STATE_KEY ∧ key ≠ LOG_KEY
  | CopyToSecondary => is_Some (P0 !! key) ∧ key ≠ STATE_KEY ∧ key ≠ LOG_KEY
  | DeleteFromSecondary =>
      is_Some (S0 !! key) ∧ key ∈ dom (get_files st)
      ∧ key ≠ STATE_KEY ∧ key ≠ LOG_KEY
  | CopyToPrimary => is_Some (S0 !! key) ∧ key ≠ STATE_KEY ∧ key ≠ LOG_KEY
  | NoAction => True
  end.
Proof.
  unfold planned_action.
  destruct (Py.truthy (listing_of P0 !! key)) eqn:Ep;
    destruct (Py.truthy (listing_of S0 !! key)) eqn:Es; simpl; try done.
  - apply truthy_Some in Ep as [t Ht].
    destruct (listing_of_Some _ _ _ Ht) as (_ & H1 & H2 & o & Ho & _).
    destruct (bool_decide (key ∈ dom (get_files st))) eqn:Ein; simpl.
    + apply bool_decide_eq_true in Ein.
      destruct (seen_in "secondary" st key); by eauto.
    + by eauto.
  - apply truthy_Some in Es as [t Ht].
    destruct (listing_of_Some _ _ _ Ht) as (_ & H1 & H2 & o & Ho & _).
    destruct (bool_decide (key ∈ dom (get_files st))) eqn:Ein; simpl.
    + apply bool_decide_eq_true in Ein.
      destruct (seen_in "primary" st key); by eauto.
    + by eauto.
Qed.

(** One turn on a key whose objects are still as listed. *)
Lemma served_turn key C w :
  no_faults w →
  (key ≠ LOG_KEY → primary w !! key = P0 !! key ∧ secondary w !! key = S0 !! key) →
  loaded (primary w) = Ok C →
  ∃ C' w',
    process_key st (listing_of P0) (listing_of S0) key C w = (Ok (Continue C'), w')
    ∧ no_faults w' ∧ clock w' = clock w
    ∧ loaded (primary w') = Ok C'
    ∧ ((C' = C ∧ w' = w
        ∧ (key ∈ C
           ∨ planned_action st (listing_of P0) (listing_of S0) key = NoAction))
       ∨ ((key ∉ C) ∧ C' = C ∪ {[key]} ∧ key ≠ LOG_KEY ∧ key ≠ STATE_KEY
          ∧ (∀ j, j ≠ key → j ≠ LOG_KEY →
               primary w' !! j = primary w !! j
               ∧ secondary w' !! j = secondary w !! j)
          ∧ (key ∈ dom (get_files st)
             ∨ is_Some (primary w' !! key) ∨ is_Some (secondary w' !! key)))).
Proof.
  intros Hnf Hkey Hlog.
  destruct (decide (key ∈ C ∨ planned_action st (listing_of P0) (listing_of S0) key = NoAction)) as [Hskip|Hact].
  { exists C, w. rewrite process_key_skip by done.
    repeat (split; [done|]). left. by repeat split. }
  assert (key ∉ C) as HkC by (intros ?; apply Hact; by left).
  assert (planned_action st (listing_of P0) (listing_of S0) key ≠ NoAction) as Hpa
    by (intros ?; apply Hact; by right).
  pose proof (process_key_served st (listing_of P0) (listing_of S0) key C w Hnf HkC Hpa) as Hrun.
  pose proof (planned_facts key) as Hfacts.
  assert (∀ p' s' w' t1 t2,
    primary w' = <[LOG_KEY := {| Body := LogDoc (elements (C ∪ {[key]}));
                                 LastModified := t1 |}]> p' →
    secondary w' = <[LOG_KEY := {| Body := LogDoc (elements (C ∪ {[key]}));
                                   LastModified := t2 |}]> s' →
    fault w' = fault w → clock w' = clock w →
    key ≠ LOG_KEY → key ≠ STATE_KEY →
    (∀ j, j ≠ key → p' !! j = primary w !! j ∧ s' !! j = secondary w !! j) →
    (key ∈ dom (get_files st) ∨ is_Some (p' !! key) ∨ is_Some (s' !! key)) →
    no_faults w' ∧ clock w' = clock w
    ∧ loaded (primary w') = Ok (C ∪ {[key]})
    ∧ ((C ∪ {[key]} = C ∧ w' = w
        ∧ (key ∈ C
           ∨ planned_action st (listing_of P0) (listing_of S0) key = NoAction))
       ∨ ((key ∉ C) ∧ C ∪ {[key]} = C ∪ {[key]} ∧ key ≠ LOG_KEY ∧ key ≠ STATE_KEY
          ∧ (∀ j, j ≠ key → j ≠ LOG_KEY →
               primary w' !! j = primary w !! j
               ∧ secondary w' !! j = secondary w !! j)
          ∧ (key ∈ dom (get_files st)
             ∨ is_Some (primary w' !! key) ∨ is_Some (secondary w' !! key)))))
    as Hgood.
  { intros p' s' w' t1 t2 Hp Hs Hf Hc H1 H2 Hother Hpres.
    split; [intros n; by rewrite Hf|]. split; [done|].
    split; [rewrite Hp; apply loaded_insert|].
    right. repeat (split; [done|]). split.
    - intros j Hj1 Hj2. rewrite Hp, Hs, !lookup_insert_ne by done.
      by apply Hother.
    - rewrite Hp, Hs, !lookup_insert_ne by done. done. }
  destruct (planned_action st (listing_of P0) (listing_of S0) key) eqn:Epa; [| | | |done]; simpl in Hrun.
  - destruct Hrun as (w' & t1 & t2 & Hrun & Hp & Hs & Hf & Hc).
    destruct Hfacts as (_ & Hin & H1 & H2).
    exists (C ∪ {[key]}), w'. split; [done|].
    eapply Hgood; try done.
    + intros j Hj. by rewrite lookup_delete_ne.
    + by left.
  - destruct Hfacts as ([o Ho] & H1 & H2).
    destruct (Hkey H2) as [HP _]. rewrite HP, Ho in Hrun.
    destruct Hrun as (w' & t1 & t2 & Hrun & Hp & Hs & Hf & Hc).
    exists (C ∪ {[key]}), w'. split; [done|].
    eapply Hgood; try done.
    + intros j Hj. by rewrite lookup_insert_ne.
    + right. left. rewrite HP, Ho. by eexists.
  - destruct Hrun as (w' & t1 & t2 & Hrun & Hp & Hs & Hf & Hc).
    destruct Hfacts as (_ & Hin & H1 & H2).
    exists (C ∪ {[key]}), w'. split; [done|].
    eapply Hgood; try done.
    + intros j Hj. by rewrite lookup_delete_ne.
    + by left.
  - destruct Hfacts as ([o Ho] & H1 & H2).
    destruct (Hkey H2) as [_ HS]. rewrite HS, Ho in Hrun.
    destruct Hrun as (w' & t1 & t2 & Hrun & Hp & Hs & Hf & Hc).
    exists (C ∪ {[key]}), w'. split; [done|].
    eapply Hgood; try done.
    + intros j Hj. by rewrite lookup_insert_ne.
    + right. right. rewrite HS, Ho. by eexists.
Qed.

(** The loop on keys that are still as listed: it runs to its end, and
    what it leaves behind is described key by key. *)
Lemma served_loop keys C w :
  NoDup keys →
  no_faults w →
  (∀ k, k ∈ keys → k ≠ LOG_KEY →
     primary w !! k = P0 !! k ∧ secondary w !! k = S0 !! k) →
  loaded (primary w) = Ok C →
  ∃ C' w',
    sync_loop st (listing_of P0) (listing_of S0) keys C w = (Ok (Continue C'), w')
    ∧ no_faults w' ∧ clock w' = clock w
    ∧ loaded (primary w') = Ok C'
    ∧ C ⊆ C'
    ∧ (∀ k, k ∈ C' →
         k ∈ C
         ∨ (k ∈ keys ∧ k ≠ LOG_KEY ∧ k ≠ STATE_KEY
            ∧ (k ∈ dom (get_files st)
               ∨ is_Some (primary w' !! k) ∨ is_Some (secondary w' !! k))))
    ∧ (∀ k, k ∈ keys →
         k ∈ C' ∨ planned_action st (listing_of P0) (listing_of S0) k = NoAction)
    ∧ (∀ j, (j ∈ C' → j ∈ C) → j ≠ LOG_KEY →
         primary w' !! j = primary w !! j ∧ secondary w' !! j = secondary w !! j).
Proof.
  revert C w. induction keys as [|key keys IH]; intros C w Hnd Hnf Hkeys Hlog.
  { exists C, w. simpl. unfold ret. repeat (split; [done|]).
    split; [by left|]. split; [intros k Hk; by apply elem_of_nil in Hk|done]. }
  apply NoDup_cons in Hnd as [Hfresh Hnd].
  destruct (served_turn key C w Hnf) as (C1 & w1 & Hrun & Hnf1 & Hcl1 & Hlog1 & Hcase);
    [intros ?; apply Hkeys; [by left|done]|done|].
  simpl. unfold bind. rewrite Hrun.
  destruct Hcase as [(-> & -> & Hskip)|(HkC & -> & H1 & H2 & Hother & Hpres)].
  - destruct (IH C w Hnd Hnf) as (C' & w' & Hloop & Hnf' & Hcl' & Hlog' & Hsub
                                  & Hnew & Hall & Hsame); [|done|].
    { intros k Hk. apply Hkeys. by right. }
    exists C', w'. repeat (split; [done|]). split; [|split; [|done]].
    + intros k Hk. destruct (Hnew k Hk) as [?|(?&?)]; [by left|].
      right. split; [by right|done].
    + intros k Hk. apply elem_of_cons in Hk as [->|Hk]; [|by apply Hall].
      destruct Hskip as [Hin|Hno]; [left; by apply Hsub|by right].
  - destruct (IH (C ∪ {[key]}) w1 Hnd Hnf1)
      as (C' & w' & Hloop & Hnf' & Hcl' & Hlog' & Hsub & Hnew & Hall & Hsame);
      [|done|].
    { intros k Hk Hne.
      assert (k ≠ key) as Hkk by (intros ->; done).
      destruct (Hother k Hkk Hne) as [-> ->]. apply Hkeys; [by right|done]. }
    assert (key ∈ C') as HkC' by (apply Hsub, elem_of_union_r, elem_of_singleton; done).
    exists C', w'. split; [done|]. split; [done|]. split; [congruence|].
    split; [done|]. split; [|split; [|split]].
    + etrans; [|exact Hsub]. apply union_subseteq_l.
    + intros k Hk. destruct (Hnew k Hk) as [Hin|(?&?)].
      * apply elem_of_union in Hin as [Hin|Hin]; [by left|].
        apply elem_of_singleton in Hin as ->. right.
        split; [by left|]. split; [done|]. split; [done|].
        destruct (Hsame key) as [-> ->]; [|done..].
        intros _. apply elem_of_union_r, elem_of_singleton. done.
      * right. split; [by right|done].
    + intros k Hk. apply elem_of_cons in Hk as [->|Hk]; [by left|by apply Hall].
    + intros j Hj Hne.
      assert (j ≠ key) as Hjk by (intros ->; apply HkC; by apply Hj).
      destruct (Hsame j) as [-> ->]; [|done|].
      * intros Hin. apply elem_of_union_l. by apply Hj.
      * by apply Hother.
Qed.

End loop_invariant.

(** ** Reading again what an earlier run left *)

Lemma load_progress_log_served w :
  fault w (tick w) = None → (load_progress_log w).1 = loaded (primary w).
Proof.
  intros Hf. unfold load_progress_log, try_except, bind, s3.get_object, json_loads,
    loaded, ret, raise. simpl. rewrite Hf.
  destruct (primary w !! LOG_KEY) as [[[] ?]|]; done.
Qed.

(** With every read served, the snapshot that [load_state] picks depends on
    the two stored snapshots only; just the time stamp of a fresh snapshot
    comes from the clock. *)
Lemma load_state_det w v :
  no_faults w → no_faults v →
  primary v !! STATE_KEY = primary w !! STATE_KEY →
  secondary v !! STATE_KEY = secondary w !! STATE_KEY →
  match (load_state w).1, (load_state v).1 with
  | Ok (Dict s), Ok (Dict s') => files s = files s'
  | Ok (List k), Ok (List k') => k = k'
  | Raise _, Raise _ => True
  | _, _ => False
  end.
Proof.
  intros Hw Hv Hp Hs.
  unfold load_state, load_state_from, fresh_state, try_except, bind,
    s3.get_object, json_loads, doc_get, print, now, ret, raise.
  simpl. rewrite !Hw, !Hv, Hp.
  destruct (primary w !! STATE_KEY) as [[[] ?]|]; simpl;
    rewrite ?Hw, ?Hv, ?Hs; try done;
    destruct (secondary w !! STATE_KEY) as [[[] ?]|]; simpl; try done;
    repeat (case_match; simplify_eq/=; try done).
Qed.

Lemma discover_Raise_inv w e w' :
  discover w = (Raise e, w') →
  (load_state w).1 = Raise e
  ∨ (∃ st wa, load_state w = (Ok st, wa) ∧ (load_progress_log wa).1 = Raise e)
  ∨ (∃ keys, (load_state w).1 = Ok (List keys) ∧ e = OtherError "AttributeError").
Proof. intros H. by apply discover_Raise_cases in H as (_ & _ & ?). Qed.

(** What [discover] finds when every call is served. *)
Lemma discover_served w d w1 :
  no_faults w → discover w = (Ok d, w1) →
  quiet w w1
  ∧ (load_state w).1 = Ok (Dict (d_state d))
  ∧ loaded (primary w) = Ok (d_completed d)
  ∧ d_primary_files d = listing_of (primary w)
  ∧ d_secondary_files d = listing_of (secondary w).
Proof.
  intros Hnf Hd.
  destruct (discover_inv _ _ _ Hd)
    as (wa & wb & Hst & Hlog & Hq & _ & _ & _ & _ & Hfull).
  destruct (Hfull Hnf) as [Hp Hs]. split; [done|]. split; [by rewrite Hst|].
  split; [|done].
  apply load_state_frame in Hst as ((HP & _ & _ & Hf) & _).
  rewrite <- HP, <- load_progress_log_served, Hlog; [done|].
  rewrite Hf. apply Hnf.
Qed.

(** A second [discover], on buckets that hold the same snapshots and a log
    that reads as [C]. *)
Lemma discover_again w d w1 v C :
  no_faults w → no_faults v →
  discover w = (Ok d, w1) →
  primary v !! STATE_KEY = primary w !! STATE_KEY →
  secondary v !! STATE_KEY = secondary w !! STATE_KEY →
  loaded (primary v) = Ok C →
  ∃ d' v1,
    discover v = (Ok d', v1)
    ∧ quiet v v1
    ∧ only_calls (λ c, is_get c ∨ is_list c) v v1
    ∧ files (d_state d') = files (d_state d)
    ∧ d_completed d' = C
    ∧ d_primary_files d' = listing_of (primary v)
    ∧ d_secondary_files d' = listing_of (secondary v).
Proof.
  intros Hw Hv Hd Hp Hs Hlog.
  destruct (discover_served _ _ _ Hw Hd) as (_ & Hst & _).
  pose proof (load_state_det w v Hw Hv Hp Hs) as Hdet. rewrite Hst in Hdet.
  destruct (discover v) as [[d'|e] v1] eqn:Hd'.
  - exists d', v1. split; [done|].
    destruct (discover_served _ _ _ Hv Hd') as (Hq & Hst' & Hlog' & Hpf & Hsf).
    split; [done|]. split; [by eapply discover_frame|].
    rewrite Hst' in Hdet. split; [done|].
    rewrite Hlog in Hlog'. by simplify_eq.
  - exfalso.
    apply discover_Raise_inv in Hd' as [Hr|[(st' & wa & Hst' & Hr)|(keys & Hr & _)]].
    + by rewrite Hr in Hdet.
    + apply load_state_frame in Hst' as ((HP & _ & _ & Hf) & _).
      rewrite load_progress_log_served, HP, Hlog in Hr; [done|].
      rewrite Hf. apply Hv.
    + by rewrite Hr in Hdet.
Qed.

(** ** Two runs side by side *)

Lemma same_map_refl m : same_map m m.
Proof. by intros k. Qed.

Lemma same_map_insert m m' k o o' :
  same_map m m' → Body o = Body o' → same_map (<[k:=o]> m) (<[k:=o']> m').
Proof.
  intros H Ho j. destruct (decide (k = j)) as [->|Hne].
  - rewrite !lookup_insert_eq. simpl. by rewrite Ho.
  - rewrite !lookup_insert_ne by done. apply H.
Qed.

Lemma same_map_delete m m' k :
  same_map m m' → same_map (delete k m) (delete k m').
Proof.
  intros H j. destruct (decide (k = j)) as [->|Hne].
  - by rewrite !lookup_delete_eq.
  - rewrite !lookup_delete_ne by done. apply H.
Qed.

Lemma same_map_is_Some m m' k : same_map m m' → is_Some (m !! k) ↔ is_Some (m' !! k).
Proof.
  intros H. specialize (H k).
  destruct (m !! k), (m' !! k); simpl in H; try done; split; intros [? ?]; done.
Qed.

Lemma same_map_listing_dom m m' :
  same_map m m' → dom (listing_of m) = dom (listing_of m').
Proof.
  intros H. apply set_eq. intros k. rewrite !elem_of_dom, !listing_of_lookup.
  case_bool_decide; [done|]. rewrite !fmap_is_Some. by apply same_map_is_Some.
Qed.

Lemma apply_action_sim a k t t' p s p' s' :
  same_map p p' → same_map s s' →
  match apply_action a k t p s, apply_action a k t' p' s' with
  | Some (p1, s1), Some (p1', s1') => same_map p1 p1' ∧ same_map s1 s1'
  | None, None => True
  | _, _ => False
  end.
Proof.
  intros Hp Hs. destruct a; simpl.
  - split; [by apply same_map_delete|done].
  - pose proof (Hp k) as Hk.
    destruct (p !! k) as [o|], (p' !! k) as [o'|]; simpl in Hk; try done.
    split; [done|]. apply same_map_insert; [done|]. simpl. congruence.
  - split; [done|by apply same_map_delete].
  - pose proof (Hs k) as Hk.
    destruct (s !! k) as [o|], (s' !! k) as [o'|]; simpl in Hk; try done.
    split; [|done]. apply same_map_insert; [done|]. simpl. congruence.
  - done.
Qed.

(** The same decision taken on buckets with the same bodies has the same
    outcome and leaves buckets with the same bodies. *)
Lemma process_key_sim st pf sf st' pf' sf' key C w v :
  no_faults w → no_faults v → same_bodies w v →
  planned_action st pf sf key = planned_action st' pf' sf' key →
  ∃ fl w' v',
    process_key st pf sf key C w = (Ok fl, w')
    ∧ process_key st' pf' sf' key C v = (Ok fl, v')
    ∧ same_bodies w' v' ∧ no_faults w' ∧ no_faults v'.
Proof.
  intros Hw Hv [HP HS] Hplan.
  destruct (decide (key ∈ C ∨ planned_action st pf sf key = NoAction)) as [Hskip|Hact].
  { exists (Continue C), w, v. rewrite !process_key_skip; [done|..].
    - by rewrite <- Hplan.
    - done. }
  assert (key ∉ C) as HkC by (intros ?; apply Hact; by left).
  assert (planned_action st pf sf key ≠ NoAction) as Hpa
    by (intros ?; apply Hact; by right).
  pose proof (process_key_served st pf sf key C w Hw HkC Hpa) as Hrw.
  assert (planned_action st' pf' sf' key ≠ NoAction) as Hpa' by (by rewrite <- Hplan).
  pose proof (process_key_served st' pf' sf' key C v Hv HkC Hpa') as Hrv.
  rewrite <- Hplan in Hrv.
  pose proof (apply_action_sim (planned_action st pf sf key) key
                (clock w (tick w)) (clock v (tick v)) _ _ _ _ HP HS) as Hsim.
  destruct (apply_action _ key (clock w (tick w)) _ _) as [[p1 s1]|];
    destruct (apply_action _ key (clock v (tick v)) _ _) as [[p1' s1']|];
    try done.
  - destruct Hrw as (w' & t1 & t2 & Hrw & Hpw & Hsw & Hfw & _).
    destruct Hrv as (v' & t1' & t2' & Hrv & Hpv & Hsv & Hfv & _).
    destruct Hsim as [Hp1 Hs1].
    exists (Continue (C ∪ {[key]})), w', v'. split; [done|]. split; [done|].
    split; [|split].
    + split.
      * rewrite Hpw, Hpv. by apply same_map_insert.
      * rewrite Hsw, Hsv. by apply same_map_insert.
    + intros n. by rewrite Hfw.
    + intros n. by rewrite Hfv.
  - destruct Hrw as (w' & Hrw & Hpw & Hsw & Hfw & _).
    destruct Hrv as (v' & Hrv & Hpv & Hsv & Hfv & _).
    exists Return, w', v'. split; [done|]. split; [done|].
    split; [|split].
    + split; [by rewrite Hpw, Hpv|by rewrite Hsw, Hsv].
    + intros n. by rewrite Hfw.
    + intros n. by rewrite Hfv.
Qed.

Lemma sync_loop_sim st pf sf st' pf' sf' keys C w v :
  no_faults w → no_faults v → same_bodies w v →
  (∀ k, k ∈ keys → planned_action st pf sf k = planned_action st' pf' sf' k) →
  ∃ fl w' v',
    sync_loop st pf sf keys C w = (Ok fl, w')
    ∧ sync_loop st' pf' sf' keys C v = (Ok fl, v')
    ∧ same_bodies w' v' ∧ no_faults w' ∧ no_faults v'.
Proof.
  revert C w v. induction keys as [|key keys IH]; intros C w v Hw Hv Hsame Hplan.
  { exists (Continue C), w, v. by repeat (split; [done|]). }
  destruct (process_key_sim st pf sf st' pf' sf' key C w v Hw Hv Hsame)
    as (fl & w1 & v1 & Hrw & Hrv & Hsame1 & Hw1 & Hv1); [apply Hplan; by left|].
  simpl. unfold bind. rewrite Hrw, Hrv. destruct fl as [C1|].
  - apply IH; try done. intros k Hk. apply Hplan. by right.
  - exists Return, w1, v1. by repeat (split; [done|]).
Qed.

(** The loop copies and deletes only keys that are not completed. *)
Lemma sync_loop_acts st pf sf keys C w r w' :
  sync_loop st pf sf keys C w = (r, w') →
  only_calls (λ c, ∀ key, acts_on key c → key ∉ C) w w'.
Proof.
  revert C w. induction keys as [|k keys IH]; intros C w; simpl.
  { unfold ret. intros [= <- <-]. apply only_calls_refl. }
  unfold bind. intros H.
  destruct (process_key_frame st pf sf k C w) as (fl & w1 & Hrun & _ & _ & _ & HC).
  rewrite Hrun in H.
  assert (only_calls (λ c, ∀ key, acts_on key c → key ∉ C) w w1) as Hfirst.
  { destruct (decide (k ∈ C)) as [Hin|Hout].
    - rewrite process_key_skip in Hrun by (by left). simplify_eq.
      apply only_calls_refl.
    - pose proof (process_key_calls st pf sf k C w Hout) as Hc.
      destruct (call_of (planned_action st pf sf k) k) as [c|] eqn:Ec.
      + destruct Hc as (r' & v' & o & rest & Hrun' & Hcalls & Hrest & _).
        rewrite Hrun in Hrun'. simplify_eq.
        exists ((c, o) :: rest). split; [done|]. constructor.
        * simpl. intros key Hact.
          destruct (planned_call_listed _ _ _ _ _ Ec) as [Hk _].
          destruct c; simpl in *; congruence.
        * eapply Forall_impl; [exact Hrest|].
          intros [c' o'] Hcp key Hact. simpl in *. by destruct c'.
      + rewrite Hc in Hrun. simplify_eq. apply only_calls_refl. }
  destruct fl as [C1|].
  - apply IH in H. eapply only_calls_trans; [exact Hfirst|].
    eapply only_calls_weaken; [|exact H].
    intros c Hc key Hact Hin. apply (Hc key Hact).
    destruct (HC C1 eq_refl) as [Hsub _]. by apply Hsub.
  - unfold ret in H. by simplify_eq.
Qed.

Lemma save_state_served state w :
  no_faults w →
  ∃ w' t t1 t2,
    save_state state w = (Ok {| files := files state; last_updated := Some t |}, w')
    ∧ primary w' =
        <[STATE_KEY := {| Body := StateDoc {| files := files state;
                                              last_updated := Some t |};
                          LastModified := t1 |}]> (primary w)
    ∧ secondary w' =
        <[STATE_KEY := {| Body := StateDoc {| files := files state;
                                              last_updated := Some t |};
                          LastModified := t2 |}]> (secondary w)
    ∧ fault w' = fault w.
Proof.
  intros Hnf.
  unfold save_state, save_state_to, try_except, bind, now, s3.put_object, print, ret.
  simpl. repeat (rewrite Hnf; simpl). by eexists _, _, _, _.
Qed.

Lemma delete_progress_log_served w :
  no_faults w →
  ∃ w', delete_progress_log w = (Ok tt, w')
    ∧ primary w' = delete LOG_KEY (primary w)
    ∧ secondary w' = delete LOG_KEY (secondary w).
Proof.
  intros Hnf.
  unfold delete_progress_log, delete_progress_log_from, try_except, bind,
    s3.delete_object, print, ret.
  simpl. repeat (rewrite Hnf; simpl). by eexists.
Qed.

(** The tail of the run when every call is served: the snapshot rebuilt from
    the two buckets is in both of them, and the log is gone. *)
Lemma finish_served_snapshot state w :
  no_faults w →
  ∃ w' stN t1 t2,
    finish state w = (Ok tt, w')
    ∧ primary w' =
        delete LOG_KEY
          (<[STATE_KEY := {| Body := StateDoc stN; LastModified := t1 |}]> (primary w))
    ∧ secondary w' =
        delete LOG_KEY
          (<[STATE_KEY := {| Body := StateDoc stN; LastModified := t2 |}]> (secondary w))
    ∧ (∀ k, seen_map stN !! k =
        if bool_decide (k ∈ dom (listing_of (primary w)) ∪ dom (listing_of (secondary w)))
        then Some ((if bool_decide (k ∈ dom (listing_of (primary w)))
                    then ["primary"] else [])
                   ++ (if bool_decide (k ∈ dom (listing_of (secondary w)))
                       then ["secondary"] else []))
        else None)
    ∧ state_truthy (Some stN) = true
    ∧ fault w' = fault w.
Proof.
  intros Hnf. unfold finish. unfold bind at 1, print at 1. unfold bind at 1.
  destruct (list_bucket_objects_spec PRIMARY_BUCKET (emit MsgSyncComplete w))
    as (pf & w1 & -> & _ & Hq1 & _ & _ & Hpf).
  rewrite Hpf by done. clear pf Hpf. simpl.
  assert (no_faults w1) as Hnf1 by (by eapply no_faults_quiet).
  unfold bind at 1.
  destruct (list_bucket_objects_spec SECONDARY_BUCKET w1)
    as (sf & w2 & -> & _ & Hq2 & _ & _ & Hsf).
  rewrite Hsf by done. clear sf Hsf. simpl.
  assert (no_faults w2) as Hnf2 by (by eapply no_faults_quiet).
  pose proof Hq1 as (HP1 & HS1 & _). simpl in HP1, HS1. rewrite HS1.
  unfold bind at 1. unfold rebuild_files_state.
  destruct (rebuild_loop_spec (listing_of (primary w)) (listing_of (secondary w))
              (elements (dom (listing_of (primary w)) ∪ dom (listing_of (secondary w))))
              ∅ w2) as (rebuilt & w3 & Hreb & _ & _ & Hout & Hin).
  rewrite Hreb.
  apply rebuild_loop_quiet in Hreb as [Hq3 _].
  assert (no_faults w3) as Hnf3 by (by eapply no_faults_quiet).
  unfold bind at 1.
  destruct (save_state_served
              {| files := Some rebuilt; last_updated := last_updated state |} w3 Hnf3)
    as (w4 & t & t1 & t2 & -> & HP4 & HS4 & Hf4).
  simpl in HP4, HS4.
  unfold bind at 1, print at 1.
  destruct (delete_progress_log_served (emit MsgCleaning w4)) as (w5 & Hw5 & HP5 & HS5).
  { intros n. simpl. by rewrite Hf4. }
  rewrite Hw5. simpl in HP5, HS5.
  pose proof Hq2 as (HP2 & HS2 & _). pose proof Hq3 as (HP3 & HS3 & _).
  exists w5, {| files := Some rebuilt; last_updated := Some t |}, t1, t2.
  split; [done|].
  split; [by rewrite HP5, HP4, HP3, HP2, HP1|].
  split; [by rewrite HS5, HS4, HS3, HS2, HS1|].
  split; [|split; [reflexivity|]].
  2:{ destruct (delete_progress_log_frame (emit MsgCleaning w4))
        as (w5' & E5 & _ & Hf5 & _).
      rewrite Hw5 in E5. injection E5 as <-. rewrite Hf5. simpl. rewrite Hf4.
      destruct Hq1 as (_ & _ & _ & Hf1). destruct Hq2 as (_ & _ & _ & Hf2).
      destruct Hq3 as (_ & _ & _ & Hf3). by rewrite Hf3, Hf2, Hf1. }
  intros k. unfold seen_map, get_files. simpl. rewrite lookup_fmap.
  case_bool_decide as Hk.
  - destruct (Hin k) as (n & _ & ->); [by apply elem_of_elements|]. done.
  - rewrite Hout by (by rewrite elem_of_elements). by rewrite lookup_empty.
Qed.

Lemma finish_served state w :
  no_faults w →
  ∃ w' stN t1 t2,
    finish state w = (Ok tt, w')
    ∧ primary w' =
        delete LOG_KEY
          (<[STATE_KEY := {| Body := StateDoc stN; LastModified := t1 |}]> (primary w))
    ∧ secondary w' =
        delete LOG_KEY
          (<[STATE_KEY := {| Body := StateDoc stN; LastModified := t2 |}]> (secondary w))
    ∧ ∀ k, seen_map stN !! k =
        if bool_decide (k ∈ dom (listing_of (primary w)) ∪ dom (listing_of (secondary w)))
        then Some ((if bool_decide (k ∈ dom (listing_of (primary w)))
                    then ["primary"] else [])
                   ++ (if bool_decide (k ∈ dom (listing_of (secondary w)))
                       then ["secondary"] else []))
        else None.
Proof.
  intros Hnf.
  destruct (finish_served_snapshot state w Hnf)
    as (w' & stN & t1 & t2 & Hfin & Hpw & Hsw & Hseen & _).
  by exists w', stN, t1, t2.
Qed.

Lemma finish_sim state state' w v :
  no_faults w → no_faults v → same_bodies w v →
  ∃ w' v', finish state w = (Ok tt, w') ∧ finish state' v = (Ok tt, v')
    ∧ same_outcome w' v'.
Proof.
  intros Hw Hv [HP HS].
  destruct (finish_served state w Hw) as (w' & stN & t1 & t2 & Hrw & Hpw & Hsw & Hseen).
  destruct (finish_served state' v Hv) as (v' & stN' & t1' & t2' & Hrv & Hpv & Hsv & Hseen').
  exists w', v'. split; [done|]. split; [done|]. split.
  - intros b key Hkey. destruct (decide (key = LOG_KEY)) as [->|Hlog].
    + destruct b; simpl; rewrite ?Hpw, ?Hpv, ?Hsw, ?Hsv, !lookup_delete_eq; done.
    + destruct b; simpl; rewrite ?Hpw, ?Hpv, ?Hsw, ?Hsv;
        rewrite !lookup_delete_ne, !lookup_insert_ne by done; [apply HP|apply HS].
  - intros b. exists stN, stN'.
    assert (seen_map stN = seen_map stN') as Heq.
    { apply map_eq. intros k. rewrite Hseen, Hseen'.
      by rewrite (same_map_listing_dom _ _ HP), (same_map_listing_dom _ _ HS). }
    destruct b; simpl; rewrite ?Hpw, ?Hpv, ?Hsw, ?Hsv;
      rewrite !lookup_delete_ne, !lookup_insert_eq by done; done.
Qed.

(** ** Resuming *)

Lemma STATE_KEY_ne_LOG_KEY : STATE_KEY ≠ LOG_KEY.
Proof. discriminate. Qed.

Lemma planned_action_ext st pf sf st' pf' sf' key :
  pf !! key = pf' !! key → sf !! key = sf' !! key → files st = files st' →
  planned_action st pf sf key = planned_action st' pf' sf' key.
Proof.
  intros Hp Hs Hf. unfold planned_action, seen_in, get_files.
  by rewrite Hp, Hs, Hf.
Qed.

Lemma listing_of_lookup_ext m m' key :
  (key ≠ LOG_KEY → m !! key = m' !! key) →
  listing_of m !! key = listing_of m' !! key.
Proof.
  intros H. rewrite !listing_of_lookup. case_bool_decide as Hk; [done|].
  rewrite H; [done|]. intros ->. apply Hk. by right.
Qed.

Lemma sync_loop_noop st pf sf keys C w :
  (∀ k, k ∈ keys → k ∈ C ∨ planned_action st pf sf k = NoAction) →
  sync_loop st pf sf keys C w = (Ok (Continue C), w).
Proof.
  induction keys as [|k keys IH]; intros H; simpl; [done|].
  unfold bind. rewrite process_key_skip by (apply H; by left).
  apply IH. intros j Hj. apply H. by right.
Qed.

Lemma elem_of_listing_dom m key :
  key ≠ STATE_KEY → key ≠ LOG_KEY → is_Some (m !! key) → key ∈ dom (listing_of m).
Proof.
  intros H1 H2 [o Ho]. apply elem_of_dom. rewrite listing_of_lookup.
  rewrite bool_decide_eq_false_2 by (by intros [?|?]). rewrite Ho. by eexists.
Qed.

(** Where an interrupted run leaves the buckets: every call served, the
    turns for the keys of [before] done. *)
Lemma interrupted_world w0 w1 wi d before C :
  no_faults w0 →
  discover w0 = (Ok d, w1) →
  NoDup before →
  sync_loop (d_state d) (d_primary_files d) (d_secondary_files d)
    before (d_completed d) w1 = (Ok (Continue C), wi) →
  d_primary_files d = listing_of (primary w0)
  ∧ d_secondary_files d = listing_of (secondary w0)
  ∧ no_faults wi
  ∧ loaded (primary wi) = Ok C
  ∧ (∀ k, k ∈ C →
       k ∈ d_completed d
       ∨ (k ∈ before ∧ k ≠ LOG_KEY ∧ k ≠ STATE_KEY
          ∧ (k ∈ dom (get_files (d_state d))
             ∨ is_Some (primary wi !! k) ∨ is_Some (secondary wi !! k))))
  ∧ (∀ k, k ∈ before →
       k ∈ C
       ∨ planned_action (d_state d) (d_primary_files d) (d_secondary_files d) k
         = NoAction)
  ∧ (∀ j, (j ∈ C → j ∈ d_completed d) → j ≠ LOG_KEY →
       primary wi !! j = primary w0 !! j ∧ secondary wi !! j = secondary w0 !! j).
Proof.
  intros Hnf Hd Hnd Hloop.
  destruct (discover_served _ _ _ Hnf Hd) as (Hq & _ & Hlog & Hpf & Hsf).
  assert (no_faults w1) as Hnf1 by (by eapply no_faults_quiet).
  destruct Hq as (HP & HS & _).
  rewrite Hpf, Hsf in Hloop |- *.
  destruct (served_loop (d_state d) (primary w0) (secondary w0) before
              (d_completed d) w1 Hnd Hnf1)
    as (C' & w' & Hrun & Hnf' & _ & Hlog' & _ & Hnew & Hall & Hsame).
  { intros k _ _. by rewrite HP, HS. }
  { by rewrite HP. }
  rewrite Hrun in Hloop. simplify_eq.
  repeat (split; [done|]).
  intros j Hj Hne. rewrite <- HP, <- HS. by apply Hsame.
Qed.

(** C3: take a run in which every call is served and interrupt it after any
    number of turns of its loop, in particular right after the checkpoint of
    a key.  Running the script again on the buckets as they then are ends
    normally, as does the run that is not interrupted; both leave the same
    bodies under the same keys in both buckets and a snapshot with the same
    keys and the same [last_seen_in] (only time stamps can differ); and the
    second run issues no copy and no delete for any key that was completed
    when the first one was interrupted. *)
Theorem resume_after_checkpoint (w0 w1 wi : World) (d : Discovery)
    (before after : list string) (C : gset string) :
  no_faults w0 →
  discover w0 = (Ok d, w1) →
  Py.sorted (all_keys d) = before ++ after →
  sync_loop (d_state d) (d_primary_files d) (d_secondary_files d)
    before (d_completed d) w1 = (Ok (Continue C), wi) →
  ∃ wA wB l,
    replicate_resilient wi = (Ok tt, wA)
    ∧ replicate_resilient w0 = (Ok tt, wB)
    ∧ same_outcome wA wB
    ∧ calls wA = calls wi ++ l
    ∧ ∀ key c o, key ∈ C → key ≠ LOG_KEY → (c, o) ∈ l → ¬ acts_on key c.
Proof.
  intros Hnf Hd Hsort Hloop.
  pose proof (NoDup_sorted (all_keys d)) as Hnd. rewrite Hsort in Hnd.
  apply NoDup_app in Hnd as (Hnd1 & Hdisj & Hnd2).
  destruct (interrupted_world _ _ _ _ _ _ Hnf Hd Hnd1 Hloop)
    as (Hpf & Hsf & Hnfi & Hlogi & Hnew & Hall & Hsame).
  set (st := d_state d) in *. set (C0 := d_completed d) in *.
  (* keys that the interrupted run has not acted on are as they were *)
  assert (∀ k, k ∉ before → k ≠ LOG_KEY →
            primary wi !! k = primary w0 !! k ∧ secondary wi !! k = secondary w0 !! k)
    as Hrest.
  { intros k Hk Hne. apply Hsame; [|done].
    intros Hin. destruct (Hnew k Hin) as [?|(? & _)]; done. }
  assert (∀ k, (k ∈ C → k ∈ C0) →
            listing_of (primary wi) !! k = listing_of (primary w0) !! k
            ∧ listing_of (secondary wi) !! k = listing_of (secondary w0) !! k)
    as Hlist.
  { intros k Hk. split; apply listing_of_lookup_ext; intros Hne;
      by destruct (Hsame k Hk Hne). }
  (* the run that is not interrupted *)
  destruct (served_loop st (primary w0) (secondary w0) after C wi Hnd2 Hnfi)
    as (C2 & w2 & Hafter & Hnf2 & _); [|done|].
  { intros k Hk Hne. apply Hrest; [|done]. intros Hb. by apply (Hdisj k). }
  assert (sync d w1 = (Ok (Continue C2), w2)) as Hsync.
  { unfold sync. rewrite Hsort, (sync_loop_app_Continue _ _ _ _ _ _ _ _ _ Hloop).
    by rewrite Hpf, Hsf. }
  (* the second run: what it discovers *)
  destruct (discover_again w0 d w1 wi C Hnf Hnfi Hd)
    as (d' & v1 & Hd' & Hq' & Hcalls' & Hfiles & HC' & Hpf' & Hsf'); [..|done|].
  { apply Hsame; [|apply STATE_KEY_ne_LOG_KEY].
    intros Hin. destruct (Hnew _ Hin) as [?|(_ & _ & ? & _)]; done. }
  { apply Hsame; [|apply STATE_KEY_ne_LOG_KEY].
    intros Hin. destruct (Hnew _ Hin) as [?|(_ & _ & ? & _)]; done. }
  assert (no_faults v1) as Hnfv by (by eapply no_faults_quiet).
  assert (get_files (d_state d') = get_files st) as Hgf
    by (unfold get_files; by rewrite Hfiles).
  assert (all_keys d' = all_keys d) as Hkeys.
  { apply set_eq. intros k. unfold all_keys.
    rewrite Hpf', Hsf', Hgf, Hpf, Hsf, !elem_of_union.
    destruct (decide (k ∈ C → k ∈ C0)) as [Hold|Hact].
    - destruct (Hlist k Hold) as [Hl1 Hl2].
      by rewrite !elem_of_dom, Hl1, Hl2.
    - assert (k ∈ C ∧ k ∉ C0) as [Hin Hout].
      { destruct (decide (k ∈ C)); [|by exfalso; apply Hact].
        split; [done|]. intros ?. by apply Hact. }
      destruct (Hnew k Hin) as [?|(Hb & H1 & H2 & Hpres)]; [done|].
      split; intros _.
      + assert (k ∈ all_keys d) as Hk.
        { apply elem_of_sorted. rewrite Hsort. apply elem_of_app. by left. }
        unfold all_keys in Hk. rewrite Hpf, Hsf, !elem_of_union in Hk. done.
      + destruct Hpres as [?|[?|?]]; [by right| |].
        * left. left. by apply elem_of_listing_dom.
        * left. right. by apply elem_of_listing_dom. }
  (* its loop does nothing on the keys already gone through ... *)
  assert (sync_loop (d_state d') (d_primary_files d') (d_secondary_files d')
            before C v1 = (Ok (Continue C), v1)) as Hnoop.
  { apply sync_loop_noop. intros k Hk.
    destruct (decide (k ∈ C)) as [Hin|Hout]; [by left|right].
    destruct (Hall k Hk) as [?|Hno]; [done|]. rewrite <- Hno.
    destruct (Hlist k) as [Hl1 Hl2]; [done|].
    apply planned_action_ext; [by rewrite Hpf', Hpf|by rewrite Hsf', Hsf|done]. }
  (* ... and on the others what the first run would have done *)
  destruct Hq' as (HP' & HS' & _).
  destruct (sync_loop_sim (d_state d') (d_primary_files d') (d_secondary_files d')
              st (listing_of (primary w0)) (listing_of (secondary w0))
              after C v1 wi Hnfv Hnfi)
    as (fl & v2 & w2' & Hrerun & Hafter' & Hsame2 & Hnfv2 & _).
  { split; [rewrite HP'|rewrite HS']; apply same_map_refl. }
  { intros k Hk. destruct (Hlist k) as [Hl1 Hl2].
    - intros Hin. destruct (Hnew k Hin) as [?|(Hb & _)]; [done|].
      by destruct (Hdisj k Hb).
    - apply planned_action_ext; [by rewrite Hpf'|by rewrite Hsf'|done]. }
  rewrite Hafter in Hafter'. injection Hafter' as <- <-.
  destruct (finish_sim (d_state d') st v2 w2 Hnfv2 Hnf2 Hsame2)
    as (wA & wB & HfinA & HfinB & Hout).
  assert (sync d' v1 = (Ok (Continue C2), v2)) as Hsync'.
  { unfold sync. rewrite Hkeys, Hsort, HC'.
    by rewrite (sync_loop_app_Continue _ _ _ _ _ _ _ _ _ Hnoop). }
  assert (replicate_resilient wi = (Ok tt, wA)) as HrunA.
  { unfold replicate_resilient.
    by rewrite (bind_Ok _ _ _ _ _ Hd'), (bind_Ok _ _ _ _ _ Hsync'). }
  assert (replicate_resilient w0 = (Ok tt, wB)) as HrunB.
  { unfold replicate_resilient.
    by rewrite (bind_Ok _ _ _ _ _ Hd), (bind_Ok _ _ _ _ _ Hsync). }
  (* the calls of the second run *)
  assert (only_calls (λ c, ∀ key, key ∈ C → key ≠ LOG_KEY → ¬ acts_on key c) wi wA)
    as (l & Hl & HF).
  { apply (only_calls_trans _ wi v1).
    { eapply only_calls_weaken; [|exact Hcalls'].
      intros c Hc key _ _ Hact. destruct c; simpl in *; by destruct Hc. }
    apply (only_calls_trans _ v1 v2).
    { apply sync_loop_acts in Hrerun.
      eapply only_calls_weaken; [|exact Hrerun].
      intros c Hc key Hin _ Hact. by apply (Hc key). }
    destruct (finish_frame (d_state d') v2) as (wA' & HfinA' & Hfc).
    rewrite HfinA in HfinA'. simplify_eq.
    eapply only_calls_weaken; [|exact Hfc].
    intros c Hc key _ Hne Hact. destruct c; simpl in *; try done. congruence. }
  exists wA, wB, l. repeat (split; [done|]).
  intros key c o Hin Hne Hel. rewrite Forall_forall in HF.
  by apply (HF (c, o) Hel key).
Qed.

Lemma resume_after_checkpoint_witness :
  ∃ wi wA wB,
    replicate_resilient wi = (Ok tt, wA)
    ∧ replicate_resilient Sample.w_two_files = (Ok tt, wB)
    ∧ same_outcome wA wB.
Proof.
  destruct (discover Sample.w_two_files) as [r w1] eqn:Hd.
  assert (∃ d, r = Ok d) as [d ->].
  { apply (f_equal fst) in Hd. vm_compute in Hd. subst r. eexists. reflexivity. }
  pose proof Hd as Hd'. vm_compute in Hd'. injection Hd' as Hd1 Hw1.
  destruct (sync_loop (d_state d) (d_primary_files d) (d_secondary_files d)
              ["a.txt"] (d_completed d) w1) as [r wi] eqn:Hloop.
  assert (∃ C, r = Ok (Continue C)) as [C ->].
  { apply (f_equal fst) in Hloop. rewrite <- Hd1, <- Hw1 in Hloop.
    vm_compute in Hloop. subst r. eexists. reflexivity. }
  destruct (resume_after_checkpoint Sample.w_two_files w1 wi d
              ["a.txt"] ["b.txt"] C) as (wA & wB & l & HA & HB & Hout & _).
  - intros n. reflexivity.
  - exact Hd.
  - rewrite <- Hd1. vm_compute. reflexivity.
  - exact Hloop.
  - exists wi, wA, wB. split; [exact HA|]. split; [exact HB|exact Hout].
Defined.

(** C3 as stated fails on the time stamps: the run that resumes after the
    checkpoint of [a.txt] writes its snapshot later than the run that is not
    interrupted, so the two snapshots are not the same. *)
Lemma resumed_snapshot_differs_in_time :
  snapshot_in PRIMARY_BUCKET
    (replicate_resilient (interrupted_after ["a.txt"] Sample.w_two_files)).2
    ≫= last_updated = Some "2025-01-01T00:00:22+00:00"
  ∧ snapshot_in PRIMARY_BUCKET (replicate_resilient Sample.w_two_files).2
    ≫= last_updated = Some "2025-01-01T00:00:16+00:00"
  ∧ snapshot_in PRIMARY_BUCKET
      (replicate_resilient (interrupted_after ["a.txt"] Sample.w_two_files)).2
    ≠ snapshot_in PRIMARY_BUCKET (replicate_resilient Sample.w_two_files).2.
Proof.
  assert (snapshot_in PRIMARY_BUCKET
            (replicate_resilient (interrupted_after ["a.txt"] Sample.w_two_files)).2
          ≫= last_updated = Some "2025-01-01T00:00:22+00:00") as H1
    by (vm_compute; reflexivity).
  assert (snapshot_in PRIMARY_BUCKET (replicate_resilient Sample.w_two_files).2
          ≫= last_updated = Some "2025-01-01T00:00:16+00:00") as H2
    by (vm_compute; reflexivity).
  split; [exact H1|]. split; [exact H2|].
  intros Heq. rewrite Heq, H2 in H1. discriminate H1.
Qed.

(** ** Two runs from start to end *)

(** A file that is new in the primary bucket is copied, and the rebuilt
    snapshot has seen it on both sides. *)
Example new_file_is_copied :
  (replicate_resilient Sample.w_new_file).1 = Ok tt
  ∧ Body <$> secondary (replicate_resilient Sample.w_new_file).2 !! "x.txt"
    = Some (Bytes "X")
  ∧ (snapshot_in PRIMARY_BUCKET (replicate_resilient Sample.w_new_file).2
       ≫= λ st, last_seen_in <$> get_files st !! "x.txt")
    = Some ["primary"; "secondary"]
  ∧ log_in PRIMARY_BUCKET (replicate_resilient Sample.w_new_file).2 = None.
Proof. repeat split; vm_compute; reflexivity. Qed.

(** A file that the snapshot saw on both sides and that is gone from the
    primary bucket is deleted from the secondary one, and the rebuilt snapshot
    has no entry for it. *)
Example deletion_is_propagated :
  (replicate_resilient Sample.w_deleted_in_primary).1 = Ok tt
  ∧ (DeleteObject SECONDARY_BUCKET "x.txt", None)
      ∈ calls (replicate_resilient Sample.w_deleted_in_primary).2
  ∧ secondary (replicate_resilient Sample.w_deleted_in_primary).2 !! "x.txt" = None
  ∧ (snapshot_in SECONDARY_BUCKET (replicate_resilient Sample.w_deleted_in_primary).2
       ≫= λ st, Some (get_files st !! "x.txt"))
    = Some None.
Proof.
  split; [vm_compute; reflexivity|].
  split; [apply list_elem_of_In; vm_compute; tauto|].
  split; vm_compute; reflexivity.
Qed.

(** * Further properties of the script *)

(** ** Listing *)

Lemma list_pages_out bucket n pages result w :
  (no_faults w → out (list_pages bucket n pages result w).2 = out w)
  ∧ (out (list_pages bucket n pages result w).2 = out w
     ∨ ∃ code, out (list_pages bucket n pages result w).2
               = out w ++ [MsgCriticalList bucket code]).
Proof.
  revert n result w. induction pages as [|page rest IH]; intros n result w; simpl.
  { split; [done|by left]. }
  unfold try_except, bind, s3.list_page, print, ret.
  destruct (fault w (tick w)) as [code|] eqn:Hf.
  - simpl. split; [intros Hnf; by rewrite Hnf in Hf|]. right. by exists code.
  - destruct (IH (S n) (add_page page result)
                 (record_call (ListPage bucket n) None w)) as [H1 H2].
    destruct (list_pages bucket (S n) rest (add_page page result)
                (record_call (ListPage bucket n) None w)) as [[r|[c|x]] w'] eqn:E;
      simpl in *.
    + split; [intros Hnf; by apply H1|done].
    + destruct (list_pages_Ok bucket (S n) rest (add_page page result)
                  (record_call (ListPage bucket n) None w)) as (? & ? & E').
      rewrite E in E'. discriminate E'.
    + destruct (list_pages_Ok bucket (S n) rest (add_page page result)
                  (record_call (ListPage bucket n) None w)) as (? & ? & E').
      rewrite E in E'. discriminate E'.
Qed.

(** X1, [list_bucket_objects]: the function never raises and only reads: it
    makes list requests and leaves both buckets alone.  Whatever fails, every
    entry of its result is a real object of the bucket with its own time
    stamp in ISO format, and never one of the two control files; a refused
    request is printed as the one CRITICAL line.  When every request is
    served nothing is printed and the result has every object of the bucket
    but the two control files. *)
Theorem list_bucket_objects_contract (bucket : Bucket) (w : World) :
  ∃ r w',
    list_bucket_objects bucket w = (Ok r, w')
    ∧ primary w' = primary w ∧ secondary w' = secondary w
    ∧ only_calls is_list w w'
    ∧ (∀ key t, r !! key = Some t →
         key ≠ STATE_KEY ∧ key ≠ LOG_KEY
         ∧ ∃ o, contents bucket w !! key = Some o
                ∧ t = isoformat (LastModified o))
    ∧ (out w' = out w ∨ ∃ code, out w' = out w ++ [MsgCriticalList bucket code])
    ∧ (no_faults w →
       out w' = out w
       ∧ ∀ key, key ≠ STATE_KEY → key ≠ LOG_KEY →
           r !! key = (λ o, isoformat (LastModified o)) <$> contents bucket w !! key).
Proof.
  destruct (list_bucket_objects_spec bucket w)
    as (r & w' & Hrun & Hsub & (HP & HS & _) & _ & Hcalls & Hfull).
  pose proof (list_pages_out bucket 0 (s3.all_pages (contents bucket w)) ∅ w)
    as [Hout1 Hout2].
  unfold list_bucket_objects in Hrun. rewrite Hrun in Hout1, Hout2. simpl in *.
  exists r, w'. split; [exact Hrun|]. repeat (split; [done|]). split; [|split].
  - intros key t Hk.
    destruct (listing_of_Some (contents bucket w) key t) as (_ & H1 & H2 & Ho).
    { by eapply lookup_weaken. }
    done.
  - done.
  - intros Hnf. split; [by apply Hout1|].
    intros key H1 H2. rewrite (Hfull Hnf), listing_of_lookup.
    by rewrite bool_decide_eq_false_2 by (by intros [?|?]).
Qed.

(** ** The head of the run reads only *)

Lemma load_state_quiet w : quiet w (load_state w).2.
Proof.
  destruct (load_state w) as [r w'] eqn:E.
  by apply load_state_frame in E as (? & _).
Qed.

Lemma load_progress_log_quiet w : quiet w (load_progress_log w).2.
Proof.
  destruct (load_progress_log w) as [r w'] eqn:E.
  by apply load_progress_log_frame in E as (? & _).
Qed.

Lemma discover_quiet w r w' : discover w = (r, w') → quiet w w'.
Proof.
  destruct r as [d|e].
  { intros H. by destruct (discover_inv _ _ _ H) as (_ & _ & _ & _ & ? & _). }
  intros H. by apply discover_Raise_cases in H as (? & _).
Qed.

(** X2, the head of [replicate_resilient] (loading the snapshot and the log,
    listing both buckets): whatever the store answers and however it ends, it
    changes no object in either bucket and makes only read and list
    requests. *)
Theorem discover_reads_only (w : World) :
  primary (discover w).2 = primary w
  ∧ secondary (discover w).2 = secondary w
  ∧ only_calls (λ c, is_get c ∨ is_list c) w (discover w).2.
Proof.
  destruct (discover w) as [r w'] eqn:Hd. simpl.
  destruct (discover_quiet _ _ _ Hd) as (HP & HS & _).
  split; [done|]. split; [done|]. by eapply discover_frame.
Qed.

(** ** Loading the snapshot *)

Lemma load_state_from_failed b state w :
  is_Some (fault w (tick w)) ∨ contents b w !! STATE_KEY = None →
  ∃ o, load_state_from b state w
       = (Ok state, record_call (GetObject b STATE_KEY) (Some o) w).
Proof.
  unfold load_state_from, try_except, bind, s3.get_object, ret.
  intros [[code Hc]|Hnone].
  - rewrite Hc. by eexists.
  - destruct (fault w (tick w)) as [code|]; [by eexists|].
    rewrite Hnone. by eexists.
Qed.

Lemma load_state_from_first b w st :
  fault w (tick w) = None →
  Body <$> contents b w !! STATE_KEY = Some (StateDoc st) →
  load_state_from b None w
  = (Ok (Some (Dict st)), record_call (GetObject b STATE_KEY) None w).
Proof.
  intros Hf Hb.
  unfold load_state_from, try_except, bind, s3.get_object, json_loads, ret.
  rewrite Hf. by destruct (contents b w !! STATE_KEY) as [[bd t]|]; simplify_eq/=.
Qed.

Lemma load_state_from_given b old w st :
  fault w (tick w) = None →
  Body <$> contents b w !! STATE_KEY = Some (StateDoc st) →
  load_state_from b (Some (Dict old)) w
  = (Ok (Some (Dict (if negb (state_truthy (Some old))
                        || Py.gt (get_last_updated st) (get_last_updated old)
                     then st else old))),
     record_call (GetObject b STATE_KEY) None w).
Proof.
  intros Hf Hb.
  unfold load_state_from, try_except, bind, s3.get_object, json_loads, doc_get, ret.
  rewrite Hf. destruct (contents b w !! STATE_KEY) as [[bd t]|]; simplify_eq/=.
  destruct (bool_decide (is_Some (files old)) || bool_decide (is_Some (last_updated old)));
    simpl; [|done].
  by destruct (Py.gt (get_last_updated st) (get_last_updated old)).
Qed.

(** X3, [load_state] with a snapshot in each bucket and both reads served:
    the snapshot of the secondary bucket is taken exactly when the one of the
    primary bucket is an empty dict or has a strictly smaller [last_updated]
    (compared as strings, a missing stamp counting as the empty string); on a
    tie the primary's is kept.  The one taken is returned, unless it is an
    empty dict, in which case the run starts from a fresh snapshot. *)
Theorem load_state_newest_wins (w : World) (stp sts : State) :
  state_read_gives PRIMARY_BUCKET w stp →
  state_read_gives SECONDARY_BUCKET w sts →
  let chosen :=
    if negb (state_truthy (Some stp))
       || String.ltb (get_last_updated stp) (get_last_updated sts)
    then sts else stp in
  (load_state w).1 =
    if state_truthy (Some chosen) then Ok (Dict chosen)
    else Ok (Dict {| files := Some ∅;
                     last_updated := Some (isoformat (clock w (S (S (tick w))))) |}).
Proof.
  intros [Hfp Hp] [Hfs Hs] chosen. subst chosen. simpl in Hfp, Hp, Hfs, Hs.
  unfold load_state. unfold bind at 1.
  rewrite (load_state_from_first PRIMARY_BUCKET _ stp Hfp Hp).
  unfold bind at 1.
  rewrite (load_state_from_given SECONDARY_BUCKET _ _ sts); [|done|done].
  unfold Py.gt, doc_truthy.
  destruct (negb (state_truthy (Some stp))
            || String.ltb (get_last_updated stp) (get_last_updated sts)).
  - destruct (state_truthy (Some sts)); reflexivity.
  - destruct (state_truthy (Some stp)); reflexivity.
Qed.

Lemma load_state_newest_wins_witness :
  (load_state Sample.w_two_snapshots).1 = Ok (Dict Sample.st_newer).
Proof.
  rewrite (load_state_newest_wins Sample.w_two_snapshots
             Sample.st_older Sample.st_newer).
  - reflexivity.
  - split; reflexivity.
  - split; reflexivity.
Defined.

(** X4, the redundancy of the snapshot: when the read from one bucket ends in
    a [ClientError] (refused, or no snapshot there) and the other bucket
    serves a snapshot that is not an empty dict, [load_state] returns that
    snapshot unchanged and does not raise. *)
Theorem load_state_survives_one_loss (w : World) (lost kept : Bucket) (st : State) :
  lost ≠ kept →
  state_read_fails lost w →
  state_read_gives kept w st →
  state_truthy (Some st) = true →
  (load_state w).1 = Ok (Dict st).
Proof.
  intros Hne Hlost [Hf Hk] Htruthy.
  unfold load_state. unfold bind at 1.
  unfold state_read_fails, state_read_tick in Hlost.
  destruct lost, kept; try done; simpl in Hlost, Hf, Hk.
  - destruct (load_state_from_failed PRIMARY_BUCKET None w Hlost) as [o ->].
    unfold bind at 1.
    rewrite (load_state_from_first SECONDARY_BUCKET _ st); [|done|done].
    unfold doc_truthy. by rewrite Htruthy.
  - rewrite (load_state_from_first PRIMARY_BUCKET _ st Hf Hk).
    unfold bind at 1.
    destruct (load_state_from_failed SECONDARY_BUCKET (Some (Dict st))
                (record_call (GetObject PRIMARY_BUCKET STATE_KEY) None w))
      as [o ->]; [done|].
    unfold doc_truthy. by rewrite Htruthy.
Qed.

Lemma load_state_survives_one_loss_witness :
  (load_state Sample.w_snapshot_primary_only).1 = Ok (Dict Sample.st_synced).
Proof.
  apply (load_state_survives_one_loss Sample.w_snapshot_primary_only
           SECONDARY_BUCKET PRIMARY_BUCKET).
  - discriminate.
  - right. reflexivity.
  - split; reflexivity.
  - reflexivity.
Defined.

(** X5, the bootstrap: when both reads end in a [ClientError], [load_state]
    does not raise; it prints that no snapshot was found and returns an empty
    [files] map stamped with the clock, leaving both buckets as they were. *)
Theorem load_state_bootstrap (w : World) :
  state_read_fails PRIMARY_BUCKET w →
  state_read_fails SECONDARY_BUCKET w →
  (load_state w).1 =
    Ok (Dict {| files := Some ∅;
                last_updated := Some (isoformat (clock w (S (S (tick w))))) |})
  ∧ out (load_state w).2 = out w ++ [MsgNoStateFound]
  ∧ primary (load_state w).2 = primary w
  ∧ secondary (load_state w).2 = secondary w.
Proof.
  intros Hp Hs.
  destruct (load_state_from_failed PRIMARY_BUCKET None w Hp) as [o H1].
  destruct (load_state_from_failed SECONDARY_BUCKET None
              (record_call (GetObject PRIMARY_BUCKET STATE_KEY) (Some o) w))
    as [o' H2]; [done|].
  assert (load_state w =
            fresh_state
              (record_call (GetObject SECONDARY_BUCKET STATE_KEY) (Some o')
                 (record_call (GetObject PRIMARY_BUCKET STATE_KEY) (Some o) w)))
    as ->.
  { unfold load_state. by rewrite (bind_Ok _ _ _ _ _ H1), (bind_Ok _ _ _ _ _ H2). }
  by repeat split.
Qed.

Lemma load_state_bootstrap_witness :
  (load_state Sample.w_empty).1 =
    Ok (Dict {| files := Some ∅;
                last_updated := Some "2025-01-01T00:00:02+00:00" |}).
Proof.
  destruct (load_state_bootstrap Sample.w_empty) as (-> & _).
  - right. reflexivity.
  - right. reflexivity.
  - reflexivity.
Defined.

(** ** Round trips *)

(** X6, the progress log: a set saved by [save_progress_log] is what
    [load_progress_log] returns afterwards, provided the write to the primary
    bucket and the later read are served; the write to the secondary bucket
    may fail.  Saving never raises. *)
Theorem progress_log_round_trip (C : gset string) (w : World) :
  fault w (tick w) = None →
  fault w (S (S (tick w))) = None →
  (save_progress_log C w).1 = Ok tt
  ∧ (load_progress_log (save_progress_log C w).2).1 = Ok C.
Proof.
  intros Hw Hr.
  destruct (save_progress_log_spec C w) as (w' & Hrun & _ & _ & Hf & Ht & Hp & _).
  rewrite Hrun. simpl. split; [done|].
  rewrite load_progress_log_served by (by rewrite Hf, Ht).
  rewrite Hp, Hw. apply loaded_insert.
Qed.

Lemma progress_log_round_trip_witness :
  (load_progress_log (save_progress_log {[ "a.txt"; "b.txt" ]} Sample.w_empty).2).1
  = Ok {[ "a.txt"; "b.txt" ]}.
Proof.
  destruct (progress_log_round_trip {[ "a.txt"; "b.txt" ]} Sample.w_empty)
    as [_ H]; [reflexivity..|].
  exact H.
Defined.

(** X7, the snapshot: with every call served, what [save_state] wrote is
    what [load_state] returns next: the same [files], and [last_updated] as
    stamped by [save_state]. *)
Theorem snapshot_round_trip (state : State) (w : World) :
  no_faults w →
  (load_state (save_state state w).2).1
  = Ok (Dict {| files := files state;
                last_updated := Some (isoformat (clock w (tick w))) |}).
Proof.
  intros Hnf.
  assert ((save_state state w).1
          = Ok {| files := files state;
                  last_updated := Some (isoformat (clock w (tick w))) |}) as Hstamp.
  { unfold save_state, save_state_to, try_except, bind, now, s3.put_object, print, ret.
    simpl. repeat (rewrite Hnf; simpl). reflexivity. }
  destruct (save_state_served state w Hnf)
    as (w' & t & t1 & t2 & Hrun & Hp & Hs & Hf).
  rewrite Hrun in Hstamp |- *. simpl in Hstamp |- *.
  injection Hstamp as Ht. rewrite Ht in Hp, Hs.
  set (stamped := {| files := files state;
                     last_updated := Some (isoformat (clock w (tick w))) |}) in *.
  assert (no_faults w') as Hnf' by (intros n; by rewrite Hf).
  unfold load_state. unfold bind at 1.
  rewrite (load_state_from_first PRIMARY_BUCKET _ stamped);
    [|apply Hnf'|simpl; by rewrite Hp, lookup_insert_eq].
  unfold bind at 1.
  rewrite (load_state_from_given SECONDARY_BUCKET _ _ stamped);
    [|apply Hnf'|simpl; by rewrite Hs, lookup_insert_eq].
  assert (state_truthy (Some stamped) = true) as Htr.
  { unfold state_truthy. apply orb_true_iff. right.
    apply bool_decide_eq_true_2. by eexists. }
  unfold Py.gt, doc_truthy. rewrite ltb_irrefl, !Htr. cbn [negb orb]. rewrite Htr.
  reflexivity.
Qed.

Lemma snapshot_round_trip_witness :
  (load_state (save_state Sample.st_synced Sample.w_empty).2).1
  = Ok (Dict {| files := files Sample.st_synced;
                last_updated := Some "2025-01-01T00:00:00+00:00" |}).
Proof.
  rewrite (snapshot_round_trip Sample.st_synced Sample.w_empty).
  - reflexivity.
  - intros n. reflexivity.
Defined.

(** X8, [delete_progress_log]: it never raises, whatever the store answers;
    when both requests are served the log is gone from both buckets, every
    other object is untouched, and the next [load_progress_log] returns the
    empty set. *)
Theorem delete_progress_log_clears (w : World) :
  (delete_progress_log w).1 = Ok tt
  ∧ (no_faults w →
     primary (delete_progress_log w).2 = delete LOG_KEY (primary w)
     ∧ secondary (delete_progress_log w).2 = delete LOG_KEY (secondary w)
     ∧ (load_progress_log (delete_progress_log w).2).1 = Ok ∅).
Proof.
  split.
  - by destruct (delete_progress_log_frame w) as (w' & -> & _).
  - intros Hnf.
    assert (fault (delete_progress_log w).2 = fault w) as Hf
      by (by destruct (delete_progress_log_frame w) as (w' & -> & _ & ? & _)).
    destruct (delete_progress_log_served w Hnf) as (w' & Hrun & Hp & Hs).
    rewrite Hrun in Hf |- *. simpl in *. split; [done|]. split; [done|].
    rewrite load_progress_log_served by (rewrite Hf; apply Hnf).
    unfold loaded. by rewrite Hp, lookup_delete_eq.
Qed.

(** ** What can escape *)

(** An exception that leaves [replicate_resilient] comes from its head. *)
Lemma replicate_resilient_Raise w e w' :
  replicate_resilient w = (Raise e, w') → discover w = (Raise e, w').
Proof.
  unfold replicate_resilient. intros H. unfold bind at 1 in H.
  destruct (discover w) as [[d|e'] w1] eqn:Hd; [|by simplify_eq].
  exfalso. unfold bind at 1 in H.
  destruct (sync_loop_frame (d_state d) (d_primary_files d) (d_secondary_files d)
              (Py.sorted (all_keys d)) (d_completed d) w1)
    as (fl & w2 & Hsync & _).
  unfold sync in H. rewrite Hsync in H. destruct fl as [C|].
  - destruct (finish_frame (d_state d) w2) as (w3 & Hfin & _).
    rewrite Hfin in H. discriminate H.
  - unfold ret in H. discriminate H.
Qed.

Lemma main_unfold w :
  main w =
    match replicate_resilient
            (emit (MsgStarting (isoformat (clock w (tick w)))) (advance w)) with
    | (Ok _, w') =>
        (Ok tt, emit (MsgFinished (isoformat (clock w' (tick w')))) (advance w'))
    | (Raise e, w') => (Raise e, w')
    end.
Proof.
  unfold main, bind, now, print.
  by destruct (replicate_resilient _) as [[[]|e] w'].
Qed.

(** ** The calls of a whole run *)

Lemma load_state_from_calls b state w :
  only_calls run_call w (load_state_from b state w).2.
Proof.
  unfold load_state_from, try_except, bind, s3.get_object, json_loads, doc_get, ret, raise.
  repeat case_match; simplify_eq/=; apply only_calls_one; by left.
Qed.

Lemma load_state_calls w : only_calls run_call w (load_state w).2.
Proof.
  unfold load_state.
  pose proof (load_state_from_calls PRIMARY_BUCKET None w) as H1.
  unfold bind at 1.
  destruct (load_state_from PRIMARY_BUCKET None w) as [[s1|e1] w1]; [|done].
  pose proof (load_state_from_calls SECONDARY_BUCKET s1 w1) as H2.
  unfold bind at 1.
  destruct (load_state_from SECONDARY_BUCKET s1 w1) as [[s2|e2] w2]; simpl in *;
    [|by eapply only_calls_trans].
  assert (only_calls run_call w (fresh_state w2).2) as Hfresh.
  { eapply only_calls_trans; [exact H1|]. eapply only_calls_trans; [exact H2|].
    by apply only_calls_same. }
  destruct s2 as [st|]; [|done].
  destruct (doc_truthy (Some st)); [|done].
  exact (only_calls_trans _ _ _ _ H1 H2).
Qed.

Lemma load_progress_log_calls w : only_calls run_call w (load_progress_log w).2.
Proof.
  unfold load_progress_log, try_except, bind, s3.get_object, json_loads,
    print, ret, raise.
  repeat case_match; simplify_eq/=; apply (only_calls_one run_call); by right.
Qed.

Lemma is_list_run_call c : is_list c → run_call c.
Proof. by destruct c. Qed.

Lemma finish_call_run_call c : finish_call c → run_call c.
Proof.
  destruct c as [b k|b k data|b k|src k dst|b n]; simpl; try done.
  - by destruct data.
  - intros ->. apply not_eq_sym, STATE_KEY_ne_LOG_KEY.
Qed.

Lemma loop_call_run_call pf sf c :
  listing_wf pf → listing_wf sf → loop_call pf sf c → run_call c.
Proof.
  intros Hp Hs [Hc|(key & Hact & Hin)].
  - destruct c as [|b k [] | | |]; done.
  - assert (key ≠ STATE_KEY ∧ key ≠ LOG_KEY) as [H1 H2].
    { destruct Hin as [Hin|Hin]; apply elem_of_dom in Hin as [t Ht].
      - by destruct (Hp _ _ Ht) as (_ & ? & ?).
      - by destruct (Hs _ _ Ht) as (_ & ? & ?). }
    destruct c; simpl in *; try done; by subst.
Qed.

Lemma discover_calls w : only_calls run_call w (discover w).2.
Proof.
  unfold discover.
  pose proof (load_state_calls w) as Ha. unfold bind at 1.
  destruct (load_state w) as [[state|e] wa]; [|done]. simpl in Ha.
  pose proof (load_progress_log_calls wa) as Hb. unfold bind at 1.
  destruct (load_progress_log wa) as [[completed|e] wb]; simpl in Hb;
    [|by eapply only_calls_trans].
  unfold bind at 1.
  assert (∃ wc, (if bool_decide (completed ≠ ∅)
                 then print (MsgResuming (size completed)) else ret tt) wb
                = (Ok tt, wc) ∧ calls wc = calls wb) as (wc & -> & Hc).
  { case_bool_decide; by eexists. }
  unfold bind at 1, print at 1. unfold bind at 1.
  destruct (list_bucket_objects_spec PRIMARY_BUCKET (emit MsgDiscovering wc))
    as (pf & wd & -> & _ & _ & _ & Hd & _).
  unfold bind at 1.
  destruct (list_bucket_objects_spec SECONDARY_BUCKET wd)
    as (sf & we & -> & _ & _ & _ & He & _).
  assert (only_calls run_call w we) as Hwe.
  { apply (only_calls_trans _ w wa); [done|].
    apply (only_calls_trans _ wa wb); [done|].
    apply (only_calls_trans _ wb (emit MsgDiscovering wc));
      [by apply only_calls_same|].
    apply (only_calls_trans _ _ wd);
      [eapply only_calls_weaken; [apply is_list_run_call|done]|].
    eapply only_calls_weaken; [apply is_list_run_call|done]. }
  unfold bind at 1. destruct state as [st|keys]; [|done].
  unfold doc_get, bind, print, ret. simpl.
  apply (only_calls_trans _ w wa); [done|].
  apply (only_calls_trans _ wa wb); [done|].
  apply (only_calls_trans _ wb (emit MsgDiscovering wc)); [by apply only_calls_same|].
  apply (only_calls_trans _ _ wd);
    [eapply only_calls_weaken; [apply is_list_run_call|done]|].
  apply (only_calls_trans _ _ we);
    [eapply only_calls_weaken; [apply is_list_run_call|done]|].
  by apply only_calls_same.
Qed.

(** X10, the store calls of a run, whatever fails: [replicate_resilient]
    reads only the two control files, writes only a snapshot under the
    snapshot's key and a log under the log's key, never writes under any other
    key, never deletes or copies the snapshot, never copies the log, and
    copies or deletes otherwise only keys that are not control files. *)
Theorem run_respects_control_files (w : World) :
  only_calls run_call w (replicate_resilient w).2.
Proof.
  unfold replicate_resilient.
  pose proof (discover_calls w) as Hd. unfold bind at 1.
  destruct (discover w) as [[d|e] w1] eqn:Ed; [|done]. simpl in Hd.
  destruct (discover_inv _ _ _ Ed) as (_ & _ & _ & _ & _ & _ & Hp & Hs & _).
  apply listing_wf_subseteq in Hp, Hs.
  unfold bind at 1. unfold sync.
  destruct (sync_loop_frame (d_state d) (d_primary_files d) (d_secondary_files d)
              (Py.sorted (all_keys d)) (d_completed d) w1)
    as (fl & w2 & -> & _ & _ & Hloop & _).
  assert (only_calls run_call w w2) as H2.
  { eapply only_calls_trans; [exact Hd|].
    eapply only_calls_weaken; [|exact Hloop].
    intros c. by apply loop_call_run_call. }
  destruct fl as [C|]; [|done].
  destruct (finish_frame (d_state d) w2) as (w3 & -> & Hfin). simpl.
  eapply only_calls_trans; [exact H2|].
  eapply only_calls_weaken; [apply finish_call_run_call|done].
Qed.

(** ** Keys that are in step *)

(** X11, no-op stability of the loop: when the two listings have the same
    keys, the loop makes no store call, prints nothing and completes with the
    completed set it started from, whatever the snapshot says about the
    keys. *)
Theorem in_step_listings_need_no_action (w w1 : World) (d : Discovery) :
  discover w = (Ok d, w1) →
  dom (d_primary_files d) = dom (d_secondary_files d) →
  ∀ v, sync d v = (Ok (Continue (d_completed d)), v).
Proof.
  intros Hd Hdom v.
  destruct (discover_inv _ _ _ Hd) as (_ & _ & _ & _ & _ & _ & Hp & Hs & _).
  apply listing_wf_subseteq in Hp, Hs.
  unfold sync. apply sync_loop_noop. intros k _. right.
  rewrite planned_action_spec_action by done. rewrite Hdom.
  unfold spec_action. by destruct (bool_decide (k ∈ dom (d_secondary_files d))).
Qed.

Lemma in_step_listings_need_no_action_witness :
  ∃ d w1, discover Sample.w_in_step = (Ok d, w1)
    ∧ sync d w1 = (Ok (Continue (d_completed d)), w1).
Proof.
  destruct (discover Sample.w_in_step) as [r w1] eqn:Hd.
  assert (∃ d, r = Ok d) as [d ->].
  { apply (f_equal fst) in Hd. vm_compute in Hd. subst r. eexists. reflexivity. }
  pose proof Hd as Hd'. vm_compute in Hd'. injection Hd' as Hd1 Hw1.
  exists d, w1. split; [reflexivity|].
  apply (in_step_listings_need_no_action Sample.w_in_step w1 d Hd).
  rewrite <- Hd1. vm_compute. reflexivity.
Defined.

(** ** What a run leaves alone *)

Lemma perform_touches a key w b j :
  j ≠ key → contents b (perform a key w).2 !! j = contents b w !! j.
Proof.
  intros Hj.
  destruct a; unfold perform, bind, print, s3.delete_object, s3.copy, ret; simpl;
    repeat case_match; simplify_eq/=; destruct b; simpl;
    rewrite ?lookup_delete_ne, ?lookup_insert_ne by done; done.
Qed.

Lemma save_progress_log_touches C w b j :
  j ≠ LOG_KEY → contents b (save_progress_log C w).2 !! j = contents b w !! j.
Proof.
  intros Hj.
  destruct (save_progress_log_spec C w) as (w' & -> & _ & _ & _ & _ & Hp & Hs).
  destruct (fault w (tick w)), (fault w (S (tick w))); destruct b; simpl;
    rewrite ?Hp, ?Hs, ?lookup_insert_ne by done; done.
Qed.

(** A turn of the loop changes nothing but the key it acts on and the log. *)
Lemma process_key_touches st pf sf key C w b j :
  j ≠ key ∨ key ∈ C ∨ planned_action st pf sf key = NoAction →
  j ≠ LOG_KEY →
  contents b (process_key st pf sf key C w).2 !! j = contents b w !! j.
Proof.
  intros Hcase Hj.
  destruct (decide (key ∈ C ∨ planned_action st pf sf key = NoAction)) as [Hskip|Hact].
  { by rewrite process_key_skip. }
  assert (j ≠ key) as Hne by (destruct Hcase as [?|[?|?]]; [done|..]; exfalso; auto).
  unfold process_key.
  rewrite bool_decide_eq_false_2 by (intros ?; apply Hact; by left).
  pose proof (perform_touches (planned_action st pf sf key) key w b j Hne) as Hp.
  unfold try_except, bind at 1.
  destruct (perform (planned_action st pf sf key) key w) as [[[]|[code|x]] w1];
    simpl in Hp.
  - unfold bind, ret.
    pose proof (save_progress_log_touches (C ∪ {[key]}) w1 b j Hj) as Hs.
    destruct (save_progress_log (C ∪ {[key]}) w1) as [[[]|[c|x]] w2];
      simpl in *; try (destruct b; simpl in *); congruence.
  - done.
  - unfold bind, print, ret. simpl. by destruct b.
  - done.
Qed.

Lemma sync_loop_touches st pf sf keys C w b j :
  j ∉ keys ∨ j ∈ C ∨ planned_action st pf sf j = NoAction →
  j ≠ LOG_KEY →
  contents b (sync_loop st pf sf keys C w).2 !! j = contents b w !! j.
Proof.
  revert C w. induction keys as [|key keys IH]; intros C w Hcase Hj; [done|].
  simpl. unfold bind.
  pose proof (process_key_touches st pf sf key C w b j) as Hstep.
  destruct (process_key_frame st pf sf key C w) as (fl & w1 & Hrun & _ & _ & _ & HC).
  rewrite Hrun in Hstep |- *. simpl in Hstep.
  assert (contents b w1 !! j = contents b w !! j) as Hw1.
  { apply Hstep; [|done].
    destruct Hcase as [Hn|[Hin|Hno]].
    - left. intros ->. apply Hn. by left.
    - destruct (decide (j = key)) as [->|?]; [right; by left|by left].
    - destruct (decide (j = key)) as [->|?]; [right; by right|by left]. }
  destruct fl as [C1|]; [|done].
  rewrite IH; [done| |done].
  destruct Hcase as [Hn|[Hin|Hno]].
  - left. intros ?. apply Hn. by right.
  - right. left. destruct (HC C1 eq_refl) as [Hsub _]. by apply Hsub.
  - right. by right.
Qed.

Lemma save_state_touches state w b j :
  j ≠ STATE_KEY → contents b (save_state state w).2 !! j = contents b w !! j.
Proof.
  intros Hj.
  unfold save_state, save_state_to, try_except, bind, now, s3.put_object, print, ret.
  simpl. repeat case_match; simplify_eq/=; destruct b; simpl;
    rewrite ?lookup_insert_ne by done; done.
Qed.

Lemma delete_progress_log_touches w b j :
  j ≠ LOG_KEY → contents b (delete_progress_log w).2 !! j = contents b w !! j.
Proof.
  intros Hj.
  unfold delete_progress_log, delete_progress_log_from, try_except, bind,
    s3.delete_object, print, ret.
  simpl. repeat case_match; simplify_eq/=; destruct b; simpl;
    rewrite ?lookup_delete_ne by done; done.
Qed.

(** The tail of the run changes nothing but the two control files. *)
Lemma finish_touches state w b j :
  j ≠ STATE_KEY → j ≠ LOG_KEY →
  contents b (finish state w).2 !! j = contents b w !! j.
Proof.
  intros H1 H2. unfold finish. unfold bind at 1, print at 1. unfold bind at 1.
  destruct (list_bucket_objects_spec PRIMARY_BUCKET (emit MsgSyncComplete w))
    as (pf & w1 & -> & _ & Hq1 & _).
  unfold bind at 1.
  destruct (list_bucket_objects_spec SECONDARY_BUCKET w1)
    as (sf & w2 & -> & _ & Hq2 & _).
  unfold bind at 1.
  destruct (rebuild_files_state pf sf w2) as [r3 w3] eqn:E3.
  pose proof E3 as E3'. unfold rebuild_files_state in E3'.
  apply rebuild_loop_quiet in E3' as [Hq3 _].
  destruct (rebuild_loop_spec pf sf (elements (dom pf ∪ dom sf)) ∅ w2)
    as (files & w3' & E3' & _).
  unfold rebuild_files_state in E3. rewrite E3' in E3. simplify_eq.
  unfold bind at 1.
  pose proof (save_state_touches
                {| files := Some files; last_updated := last_updated state |}
                w3 b j H1) as H4.
  destruct (save_state_frame
              {| files := Some files; last_updated := last_updated state |} w3)
    as (st' & w4 & E4 & _).
  rewrite E4 in H4 |- *. simpl in H4.
  unfold bind at 1, print at 1.
  pose proof (delete_progress_log_touches (emit MsgCleaning w4) b j H2) as H5.
  rewrite H5.
  rewrite (quiet_contents _ _ b (emit_quiet MsgCleaning w4)), H4.
  rewrite (quiet_contents _ _ b Hq3), (quiet_contents _ _ b Hq2).
  rewrite (quiet_contents _ _ b Hq1). by destruct b.
Qed.

(** X12, whatever fails during the run: an object under a key that is not a
    control file is left exactly as it was, body and time stamp, when its key
    is in the progress log that the run loaded, or when the two listings agree
    on the key (both have it, or neither has). *)
Theorem run_leaves_settled_keys_alone (w w1 : World) (d : Discovery)
    (key : string) (b : Bucket) :
  discover w = (Ok d, w1) →
  key ≠ STATE_KEY → key ≠ LOG_KEY →
  key ∈ d_completed d
  ∨ (key ∈ dom (d_primary_files d) ↔ key ∈ dom (d_secondary_files d)) →
  contents b (replicate_resilient w).2 !! key = contents b w !! key.
Proof.
  intros Hd H1 H2 Hcase.
  destruct (discover_inv _ _ _ Hd) as (_ & _ & _ & _ & Hq & _ & Hp & Hs & _).
  apply listing_wf_subseteq in Hp, Hs.
  assert (key ∈ d_completed d
          ∨ planned_action (d_state d) (d_primary_files d) (d_secondary_files d) key
            = NoAction) as Hcase'.
  { destruct Hcase as [?|Hiff]; [by left|right].
    rewrite planned_action_spec_action by done. unfold spec_action.
    destruct (bool_decide (key ∈ dom (d_primary_files d))) eqn:E1;
      destruct (bool_decide (key ∈ dom (d_secondary_files d))) eqn:E2; try done.
    - apply bool_decide_eq_true in E1. apply bool_decide_eq_false in E2.
      exfalso. apply E2. by apply Hiff.
    - apply bool_decide_eq_false in E1. apply bool_decide_eq_true in E2.
      exfalso. apply E1. by apply Hiff. }
  pose proof (sync_loop_touches (d_state d) (d_primary_files d) (d_secondary_files d)
                (Py.sorted (all_keys d)) (d_completed d) w1 b key) as Hloop.
  unfold replicate_resilient. rewrite (bind_Ok _ _ _ _ _ Hd).
  unfold bind, sync.
  destruct (sync_loop (d_state d) (d_primary_files d) (d_secondary_files d)
              (Py.sorted (all_keys d)) (d_completed d) w1) as [[fl|e] w2];
    simpl in Hloop.
  - assert (contents b w2 !! key = contents b w !! key) as Hw2.
    { rewrite Hloop; [|by right|done]. by rewrite (quiet_contents _ _ b Hq). }
    destruct fl as [C|]; [|done].
    by rewrite finish_touches.
  - simpl. rewrite Hloop; [|by right|done]. by rewrite (quiet_contents _ _ b Hq).
Qed.

Lemma run_leaves_settled_keys_alone_witness :
  primary (replicate_resilient Sample.w_in_step).2 !! "x.txt"
  = primary Sample.w_in_step !! "x.txt".
Proof.
  destruct (discover Sample.w_in_step) as [r w1] eqn:Hd.
  assert (∃ d, r = Ok d) as [d ->].
  { apply (f_equal fst) in Hd. vm_compute in Hd. subst r. eexists. reflexivity. }
  pose proof Hd as Hd'. vm_compute in Hd'. injection Hd' as Hd1 Hw1.
  apply (run_leaves_settled_keys_alone Sample.w_in_step w1 d "x.txt"
           PRIMARY_BUCKET Hd).
  - discriminate.
  - discriminate.
  - right. rewrite <- Hd1. vm_compute. tauto.
Defined.

(** ** What a served run does to each key *)

Lemma apply_action_after a key t P S :
  match apply_action a key t P S with
  | Some (p', s') => after_action a (P !! key) (S !! key) (p' !! key) (s' !! key)
  | None => True
  end.
Proof.
  destruct a; simpl.
  - by rewrite lookup_delete_eq.
  - destruct (P !! key) as [o|] eqn:E; [|done]. simpl.
    by rewrite lookup_insert_eq.
  - by rewrite lookup_delete_eq.
  - destruct (S !! key) as [o|] eqn:E; [|done]. simpl.
    by rewrite lookup_insert_eq.
  - done.
Qed.

Lemma served_turn_after st P0 S0 key C w :
  no_faults w →
  (key ≠ LOG_KEY → primary w !! key = P0 !! key ∧ secondary w !! key = S0 !! key) →
  loaded (primary w) = Ok C →
  key ∉ C → key ≠ LOG_KEY →
  after_action (planned_action st (listing_of P0) (listing_of S0) key)
    (P0 !! key) (S0 !! key)
    (primary (process_key st (listing_of P0) (listing_of S0) key C w).2 !! key)
    (secondary (process_key st (listing_of P0) (listing_of S0) key C w).2 !! key).
Proof.
  intros Hnf Hkey Hlog HkC Hne.
  destruct (Hkey Hne) as [HP HS].
  destruct (served_turn st P0 S0 key C w Hnf Hkey Hlog)
    as (C' & w' & Hrun & _).
  destruct (decide (planned_action st (listing_of P0) (listing_of S0) key = NoAction))
    as [Hno|Hact].
  { rewrite process_key_skip by (by right). rewrite Hno. simpl. by rewrite HP, HS. }
  pose proof (process_key_served st (listing_of P0) (listing_of S0) key C w
                Hnf HkC Hact) as Hserved.
  pose proof (apply_action_after
                (planned_action st (listing_of P0) (listing_of S0) key) key
                (clock w (tick w)) (primary w) (secondary w)) as Hafter.
  destruct (apply_action _ key _ _ _) as [[p' s']|].
  - destruct Hserved as (w'' & t1 & t2 & Hrun' & Hp & Hs & _).
    rewrite Hrun'. simpl. rewrite Hp, Hs, !lookup_insert_ne by done.
    by rewrite HP, HS in Hafter.
  - destruct Hserved as (w'' & Hrun' & _). rewrite Hrun in Hrun'. discriminate Hrun'.
Qed.

Lemma served_loop_after st P0 S0 keys C w k :
  NoDup keys →
  no_faults w →
  (∀ j, j ∈ keys → j ≠ LOG_KEY →
     primary w !! j = P0 !! j ∧ secondary w !! j = S0 !! j) →
  loaded (primary w) = Ok C →
  k ∈ keys → k ∉ C → k ≠ LOG_KEY →
  after_action (planned_action st (listing_of P0) (listing_of S0) k)
    (P0 !! k) (S0 !! k)
    (primary (sync_loop st (listing_of P0) (listing_of S0) keys C w).2 !! k)
    (secondary (sync_loop st (listing_of P0) (listing_of S0) keys C w).2 !! k).
Proof.
  revert C w. induction keys as [|key keys IH];
    intros C w Hnd Hnf Hkeys Hlog Hk HkC Hne.
  { by apply elem_of_nil in Hk. }
  apply NoDup_cons in Hnd as [Hfresh Hnd].
  assert (key ≠ LOG_KEY →
          primary w !! key = P0 !! key ∧ secondary w !! key = S0 !! key) as Hkey
    by (intros ?; apply Hkeys; [by left|done]).
  pose proof (served_turn_after st P0 S0 key C w Hnf Hkey Hlog) as Hturn.
  destruct (served_turn st P0 S0 key C w Hnf Hkey Hlog)
    as (C1 & w1 & Hrun & Hnf1 & _ & Hlog1 & Hcase).
  simpl. unfold bind. rewrite Hrun in Hturn |- *. simpl in Hturn.
  assert (∀ j, j ∈ keys → j ≠ LOG_KEY →
            primary w1 !! j = P0 !! j ∧ secondary w1 !! j = S0 !! j) as Hkeys1.
  { intros j Hj Hjne.
    destruct Hcase as [(_ & -> & _)|(_ & _ & _ & _ & Hother & _)].
    - apply Hkeys; [by right|done].
    - assert (j ≠ key) as Hjk by (intros ->; done).
      destruct (Hother j Hjk Hjne) as [-> ->]. apply Hkeys; [by right|done]. }
  destruct (served_loop st P0 S0 keys C1 w1 Hnd Hnf1 Hkeys1 Hlog1)
    as (C' & w' & Hloop & _ & _ & _ & _ & Hnew & _ & Hsame).
  apply elem_of_cons in Hk as [->|Hk].
  - rewrite Hloop. simpl.
    destruct (Hsame key) as [-> ->]; [|done|by apply Hturn].
    intros Hin. destruct (Hnew key Hin) as [?|(? & _)]; done.
  - apply IH; try done.
    destruct Hcase as [(-> & _)|(_ & -> & _)]; [done|].
    intros Hin. apply elem_of_union in Hin as [?|Hin]; [done|].
    apply elem_of_singleton in Hin as ->. done.
Qed.

Lemma listing_of_not_in_dom m key :
  key ≠ STATE_KEY → key ≠ LOG_KEY → key ∉ dom (listing_of m) → m !! key = None.
Proof.
  intros H1 H2 Hk. destruct (m !! key) as [o|] eqn:E; [|done].
  exfalso. apply Hk. apply elem_of_listing_dom; [done..|]. by eexists.
Qed.

(** A served run from start to end, seen from one key. *)
Lemma served_run_after w0 d w1 key :
  no_faults w0 →
  discover w0 = (Ok d, w1) →
  key ∉ d_completed d → key ≠ STATE_KEY → key ≠ LOG_KEY →
  ∃ w' C w2,
    replicate_resilient w0 = (Ok tt, w')
    ∧ sync d w1 = (Ok (Continue C), w2)
    ∧ finish (d_state d) w2 = (Ok tt, w')
    ∧ no_faults w2
    ∧ after_action
        (planned_action (d_state d) (d_primary_files d) (d_secondary_files d) key)
        (primary w0 !! key) (secondary w0 !! key)
        (primary w' !! key) (secondary w' !! key).
Proof.
  intros Hnf Hd HkC H1 H2.
  destruct (discover_served _ _ _ Hnf Hd) as (Hq & _ & Hlog & Hpf & Hsf).
  assert (no_faults w1) as Hnf1 by (by eapply no_faults_quiet).
  destruct Hq as (HP & HS & _).
  pose proof (NoDup_sorted (all_keys d)) as Hnd.
  assert (∀ j, j ∈ Py.sorted (all_keys d) → j ≠ LOG_KEY →
            primary w1 !! j = primary w0 !! j
            ∧ secondary w1 !! j = secondary w0 !! j) as Hkeys
    by (intros j _ _; by rewrite HP, HS).
  assert (loaded (primary w1) = Ok (d_completed d)) as Hlog1 by (by rewrite HP).
  pose proof (served_loop_after (d_state d) (primary w0) (secondary w0)
                (Py.sorted (all_keys d)) (d_completed d) w1 key
                Hnd Hnf1 Hkeys Hlog1) as Hafter.
  destruct (served_loop (d_state d) (primary w0) (secondary w0)
              (Py.sorted (all_keys d)) (d_completed d) w1 Hnd Hnf1 Hkeys Hlog1)
    as (C & w2 & Hloop & Hnf2 & _ & _ & _ & Hnew & _ & Hsame).
  rewrite Hloop in Hafter. simpl in Hafter.
  destruct (finish_served (d_state d) w2 Hnf2)
    as (w' & stN & t1 & t2 & Hfin & Hpw & Hsw & _).
  assert (sync d w1 = (Ok (Continue C), w2)) as Hsync
    by (unfold sync; by rewrite Hpf, Hsf).
  exists w', C, w2. split.
  { unfold replicate_resilient.
    by rewrite (bind_Ok _ _ _ _ _ Hd), (bind_Ok _ _ _ _ _ Hsync). }
  split; [done|]. split; [done|]. split; [done|].
  rewrite Hpw, Hsw, !lookup_delete_ne, !lookup_insert_ne by done.
  rewrite Hpf, Hsf.
  destruct (decide (key ∈ Py.sorted (all_keys d))) as [Hin|Hout].
  - by apply Hafter.
  - destruct (Hsame key) as [-> ->]; [|done|].
    { intros HinC. destruct (Hnew key HinC) as [?|(? & _)]; done. }
    rewrite HP, HS.
    assert ((key ∉ dom (listing_of (primary w0)))
            ∧ (key ∉ dom (listing_of (secondary w0)))) as [Hnp Hns].
    { rewrite elem_of_sorted in Hout. unfold all_keys in Hout.
      rewrite Hpf, Hsf, !elem_of_union in Hout.
      split; intros ?; apply Hout; auto. }
    unfold planned_action.
    rewrite (not_elem_of_dom_1 _ _ Hnp), (not_elem_of_dom_1 _ _ Hns). done.
Qed.

Lemma listing_dom_decide m key :
  key ≠ STATE_KEY → key ≠ LOG_KEY →
  bool_decide (key ∈ dom (listing_of m))
  = match m !! key with Some _ => true | None => false end.
Proof.
  intros H1 H2. destruct (m !! key) as [o|] eqn:E.
  - apply bool_decide_eq_true_2, elem_of_listing_dom; [done..|]. by eexists.
  - apply bool_decide_eq_false_2. intros Hin.
    apply elem_of_dom in Hin as [t Ht].
    destruct (listing_of_Some _ _ _ Ht) as (_ & _ & _ & o & Ho & _). congruence.
Qed.

Lemma listing_wf_listing_of m : listing_wf (listing_of m).
Proof. by apply (listing_wf_subseteq m). Qed.

(** X13, a served run seen from one key that is neither a control file nor
    in the loaded progress log.  The run ends normally, and: a key that only
    the primary bucket has is gone from both buckets if the snapshot had seen
    it in the secondary, and otherwise the secondary bucket now has it with
    the same body, the primary's object untouched; the mirror image for a key
    that only the secondary bucket has; a key that both buckets have, or
    neither, is exactly as before. *)
Theorem served_run_propagates (w0 w1 : World) (d : Discovery) (key : string) :
  no_faults w0 →
  discover w0 = (Ok d, w1) →
  key ∉ d_completed d → key ≠ STATE_KEY → key ≠ LOG_KEY →
  (replicate_resilient w0).1 = Ok tt
  ∧ match primary w0 !! key, secondary w0 !! key with
    | Some o, None =>
        if was_seen "secondary" (get_files (d_state d) !! key)
        then primary (replicate_resilient w0).2 !! key = None
             ∧ secondary (replicate_resilient w0).2 !! key = None
        else primary (replicate_resilient w0).2 !! key = Some o
             ∧ Body <$> secondary (replicate_resilient w0).2 !! key = Some (Body o)
    | None, Some o =>
        if was_seen "primary" (get_files (d_state d) !! key)
        then primary (replicate_resilient w0).2 !! key = None
             ∧ secondary (replicate_resilient w0).2 !! key = None
        else Body <$> primary (replicate_resilient w0).2 !! key = Some (Body o)
             ∧ secondary (replicate_resilient w0).2 !! key = Some o
    | Some o, Some o' =>
        primary (replicate_resilient w0).2 !! key = Some o
        ∧ secondary (replicate_resilient w0).2 !! key = Some o'
    | None, None =>
        primary (replicate_resilient w0).2 !! key = None
        ∧ secondary (replicate_resilient w0).2 !! key = None
    end.
Proof.
  intros Hnf Hd HkC H1 H2.
  destruct (served_run_after w0 d w1 key Hnf Hd HkC H1 H2)
    as (w' & C & w2 & Hrun & _ & _ & _ & Hafter).
  destruct (discover_served _ _ _ Hnf Hd) as (_ & _ & _ & Hpf & Hsf).
  rewrite Hrun. simpl. split; [done|].
  rewrite Hpf, Hsf in Hafter.
  rewrite planned_action_spec_action in Hafter by apply listing_wf_listing_of.
  rewrite !listing_dom_decide in Hafter by done.
  destruct (primary w0 !! key) as [o|]; destruct (secondary w0 !! key) as [o'|];
    simpl in Hafter; try done.
  - by destruct (was_seen "secondary" (get_files (d_state d) !! key)).
  - by destruct (was_seen "primary" (get_files (d_state d) !! key)).
Qed.

Lemma served_run_propagates_witness :
  Body <$> secondary (replicate_resilient Sample.w_new_file).2 !! "x.txt"
  = Some (Bytes "X").
Proof.
  destruct (discover Sample.w_new_file) as [r w1] eqn:Hd.
  assert (∃ d, r = Ok d) as [d ->].
  { apply (f_equal fst) in Hd. vm_compute in Hd. subst r. eexists. reflexivity. }
  pose proof Hd as Hd'. vm_compute in Hd'. injection Hd' as Hd1 Hw1.
  destruct (served_run_propagates Sample.w_new_file w1 d "x.txt") as [_ H].
  - intros n. reflexivity.
  - exact Hd.
  - rewrite <- Hd1. apply not_elem_of_empty.
  - discriminate.
  - discriminate.
  - change (primary Sample.w_new_file !! "x.txt") with (Some (Sample.file "X")) in H.
    change (secondary Sample.w_new_file !! "x.txt") with (@None Obj) in H.
    cbv beta iota in H. rewrite <- Hd1 in H.
    change (was_seen "secondary" _) with false in H.
    cbv beta iota in H. destruct H as [_ H]. exact H.
Defined.

(** How a served run ends: its loop runs to the end, and its tail stores the
    rebuilt snapshot in both buckets and removes the log. *)
Lemma served_run_ends w0 d w1 :
  no_faults w0 →
  discover w0 = (Ok d, w1) →
  ∃ w' C w2 stN t1 t2,
    replicate_resilient w0 = (Ok tt, w')
    ∧ sync d w1 = (Ok (Continue C), w2)
    ∧ no_faults w2
    ∧ primary w' =
        delete LOG_KEY
          (<[STATE_KEY := {| Body := StateDoc stN; LastModified := t1 |}]> (primary w2))
    ∧ secondary w' =
        delete LOG_KEY
          (<[STATE_KEY := {| Body := StateDoc stN; LastModified := t2 |}]> (secondary w2))
    ∧ (∀ k, seen_map stN !! k =
        if bool_decide (k ∈ dom (listing_of (primary w2))
                          ∪ dom (listing_of (secondary w2)))
        then Some ((if bool_decide (k ∈ dom (listing_of (primary w2)))
                    then ["primary"] else [])
                   ++ (if bool_decide (k ∈ dom (listing_of (secondary w2)))
                       then ["secondary"] else []))
        else None)
    ∧ state_truthy (Some stN) = true
    ∧ no_faults w'.
Proof.
  intros Hnf Hd.
  destruct (discover_served _ _ _ Hnf Hd) as (Hq & _ & Hlog & Hpf & Hsf).
  assert (no_faults w1) as Hnf1 by (by eapply no_faults_quiet).
  destruct Hq as (HP & HS & _).
  destruct (served_loop (d_state d) (primary w0) (secondary w0)
              (Py.sorted (all_keys d)) (d_completed d) w1)
    as (C & w2 & Hloop & Hnf2 & _); [apply NoDup_sorted|done| |by rewrite HP|].
  { intros j _ _. by rewrite HP, HS. }
  destruct (finish_served_snapshot (d_state d) w2 Hnf2)
    as (w' & stN & t1 & t2 & Hfin & Hpw & Hsw & Hseen & Htruthy & Hfault).
  assert (sync d w1 = (Ok (Continue C), w2)) as Hsync
    by (unfold sync; by rewrite Hpf, Hsf).
  exists w', C, w2, stN, t1, t2. split.
  { unfold replicate_resilient.
    by rewrite (bind_Ok _ _ _ _ _ Hd), (bind_Ok _ _ _ _ _ Hsync). }
  repeat (split; [done|]). intros n. by rewrite Hfault.
Qed.

Lemma listing_of_finish m o :
  listing_of (delete LOG_KEY (<[STATE_KEY := o]> m)) = listing_of m.
Proof.
  apply map_eq. intros k. rewrite !listing_of_lookup.
  case_bool_decide as Hk; [done|].
  rewrite lookup_delete_ne, lookup_insert_ne; [done|..];
    intros <-; apply Hk; auto.
Qed.

Lemma snapshot_in_finish b w m stN t :
  contents b w = delete LOG_KEY (<[STATE_KEY := {| Body := StateDoc stN;
                                                   LastModified := t |}]> m) →
  snapshot_in b w = Some stN ∧ log_in b w = None.
Proof.
  intros H. unfold snapshot_in, log_in. rewrite H, lookup_delete_eq.
  rewrite lookup_delete_ne by (apply not_eq_sym, STATE_KEY_ne_LOG_KEY).
  by rewrite lookup_insert_eq.
Qed.

(** X14, the snapshot a served run leaves: both buckets hold the same
    snapshot and no progress log; the snapshot has a record for exactly the
    keys that the buckets hold at the end (control files apart), and each
    record lists in [last_seen_in] exactly the buckets that hold the key.
    Nothing of the snapshot the run started from survives. *)
Theorem served_run_snapshot (w0 w1 : World) (d : Discovery) :
  no_faults w0 →
  discover w0 = (Ok d, w1) →
  ∃ stN,
    snapshot_in PRIMARY_BUCKET (replicate_resilient w0).2 = Some stN
    ∧ snapshot_in SECONDARY_BUCKET (replicate_resilient w0).2 = Some stN
    ∧ log_in PRIMARY_BUCKET (replicate_resilient w0).2 = None
    ∧ log_in SECONDARY_BUCKET (replicate_resilient w0).2 = None
    ∧ ∀ k, seen_map stN !! k =
        if bool_decide
             (k ∈ dom (listing_of (primary (replicate_resilient w0).2))
                ∪ dom (listing_of (secondary (replicate_resilient w0).2)))
        then Some ((if bool_decide
                         (k ∈ dom (listing_of (primary (replicate_resilient w0).2)))
                    then ["primary"] else [])
                   ++ (if bool_decide
                            (k ∈ dom (listing_of (secondary (replicate_resilient w0).2)))
                       then ["secondary"] else []))
        else None.
Proof.
  intros Hnf Hd.
  destruct (served_run_ends w0 d w1 Hnf Hd)
    as (w' & C & w2 & stN & t1 & t2 & Hrun & _ & _ & Hpw & Hsw & Hseen & _).
  rewrite Hrun. simpl. exists stN.
  destruct (snapshot_in_finish PRIMARY_BUCKET w' _ _ _ Hpw) as [-> ->].
  destruct (snapshot_in_finish SECONDARY_BUCKET w' _ _ _ Hsw) as [-> ->].
  repeat (split; [done|]).
  intros k. rewrite Hpw, Hsw, !listing_of_finish. apply Hseen.
Qed.

Lemma served_run_snapshot_witness :
  ∃ stN,
    snapshot_in PRIMARY_BUCKET (replicate_resilient Sample.w_new_file).2 = Some stN
    ∧ seen_map stN !! "x.txt" = Some ["primary"; "secondary"].
Proof.
  destruct (discover Sample.w_new_file) as [r w1] eqn:Hd.
  assert (∃ d, r = Ok d) as [d ->].
  { apply (f_equal fst) in Hd. vm_compute in Hd. subst r. eexists. reflexivity. }
  destruct (served_run_snapshot Sample.w_new_file w1 d) as (stN & Hs & _).
  - intros n. reflexivity.
  - exact Hd.
  - exists stN. split; [exact Hs|].
    vm_compute in Hs. injection Hs as <-. vm_compute. reflexivity.
Defined.


(** ** After a clean run *)

(** The outcome of the planned action for one key: the key ends in both
    buckets or in neither, and with the same body unless both buckets had it
    from the start. *)
Lemma after_planned_agree record (p s p' s' : option Obj) :
  after_action
    (spec_action (match p with Some _ => true | None => false end)
                 (match s with Some _ => true | None => false end) record)
    p s p' s' →
  (is_Some p' ↔ is_Some s')
  ∧ (¬ (is_Some p ∧ is_Some s) → Body <$> p' = Body <$> s').
Proof.
  unfold spec_action.
  destruct p as [o|], s as [o'|]; simpl.
  - intros [-> ->]. split; [by split; eauto|]. intros []. eauto.
  - destruct (was_seen "secondary" record); simpl; intros [-> H].
    + subst s'. split; [done|done].
    + split; [|done]. destruct s'; [by split; eauto|done].
  - destruct (was_seen "primary" record); simpl; intros [H ->].
    + subst p'. split; [done|done].
    + split; [|done]. destruct p'; [by split; eauto|done].
  - intros [-> ->]. done.
Qed.

Lemma served_run_agree w0 d w1 key :
  no_faults w0 →
  discover w0 = (Ok d, w1) →
  key ∉ d_completed d → key ≠ STATE_KEY → key ≠ LOG_KEY →
  (is_Some (primary (replicate_resilient w0).2 !! key)
   ↔ is_Some (secondary (replicate_resilient w0).2 !! key))
  ∧ (¬ (is_Some (primary w0 !! key) ∧ is_Some (secondary w0 !! key)) →
     Body <$> primary (replicate_resilient w0).2 !! key
     = Body <$> secondary (replicate_resilient w0).2 !! key).
Proof.
  intros Hnf Hd HkC H1 H2.
  destruct (served_run_after w0 d w1 key Hnf Hd HkC H1 H2)
    as (w' & C & w2 & Hrun & _ & _ & _ & Hafter).
  destruct (discover_served _ _ _ Hnf Hd) as (_ & _ & _ & Hpf & Hsf).
  rewrite Hrun. simpl.
  rewrite Hpf, Hsf in Hafter.
  rewrite planned_action_spec_action in Hafter by apply listing_wf_listing_of.
  rewrite !listing_dom_decide in Hafter by done.
  by apply after_planned_agree in Hafter.
Qed.

Lemma listing_dom_agree m m' :
  (∀ key, key ≠ STATE_KEY → key ≠ LOG_KEY → is_Some (m !! key) ↔ is_Some (m' !! key)) →
  dom (listing_of m) = dom (listing_of m').
Proof.
  intros H. apply set_eq. intros k. rewrite !elem_of_dom, !listing_of_lookup.
  case_bool_decide as Hk; [done|].
  rewrite !fmap_is_Some. apply H; intros ->; apply Hk; auto.
Qed.

(** X15, a served run that starts without a progress log brings the buckets
    in step: at its end both hold the same keys (control files apart), and
    under every key that not both of them had at the start they hold the same
    body.  A key that both had at the start keeps its two objects, equal or
    not: the run does not compare them. *)
Theorem served_run_converges (w0 w1 : World) (d : Discovery) :
  no_faults w0 →
  discover w0 = (Ok d, w1) →
  d_completed d = ∅ →
  dom (listing_of (primary (replicate_resilient w0).2))
  = dom (listing_of (secondary (replicate_resilient w0).2))
  ∧ ∀ key, key ≠ STATE_KEY → key ≠ LOG_KEY →
      ¬ (is_Some (primary w0 !! key) ∧ is_Some (secondary w0 !! key)) →
      Body <$> primary (replicate_resilient w0).2 !! key
      = Body <$> secondary (replicate_resilient w0).2 !! key.
Proof.
  intros Hnf Hd HC.
  assert (∀ key, key ∉ d_completed d) as HkC
    by (intros key; rewrite HC; apply not_elem_of_empty).
  split.
  - apply listing_dom_agree. intros key H1 H2.
    apply (served_run_agree w0 d w1 key Hnf Hd (HkC key) H1 H2).
  - intros key H1 H2.
    apply (served_run_agree w0 d w1 key Hnf Hd (HkC key) H1 H2).
Qed.

Lemma served_run_converges_witness :
  dom (listing_of (primary (replicate_resilient Sample.w_two_files).2))
  = dom (listing_of (secondary (replicate_resilient Sample.w_two_files).2)).
Proof.
  destruct (discover Sample.w_two_files) as [r w1] eqn:Hd.
  assert (∃ d, r = Ok d) as [d ->].
  { apply (f_equal fst) in Hd. vm_compute in Hd. subst r. eexists. reflexivity. }
  pose proof Hd as Hd'. vm_compute in Hd'. injection Hd' as Hd1 Hw1.
  destruct (served_run_converges Sample.w_two_files w1 d) as [H _].
  - intros n. reflexivity.
  - exact Hd.
  - rewrite <- Hd1. reflexivity.
  - exact H.
Defined.

(** With every read served and the same truthy snapshot in both buckets,
    [load_state] returns that snapshot. *)
Lemma load_state_same w st :
  no_faults w →
  Body <$> primary w !! STATE_KEY = Some (StateDoc st) →
  Body <$> secondary w !! STATE_KEY = Some (StateDoc st) →
  state_truthy (Some st) = true →
  ∃ wa, load_state w = (Ok (Dict st), wa).
Proof.
  intros Hnf Hp Hs Ht.
  unfold load_state. unfold bind at 1.
  rewrite (load_state_from_first PRIMARY_BUCKET _ st (Hnf _) Hp).
  unfold bind at 1.
  rewrite (load_state_from_given SECONDARY_BUCKET _ _ st); [|apply Hnf|exact Hs].
  unfold doc_truthy.
  destruct (negb (state_truthy (Some st))
            || Py.gt (get_last_updated st) (get_last_updated st));
    rewrite Ht; by eexists.
Qed.

(** X16, running the script again right after a served run that started
    without a progress log: the second run's discovery succeeds, loads the
    snapshot the first run stored and an empty set of completed keys, and its
    loop has nothing to do: it makes no call, prints nothing and leaves the
    world as discovery left it. *)
Theorem second_run_is_idle (w0 w1 : World) (d : Discovery) :
  no_faults w0 →
  discover w0 = (Ok d, w1) →
  d_completed d = ∅ →
  ∃ d' v1,
    discover (replicate_resilient w0).2 = (Ok d', v1)
    ∧ snapshot_in PRIMARY_BUCKET (replicate_resilient w0).2 = Some (d_state d')
    ∧ d_completed d' = ∅
    ∧ sync d' v1 = (Ok (Continue ∅), v1).
Proof.
  intros Hnf Hd HC.
  assert (∀ key, key ≠ STATE_KEY → key ≠ LOG_KEY →
            is_Some (primary (replicate_resilient w0).2 !! key)
            ↔ is_Some (secondary (replicate_resilient w0).2 !! key)) as Hbal.
  { intros key H1 H2.
    apply (served_run_agree w0 d w1 key Hnf Hd); [|done..].
    rewrite HC. apply not_elem_of_empty. }
  destruct (served_run_ends w0 d w1 Hnf Hd)
    as (w' & C & w2 & stN & t1 & t2 & Hrun & _ & _ & Hpw & Hsw & _ & Htruthy & Hnf').
  rewrite Hrun in *. simpl in *.
  destruct (snapshot_in_finish PRIMARY_BUCKET w' _ _ _ Hpw) as [Hsnap Hlog].
  assert (Body <$> primary w' !! STATE_KEY = Some (StateDoc stN)) as Hp.
  { rewrite Hpw, lookup_delete_ne by (apply not_eq_sym, STATE_KEY_ne_LOG_KEY).
    by rewrite lookup_insert_eq. }
  assert (Body <$> secondary w' !! STATE_KEY = Some (StateDoc stN)) as Hs.
  { rewrite Hsw, lookup_delete_ne by (apply not_eq_sym, STATE_KEY_ne_LOG_KEY).
    by rewrite lookup_insert_eq. }
  destruct (load_state_same w' stN Hnf' Hp Hs Htruthy) as (wa & Hst).
  assert (loaded (primary w') = Ok ∅) as Hloaded.
  { unfold loaded. by rewrite Hpw, lookup_delete_eq. }
  destruct (discover w') as [[d'|e] v1] eqn:Hd'.
  - destruct (discover_served _ _ _ Hnf' Hd') as (_ & Hst' & Hlog' & Hpf & Hsf).
    rewrite Hst in Hst'. simpl in Hst'. injection Hst' as Hst'.
    rewrite Hloaded in Hlog'. injection Hlog' as Hlog'.
    exists d', v1. split; [done|]. split; [by rewrite Hsnap, Hst'|].
    split; [done|].
    unfold sync. rewrite <- Hlog'. apply sync_loop_noop. intros k _. right.
    rewrite Hpf, Hsf.
    rewrite planned_action_spec_action by apply listing_wf_listing_of.
    rewrite (listing_dom_agree _ _ Hbal).
    unfold spec_action.
    by destruct (bool_decide (k ∈ dom (listing_of (secondary w')))).
  - exfalso.
    apply discover_Raise_inv in Hd' as [Hr|[(st' & wb & Hst' & Hr)|(keys & Hr & _)]].
    + by rewrite Hst in Hr.
    + apply load_state_frame in Hst' as ((HP & _ & _ & Hf) & _).
      rewrite load_progress_log_served, HP, Hloaded in Hr; [done|].
      rewrite Hf. apply Hnf'.
    + by rewrite Hst in Hr.
Qed.

Lemma second_run_is_idle_witness :
  ∃ d' v1,
    discover (replicate_resilient Sample.w_new_file).2 = (Ok d', v1)
    ∧ sync d' v1 = (Ok (Continue ∅), v1).
Proof.
  destruct (discover Sample.w_new_file) as [r w1] eqn:Hd.
  assert (∃ d, r = Ok d) as [d ->].
  { apply (f_equal fst) in Hd. vm_compute in Hd. subst r. eexists. reflexivity. }
  pose proof Hd as Hd'. vm_compute in Hd'. injection Hd' as Hd1 Hw1.
  destruct (second_run_is_idle Sample.w_new_file w1 d) as (d' & v1 & H1 & _ & _ & H2).
  - intros n. reflexivity.
  - exact Hd.
  - rewrite <- Hd1. reflexivity.
  - exists d', v1. split; [exact H1|exact H2].
Defined.

(** ** Time stamps *)

Lemma digit_compare a b :
  a < 10 → b < 10 → Ascii.compare (digit a) (digit b) = (a ?= b).
Proof.
  intros Ha Hb.
  do 10 (destruct a as [|a]; [do 10 (destruct b as [|b]; [reflexivity|]); lia|]); lia.
Qed.

Lemma compare_String a b s t :
  String.compare (String a s) (String b t)
  = match Ascii.compare a b with Eq => String.compare s t | c => c end.
Proof. reflexivity. Qed.

Lemma digit_mod n : digit n = digit (n `mod` 10).
Proof. unfold digit. by rewrite Nat.Div0.mod_mod. Qed.



(** Comparing two numbers by a leading part and a rest. *)
Lemma compare_split (q q' r r' b : nat) :
  r < b → r' < b →
  (b * q + r ?= b * q' + r')
  = match q ?= q' with Eq => r ?= r' | c => c end.
Proof.
  intros Hr Hr'.
  destruct (Nat.compare_spec q q') as [->|Hq|Hq].
  - destruct (Nat.compare_spec r r') as [->|Hrr|Hrr].
    + apply Nat.compare_refl.
    + apply Nat.compare_lt_iff. lia.
    + apply Nat.compare_gt_iff. lia.
  - apply Nat.compare_lt_iff. nia.
  - apply Nat.compare_gt_iff. nia.
Qed.

Lemma compare_d2 n m s t :
  String.compare (d2 n s) (d2 m t)
  = match n `mod` 100 ?= m `mod` 100 with Eq => String.compare s t | c => c end.
Proof.
  unfold d2. rewrite !compare_String.
  rewrite (digit_mod (n `div` 10)), (digit_mod (m `div` 10)), (digit_mod n), (digit_mod m).
  rewrite !digit_compare by (apply Nat.mod_upper_bound; lia).
  assert (n `mod` 100 = 10 * ((n `div` 10) `mod` 10) + n `mod` 10) as ->.
  { change 100 with (10 * 10). rewrite (Nat.Div0.mod_mul_r n 10 10). lia. }
  assert (m `mod` 100 = 10 * ((m `div` 10) `mod` 10) + m `mod` 10) as ->.
  { change 100 with (10 * 10). rewrite (Nat.Div0.mod_mul_r m 10 10). lia. }
  rewrite compare_split by (apply Nat.mod_upper_bound; lia).
  by destruct ((n `div` 10) `mod` 10 ?= (m `div` 10) `mod` 10).
Qed.

Lemma compare_d2_small n m s t :
  n < 100 → m < 100 →
  String.compare (d2 n s) (d2 m t)
  = match n ?= m with Eq => String.compare s t | c => c end.
Proof. intros Hn Hm. by rewrite compare_d2, !Nat.mod_small. Qed.

Lemma compare_d4 n m s t :
  n < 100 * 100 → m < 100 * 100 →
  String.compare (d4 n s) (d4 m t)
  = match n ?= m with Eq => String.compare s t | c => c end.
Proof.
  intros Hn Hm. unfold d4. rewrite !compare_d2.
  rewrite (Nat.mod_small (n `div` 100)) by (apply Nat.Div0.div_lt_upper_bound; lia).
  rewrite (Nat.mod_small (m `div` 100)) by (apply Nat.Div0.div_lt_upper_bound; lia).
  rewrite (Nat.div_mod_eq n 100) at 3. rewrite (Nat.div_mod_eq m 100) at 3.
  rewrite compare_split by (apply Nat.mod_upper_bound; lia).
  by destruct (n `div` 100 ?= m `div` 100).
Qed.

Lemma compare_d6 n m s t :
  n < 100 * 100 * 100 → m < 100 * 100 * 100 →
  String.compare (d6 n s) (d6 m t)
  = match n ?= m with Eq => String.compare s t | c => c end.
Proof.
  intros Hn Hm. unfold d6, d4. rewrite !compare_d2.
  rewrite (Nat.mod_small ((n `div` 100) `div` 100))
    by (do 2 apply Nat.Div0.div_lt_upper_bound; lia).
  rewrite (Nat.mod_small ((m `div` 100) `div` 100))
    by (do 2 apply Nat.Div0.div_lt_upper_bound; lia).
  rewrite (Nat.div_mod_eq n 100) at 4. rewrite (Nat.div_mod_eq m 100) at 4.
  rewrite compare_split by (apply Nat.mod_upper_bound; lia).
  rewrite (Nat.div_mod_eq (n `div` 100) 100) at 3.
  rewrite (Nat.div_mod_eq (m `div` 100) 100) at 3.
  rewrite compare_split by (apply Nat.mod_upper_bound; lia).
  destruct ((n `div` 100) `div` 100 ?= (m `div` 100) `div` 100); try done.
  by destruct ((n `div` 100) `mod` 100 ?= (m `div` 100) `mod` 100).
Qed.

Lemma isoformat_compare (a b : datetime) :
  dt_valid a → dt_valid b →
  String.compare (isoformat a) (isoformat b) = dt_compare a b.
Proof.
  intros (Ha1 & Ha2 & Ha3 & Ha4 & Ha5 & Ha6 & Ha7) (Hb1 & Hb2 & Hb3 & Hb4 & Hb5 & Hb6 & Hb7).
  unfold isoformat, dt_compare. simpl lex_compare.
  rewrite compare_d4 by done. destruct (year a ?= year b); [|done..].
  rewrite compare_String. simpl Ascii.compare. cbv iota.
  rewrite compare_d2_small by done. destruct (month a ?= month b); [|done..].
  rewrite compare_String. simpl Ascii.compare. cbv iota.
  rewrite compare_d2_small by done. destruct (day a ?= day b); [|done..].
  rewrite compare_String. simpl Ascii.compare. cbv iota.
  rewrite compare_d2_small by done. destruct (hour a ?= hour b); [|done..].
  rewrite compare_String. simpl Ascii.compare. cbv iota.
  rewrite compare_d2_small by done. destruct (minute a ?= minute b); [|done..].
  rewrite compare_String. simpl Ascii.compare. cbv iota.
  rewrite compare_d2_small by done. destruct (second a ?= second b); [|done..].
  destruct (microsecond a) as [|ua] eqn:Ea; destruct (microsecond b) as [|ub] eqn:Eb;
    try reflexivity.
  rewrite compare_String. simpl Ascii.compare. cbv iota.
  rewrite compare_d6 by done.
  by destruct (S ua ?= S ub).
Qed.

(** Python's [>] on two [isoformat] texts. *)
Lemma isoformat_gt (a b : datetime) :
  dt_valid a → dt_valid b →
  Py.gt (isoformat a) (isoformat b)
  = match dt_compare a b with Gt => true | _ => false end.
Proof.
  intros Ha Hb. unfold Py.gt, String.ltb.
  rewrite String.compare_antisym, isoformat_compare by done.
  by destruct (dt_compare a b).
Qed.

(** X17, the time stamps the script compares as strings ([last_updated] in
    [load_state], the two modification times in [rebuild_files_state]) are
    [isoformat] texts, and on those Python's string order is the order in
    time: [isoformat a > isoformat b] holds exactly when [a] is the later
    moment, also when one of the two has no fraction of a second and is
    printed shorter; equal texts mean the same moment. *)
Theorem isoformat_orders_by_time (a b : datetime) :
  dt_valid a → dt_valid b →
  String.compare (isoformat a) (isoformat b) = dt_compare a b
  ∧ (Py.gt (isoformat a) (isoformat b) = true ↔ dt_compare a b = Gt)
  ∧ (isoformat a = isoformat b ↔ dt_compare a b = Eq).
Proof.
  intros Ha Hb. split; [by apply isoformat_compare|]. split.
  - rewrite isoformat_gt by done. by destruct (dt_compare a b).
  - rewrite <- isoformat_compare by done. split.
    + intros ->. generalize (isoformat b). intros s.
      induction s as [|c s IH]; simpl; [done|].
      unfold Ascii.compare. by rewrite N.compare_refl.
    + apply String.compare_eq_iff.
Qed.

Lemma isoformat_orders_by_time_witness :
  Py.gt (isoformat Sample.t0_later) (isoformat Sample.t0) = true.
Proof.
  destruct (isoformat_orders_by_time Sample.t0_later Sample.t0) as (_ & [_ H] & _).
  - unfold dt_valid, Sample.t0_later.
    cbn [year month day hour minute second microsecond]. repeat split; lia.
  - unfold dt_valid, Sample.t0.
    cbn [year month day hour minute second microsecond]. repeat split; lia.
  - apply H. reflexivity.
Defined.

(** ** A run that stops *)

Lemma planned_action_control st pf sf key :
  listing_wf pf → listing_wf sf →
  key = STATE_KEY ∨ key = LOG_KEY →
  planned_action st pf sf key = NoAction.
Proof.
  intros Hp Hs Hk.
  rewrite planned_action_spec_action by done.
  rewrite !bool_decide_eq_false_2; [done|..];
    intros [t Ht]%elem_of_dom; [apply Hs in Ht|apply Hp in Ht];
    destruct Ht as (_ & ? & ?); by destruct Hk.
Qed.

(** X18, a run that an action failure stops: whatever failed before, and
    however many keys went through, the run returns with both stored
    snapshots exactly as it found them.  The snapshot is written by the tail
    of the run only; the loop never touches it. *)
Theorem stopped_run_keeps_snapshot (w w1 w2 : World) (d : Discovery) (b : Bucket) :
  discover w = (Ok d, w1) →
  sync d w1 = (Ok Return, w2) →
  replicate_resilient w = (Ok tt, w2)
  ∧ contents b w2 !! STATE_KEY = contents b w !! STATE_KEY.
Proof.
  intros Hd Hsync. split.
  { unfold replicate_resilient.
    by rewrite (bind_Ok _ _ _ _ _ Hd), (bind_Ok _ _ _ _ _ Hsync). }
  destruct (discover_inv _ _ _ Hd) as (_ & _ & _ & _ & Hq & _ & Hp & Hs & _).
  apply listing_wf_subseteq in Hp, Hs.
  pose proof (sync_loop_touches (d_state d) (d_primary_files d) (d_secondary_files d)
                (Py.sorted (all_keys d)) (d_completed d) w1 b STATE_KEY) as Hloop.
  unfold sync in Hsync. rewrite Hsync in Hloop. simpl in Hloop.
  rewrite Hloop, (quiet_contents _ _ b Hq); [done| |apply STATE_KEY_ne_LOG_KEY].
  right. right. apply planned_action_control; auto.
Qed.

Lemma stopped_run_keeps_snapshot_witness :
  ∃ w2, replicate_resilient Sample.w_copy_fails = (Ok tt, w2)
    ∧ primary w2 !! STATE_KEY = primary Sample.w_copy_fails !! STATE_KEY.
Proof.
  destruct (discover Sample.w_copy_fails) as [r w1] eqn:Hd.
  assert (∃ d, r = Ok d) as [d ->].
  { apply (f_equal fst) in Hd. vm_compute in Hd. subst r. eexists. reflexivity. }
  pose proof Hd as Hd'. vm_compute in Hd'. injection Hd' as Hd1 Hw1.
  destruct (sync d w1) as [fl w2] eqn:Hs.
  assert (fl = Ok Return) as ->.
  { apply (f_equal fst) in Hs. rewrite <- Hd1, <- Hw1 in Hs.
    vm_compute in Hs. symmetry. exact Hs. }
  exists w2.
  exact (stopped_run_keeps_snapshot Sample.w_copy_fails w1 w2 d PRIMARY_BUCKET Hd Hs).
Defined.


(** X19, the [source] of a rebuilt record: for a key that both buckets hold,
    listing both buckets (every page served) and rebuilding gives the key a
    record whose [source] names the bucket whose object was modified later,
    and ["equal"] when both were modified at the same moment. *)
Theorem rebuilt_source_is_later_side (w wa wb : World)
    (pf sf : gmap string string) (key : string) (op os : Obj) :
  no_faults w →
  list_bucket_objects PRIMARY_BUCKET w = (Ok pf, wa) →
  list_bucket_objects SECONDARY_BUCKET wa = (Ok sf, wb) →
  primary w !! key = Some op → secondary w !! key = Some os →
  key ≠ STATE_KEY → key ≠ LOG_KEY →
  dt_valid (LastModified op) → dt_valid (LastModified os) →
  ∃ files wc r,
    rebuild_files_state pf sf wb = (Ok files, wc)
    ∧ files !! key = Some r
    ∧ last_seen_in r = ["primary"; "secondary"]
    ∧ source r =
        match dt_compare (LastModified op) (LastModified os) with
        | Gt => "primary"
        | Lt => "secondary"
        | Eq => "equal"
        end.
Proof.
  intros Hnf Ha Hb Hp Hs H1 H2 Hvp Hvs.
  destruct (list_bucket_objects_spec PRIMARY_BUCKET w)
    as (pf' & wa' & Ha' & _ & Hqa & _ & _ & Hpf).
  rewrite Ha in Ha'. injection Ha' as <- <-.
  destruct (list_bucket_objects_spec SECONDARY_BUCKET wa)
    as (sf' & wb' & Hb' & _ & _ & _ & _ & Hsf).
  rewrite Hb in Hb'. injection Hb' as <- <-.
  rewrite Hpf by done. rewrite Hsf by (by eapply no_faults_quiet).
  simpl. destruct Hqa as (_ & -> & _).
  assert (is_Some (primary w !! key)) as Hip by eauto.
  assert (is_Some (secondary w !! key)) as His by eauto.
  apply (elem_of_listing_dom _ _ H1 H2) in Hip, His.
  unfold rebuild_files_state.
  destruct (rebuild_loop_spec (listing_of (primary w)) (listing_of (secondary w))
              (elements (dom (listing_of (primary w)) ∪ dom (listing_of (secondary w))))
              ∅ wb) as (files & wc & Hrun & _ & _ & _ & Hin).
  destruct (Hin key) as (n & _ & Hl).
  { apply elem_of_elements, elem_of_union. by left. }
  assert (listing_of (primary w) !! key = Some (isoformat (LastModified op))) as Elp.
  { rewrite listing_of_lookup, bool_decide_eq_false_2, Hp; [done|]. by intros [?|?]. }
  assert (listing_of (secondary w) !! key = Some (isoformat (LastModified os))) as Els.
  { rewrite listing_of_lookup, bool_decide_eq_false_2, Hs; [done|]. by intros [?|?]. }
  rewrite Elp, Els, (bool_decide_eq_true_2 _ Hip), (bool_decide_eq_true_2 _ His) in Hl.
  cbv [default from_option id] in Hl.
  rewrite (isoformat_gt _ _ Hvp Hvs), (isoformat_gt _ _ Hvs Hvp) in Hl.
  pose proof (isoformat_compare (LastModified os) (LastModified op) Hvs Hvp) as Hc.
  rewrite String.compare_antisym, (isoformat_compare _ _ Hvp Hvs) in Hc.
  rewrite <- Hc in Hl.
  eexists files, wc, _. split; [exact Hrun|]. split; [exact Hl|].
  split; [reflexivity|]. cbn [source].
  destruct (dt_compare (LastModified op) (LastModified os)); reflexivity.
Qed.

Lemma rebuilt_source_is_later_side_witness :
  ∃ pf wa sf wb files wc r,
    list_bucket_objects PRIMARY_BUCKET Sample.w_primary_newer = (Ok pf, wa)
    ∧ list_bucket_objects SECONDARY_BUCKET wa = (Ok sf, wb)
    ∧ rebuild_files_state pf sf wb = (Ok files, wc)
    ∧ files !! "x.txt" = Some r
    ∧ source r = "primary".
Proof.
  destruct (list_bucket_objects_spec PRIMARY_BUCKET Sample.w_primary_newer)
    as (pf & wa & Ha & _).
  destruct (list_bucket_objects_spec SECONDARY_BUCKET wa) as (sf & wb & Hb & _).
  destruct (rebuilt_source_is_later_side Sample.w_primary_newer wa wb pf sf "x.txt"
              {| Body := Bytes "X2"; LastModified := Sample.t0_later |}
              (Sample.file "X"))
    as (files & wc & r & Hr & Hl & _ & Hsrc).
  - intros n. reflexivity.
  - exact Ha.
  - exact Hb.
  - reflexivity.
  - reflexivity.
  - discriminate.
  - discriminate.
  - unfold dt_valid, Sample.t0_later.
    cbn [LastModified year month day hour minute second microsecond].
    repeat split; lia.
  - unfold dt_valid, Sample.file, Sample.t0.
    cbn [LastModified year month day hour minute second microsecond].
    repeat split; lia.
  - exists pf, wa, sf, wb, files, wc, r.
    split; [exact Ha|]. split; [exact Hb|]. split; [exact Hr|].
    split; [exact Hl|]. exact Hsrc.
Defined.

(** ** Control files of the script's own making *)

Lemma holds_snapshot_same b w w' :
  contents b w' !! STATE_KEY = contents b w !! STATE_KEY →
  holds_snapshot b w → holds_snapshot b w'.
Proof. unfold holds_snapshot. by intros ->. Qed.

Lemma holds_log_same b w w' :
  contents b w' !! LOG_KEY = contents b w !! LOG_KEY →
  holds_log b w → holds_log b w'.
Proof. unfold holds_log. by intros ->. Qed.

Lemma process_key_holds_log st pf sf key C w b :
  listing_wf pf → listing_wf sf →
  holds_log b w → holds_log b (process_key st pf sf key C w).2.
Proof.
  intros Hp Hs Hl.
  destruct (decide (key ∈ C ∨ planned_action st pf sf key = NoAction)) as [Hskip|Hact].
  { by rewrite process_key_skip. }
  assert (key ∉ C) as HkC by (intros ?; apply Hact; by left).
  destruct (call_of (planned_action st pf sf key) key) as [c|] eqn:Hc.
  2:{ exfalso. apply Hact. right. by destruct (planned_action st pf sf key). }
  assert (LOG_KEY ≠ key) as Hne.
  { intros <-. destruct (planned_call_listed _ _ _ _ _ Hc) as [_ [Hin|Hin]];
      apply elem_of_dom in Hin as [t Ht]; [apply Hp in Ht|apply Hs in Ht];
      by destruct Ht as (_ & _ & ?). }
  destruct (process_key_turn st pf sf key C w c HkC Hc)
    as (o & v1 & _ & _ & _ & _ & Hother & Ho).
  pose proof (holds_log_same b w v1 (Hother b LOG_KEY Hne) Hl) as Hv1.
  destruct o as [code|].
  - destruct Ho as (-> & _). simpl. by destruct b.
  - destruct Ho as (v' & o1 & o2 & -> & _ & _ & _ & [t1 HP] & [t2 HS]). simpl.
    unfold holds_log in *.
    destruct b; simpl in *.
    + rewrite HP. destruct o1; [done|]. rewrite lookup_insert_eq.
      intros o [= <-]. by eexists.
    + rewrite HS. destruct o2; [done|]. rewrite lookup_insert_eq.
      intros o [= <-]. by eexists.
Qed.

Lemma sync_loop_holds_log st pf sf keys C w b :
  listing_wf pf → listing_wf sf →
  holds_log b w → holds_log b (sync_loop st pf sf keys C w).2.
Proof.
  intros Hp Hs. revert C w.
  induction keys as [|key keys IH]; intros C w Hl; [done|].
  cbn [sync_loop]. unfold bind at 1.
  pose proof (process_key_holds_log st pf sf key C w b Hp Hs Hl) as H1.
  destruct (process_key_frame st pf sf key C w) as (r & w1 & Hrun & _).
  rewrite Hrun in H1 |- *. simpl in H1.
  destruct r as [C1|]; [by apply IH|done].
Qed.

Lemma save_state_own state w b :
  holds_snapshot b w → holds_snapshot b (save_state state w).2.
Proof.
  unfold holds_snapshot.
  unfold save_state, save_state_to, try_except, bind, now, s3.put_object, print, ret.
  simpl. intros H.
  repeat case_match; simplify_eq/=; destruct b; simpl in *;
    rewrite ?lookup_insert_eq; try done; intros o [= <-]; by eexists.
Qed.

Lemma delete_progress_log_own w b :
  holds_log b w → holds_log b (delete_progress_log w).2.
Proof.
  unfold holds_log.
  unfold delete_progress_log, delete_progress_log_from, try_except, bind,
    s3.delete_object, print, ret.
  simpl. intros H.
  repeat case_match; simplify_eq/=; destruct b; simpl in *;
    rewrite ?lookup_delete_eq; done.
Qed.

(** The tail of the run as three steps: reading, saving the snapshot,
    deleting the log. *)
Lemma finish_steps state w :
  ∃ st w3,
    quiet w w3
    ∧ (finish state w).2
      = (delete_progress_log (emit MsgCleaning (save_state st w3).2)).2.
Proof.
  unfold finish. unfold bind at 1, print at 1. unfold bind at 1.
  destruct (list_bucket_objects_spec PRIMARY_BUCKET (emit MsgSyncComplete w))
    as (pf & w1 & -> & _ & Hq1 & _).
  unfold bind at 1.
  destruct (list_bucket_objects_spec SECONDARY_BUCKET w1)
    as (sf & w2 & -> & _ & Hq2 & _).
  unfold bind at 1.
  destruct (rebuild_files_state pf sf w2) as [r3 w3] eqn:E3.
  pose proof E3 as E3'. unfold rebuild_files_state in E3'.
  apply rebuild_loop_quiet in E3' as [Hq3 _].
  destruct (rebuild_loop_spec pf sf (elements (dom pf ∪ dom sf)) ∅ w2)
    as (files & w3' & E3' & _).
  unfold rebuild_files_state in E3. rewrite E3' in E3. simplify_eq.
  unfold bind at 1.
  exists {| files := Some files; last_updated := last_updated state |}, w3.
  split.
  { eapply quiet_trans; [|exact Hq3]. eapply quiet_trans; [|exact Hq2].
    eapply quiet_trans; [apply emit_quiet|exact Hq1]. }
  destruct (save_state_frame
              {| files := Some files; last_updated := last_updated state |} w3)
    as (st' & w4 & E4 & _).
  rewrite E4. simpl. unfold bind at 1, print at 1. reflexivity.
Qed.

Lemma finish_own state w b :
  (holds_snapshot b w → holds_snapshot b (finish state w).2)
  ∧ (holds_log b w → holds_log b (finish state w).2).
Proof.
  destruct (finish_steps state w) as (st & w3 & Hq & ->).
  pose proof (quiet_contents _ _ b Hq) as Hw3.
  pose proof (save_state_own st w3 b) as Hs4.
  pose proof (save_state_touches st w3 b LOG_KEY
                (not_eq_sym STATE_KEY_ne_LOG_KEY)) as Hl4.
  set (w4 := (save_state st w3).2) in *.
  pose proof (delete_progress_log_own (emit MsgCleaning w4) b) as Hl5.
  pose proof (delete_progress_log_touches (emit MsgCleaning w4) b STATE_KEY
                STATE_KEY_ne_LOG_KEY) as Hs5.
  split.
  - intros H. eapply holds_snapshot_same; [exact Hs5|].
    eapply (holds_snapshot_same b w4); [by destruct b|].
    apply Hs4. eapply holds_snapshot_same; [|exact H]. by rewrite Hw3.
  - intros H. apply Hl5.
    eapply (holds_log_same b w4); [by destruct b|].
    eapply holds_log_same; [exact Hl4|].
    eapply holds_log_same; [|exact H]. by rewrite Hw3.
Qed.

Lemma replicate_resilient_steps w :
  match discover w with
  | (Raise e, w1) => replicate_resilient w = (Raise e, w1)
  | (Ok d, w1) =>
      match sync d w1 with
      | (Ok (Continue _), w2) => replicate_resilient w = finish (d_state d) w2
      | (Ok Return, w2) => replicate_resilient w = (Ok tt, w2)
      | (Raise e, w2) => replicate_resilient w = (Raise e, w2)
      end
  end.
Proof.
  unfold replicate_resilient, bind, ret.
  destruct (discover w) as [[d|e] w1]; [|done].
  by destruct (sync d w1) as [[[C|]|e] w2].
Qed.

Lemma replicate_resilient_own w b :
  (holds_snapshot b w → holds_snapshot b (replicate_resilient w).2)
  ∧ (holds_log b w → holds_log b (replicate_resilient w).2).
Proof.
  pose proof (replicate_resilient_steps w) as Hsteps.
  destruct (discover w) as [[d|e] w1] eqn:Hd.
  2:{ rewrite Hsteps. apply discover_quiet in Hd.
      pose proof (quiet_contents _ _ b Hd) as Hc.
      split; intros H.
      - eapply holds_snapshot_same; [|exact H]. exact (f_equal (.!! STATE_KEY) Hc).
      - eapply holds_log_same; [|exact H]. exact (f_equal (.!! LOG_KEY) Hc). }
  destruct (discover_inv _ _ _ Hd) as (_ & _ & _ & _ & Hq & _ & Hp & Hs & _).
  apply listing_wf_subseteq in Hp, Hs.
  pose proof (quiet_contents _ _ b Hq) as Hc.
  pose proof (sync_loop_touches (d_state d) (d_primary_files d) (d_secondary_files d)
                (Py.sorted (all_keys d)) (d_completed d) w1 b STATE_KEY) as Hst.
  pose proof (sync_loop_holds_log (d_state d) (d_primary_files d)
                (d_secondary_files d) (Py.sorted (all_keys d)) (d_completed d)
                w1 b Hp Hs) as Hlg.
  unfold sync in Hsteps.
  destruct (sync_loop_frame (d_state d) (d_primary_files d) (d_secondary_files d)
              (Py.sorted (all_keys d)) (d_completed d) w1)
    as (fl & w2 & Hsync & _).
  rewrite Hsync in Hst, Hlg, Hsteps. simpl in Hst, Hlg.
  assert (holds_snapshot b w → holds_snapshot b w2) as Hs2.
  { intros H. eapply holds_snapshot_same; [apply Hst|].
    - right. right. apply planned_action_control; auto.
    - apply STATE_KEY_ne_LOG_KEY.
    - eapply holds_snapshot_same; [|exact H]. exact (f_equal (.!! STATE_KEY) Hc). }
  assert (holds_log b w → holds_log b w2) as Hl2.
  { intros H. apply Hlg. eapply holds_log_same; [|exact H].
    exact (f_equal (.!! LOG_KEY) Hc). }
  destruct fl as [C|]; rewrite Hsteps; [|done].
  destruct (finish_own (d_state d) w2 b) as [Hfs Hfl]. split; auto.
Qed.

Lemma load_state_own w :
  holds_snapshot PRIMARY_BUCKET w → holds_snapshot SECONDARY_BUCKET w →
  ∃ st, (load_state w).1 = Ok (Dict st).
Proof.
  intros Hp Hs. unfold holds_snapshot in Hp, Hs. simpl in Hp, Hs.
  unfold load_state, load_state_from, fresh_state, try_except, bind,
    s3.get_object, json_loads, doc_get, print, now, ret, raise.
  simpl.
  destruct (fault w (tick w)); simpl;
    [|destruct (primary w !! STATE_KEY) as [[bp tp]|]; simpl;
      [destruct (Hp _ eq_refl) as [stp Hbp]; simpl in Hbp; subst bp; simpl|]];
    (destruct (fault w (S (tick w))); simpl;
     [|destruct (secondary w !! STATE_KEY) as [[bs ts]|]; simpl;
       [destruct (Hs _ eq_refl) as [sts Hbs]; simpl in Hbs; subst bs; simpl|]]);
    repeat (case_match; simplify_eq/=; try done); by eexists.
Qed.

Lemma load_progress_log_own w :
  holds_log PRIMARY_BUCKET w → ∃ C, (load_progress_log w).1 = Ok C.
Proof.
  intros Hown. unfold holds_log in Hown. simpl in Hown.
  unfold load_progress_log, try_except, bind, s3.get_object, json_loads,
    print, ret, raise.
  destruct (fault w (tick w)); simpl; [case_bool_decide; by eexists|].
  destruct (primary w !! LOG_KEY) as [[bd t]|]; simpl; [|by eexists].
  destruct (Hown _ eq_refl) as [keys Hb]. simpl in Hb. subst bd. by eexists.
Qed.

Lemma discover_own w :
  own_documents w → ∃ d w1, discover w = (Ok d, w1).
Proof.
  intros (Hp & Hs & Hl).
  destruct (load_state_own w Hp Hs) as [st Hst].
  destruct (discover w) as [[d|e] w1] eqn:Hd; [by eexists _, _|].
  exfalso.
  apply discover_Raise_inv in Hd as [Hr|[(st' & wa & Hst' & Hr)|(keys & Hr & _)]].
  - by rewrite Hst in Hr.
  - apply load_state_frame in Hst' as ((HP & _) & _).
    destruct (load_progress_log_own wa) as [C HC]; [|by rewrite HC in Hr].
    unfold holds_log. simpl. by rewrite HP.
  - by rewrite Hst in Hr.
Qed.

(** X9, exceptions: as long as the control files that a run reads are
    documents of the kind the script itself writes (a snapshot or nothing
    under the snapshot's key of either bucket, a log or nothing under the
    log's key of the primary bucket), no exception leaves the script,
    whatever the store refuses: every [ClientError] is caught.  The run
    leaves control files of that kind behind, so the same holds for the run
    after it. *)
Theorem run_on_own_documents_never_raises (w : World) :
  own_documents w →
  (main w).1 = Ok tt ∧ own_documents (main w).2.
Proof.
  intros Hown. rewrite main_unfold.
  set (w0 := emit (MsgStarting (isoformat (clock w (tick w)))) (advance w)).
  assert (own_documents w0) as Hown0 by exact Hown.
  destruct (replicate_resilient w0) as [[[]|e] w'] eqn:Hrun.
  - split; [done|]. simpl.
    destruct Hown0 as (Hp & Hs & Hl).
    pose proof (replicate_resilient_own w0 PRIMARY_BUCKET) as [HP HL].
    pose proof (replicate_resilient_own w0 SECONDARY_BUCKET) as [HS _].
    rewrite Hrun in HP, HL, HS. simpl in HP, HL, HS.
    split; [exact (HP Hp)|]. split; [exact (HS Hs)|exact (HL Hl)].
  - exfalso. apply replicate_resilient_Raise in Hrun.
    destruct (discover_own w0 Hown0) as (d & w1 & Hd).
    by rewrite Hd in Hrun.
Qed.

Lemma run_on_own_documents_never_raises_witness :
  (main Sample.w_store_down).1 = Ok tt.
Proof.
  apply run_on_own_documents_never_raises.
  split; [|split]; intros o Ho; vm_compute in Ho; injection Ho as <-;
    eexists; reflexivity.
Defined.


(** ** Control files of another kind *)

(** A list under the snapshot's key: [load_state] hands it back as it is,
    and the run raises [AttributeError] at [state.get], after both listings
    and before any object is changed. *)
Example list_as_snapshot :
  (load_state Sample.w_list_as_snapshot).1 = Ok (List ["a.txt"])
  ∧ (main Sample.w_list_as_snapshot).1 = Raise (OtherError "AttributeError")
  ∧ calls (main Sample.w_list_as_snapshot).2
    = [ (GetObject PRIMARY_BUCKET STATE_KEY, None);
        (GetObject SECONDARY_BUCKET STATE_KEY, Some "NoSuchKey");
        (GetObject PRIMARY_BUCKET LOG_KEY, Some "NoSuchKey");
        (ListPage PRIMARY_BUCKET 0, None);
        (ListPage SECONDARY_BUCKET 0, None) ].
Proof. repeat split; vm_compute; reflexivity. Qed.

(** An empty list is falsy like an empty dict: the run starts fresh. *)
Example empty_list_as_snapshot :
  (load_state Sample.w_empty_list_as_snapshot).1
  = Ok (Dict {| files := Some ∅;
                last_updated := Some "2025-01-01T00:00:02+00:00" |}).
Proof. vm_compute. reflexivity. Qed.

(** A dict under the log's key: [set] of a dict is the set of its keys, and
    the run goes on with them as completed keys. *)
Example snapshot_as_log :
  (load_progress_log Sample.w_snapshot_as_log).1
  = Ok {[ "files"; "last_updated" ]}.
Proof. vm_compute. reflexivity. Qed.

(** Content that is not JSON under the snapshot's key: [json.loads] raises,
    and the exception leaves the script. *)
Example garbled_snapshot :
  (main Sample.w_garbled_state).1 = Raise (OtherError "json").
Proof. vm_compute. reflexivity. Qed.
